(** * The G-vector set of SIRIUS ([src/gvec.h]): enumeration of z-columns,
      distribution over ranks, packed addresses, shells and the tables
      for the FFT communicator.

    C++ [int] values are integers of [Z]; positions in a [std::vector] are
    natural numbers once they have passed the range test of the access.
    The floating-point tests of the source (the cutoff test and the
    quantised length of G+k) enter as functions on integer triples.  The
    lengths of the shells are [double] values: binary64 numbers of the
    Standard Library ([SpecFloat]), with its conversion and product. *)

From Stdlib Require Import ZArith Lia SpecFloat.
From stdpp Require Import base tactics option list list_numbers gmap sorting strings.

Local Open Scope Z_scope.

(** ** Outcomes of a run *)

(** What stops a run: [TERMINATE(msg)], a violated [assert], or a step the
    language leaves undefined (an access outside a container, the
    dereference of [end()], a division by zero, a negative size). *)
Inductive fault : Type :=
  | Terminate (msg : string)
  | AssertionFailure
  | Undefined.

Inductive result (A : Type) : Type :=
  | Ok (a : A)
  | Fail (f : fault).
Global Arguments Ok {A} a.
Global Arguments Fail {A} f.

Global Instance result_ret : MRet result := λ A a, Ok a.
Global Instance result_bind : MBind result := λ A B f m,
  match m with
  | Ok a => f a
  | Fail e => Fail e
  end.

(** A loop over the elements of [l] that threads the state [s]. *)
Fixpoint foldM {A S : Type} (body : S → A → result S) (s : S) (l : list A) : result S :=
  match l with
  | [] => Ok s
  | a :: l' => s' ← body s a; foldM body s' l'
  end.

(** [v[i]] for an [int] index. *)
Definition at_ {A : Type} (v : list A) (i : Z) : result A :=
  if bool_decide (0 ≤ i)
  then match v !! Z.to_nat i with
       | Some a => Ok a
       | None => Fail Undefined
       end
  else Fail Undefined.

Definition assertion (b : bool) : result unit :=
  if b then Ok () else Fail AssertionFailure.

Definition size {A : Type} (v : list A) : Z := Z.of_nat (length v).

Definition sumZ (l : list Z) : Z := foldr Z.add 0 l.

(** The quotient rounded up. *)
Definition ceil_div (a b : Z) : Z := (a + b - 1) `div` b.

(** ** Descriptors *)

(** Modelled from the spec: the declaration of [z_column_descriptor] is not
    part of the sources at hand.  A column is identified by its (x, y)
    pair, owns the sequence of its z-indices and an offset that is assigned
    later ([None] until then). *)
Record z_column_descriptor : Type := mk_z_column {
  col_x : Z;
  col_y : Z;
  col_z : list Z;
  col_offset : option Z
}.

Definition z_column (x y : Z) (z : list Z) : z_column_descriptor :=
  mk_z_column x y z None.

Definition zsize (c : z_column_descriptor) : Z := size (col_z c).

Definition set_offset (o : Z) (c : z_column_descriptor) : z_column_descriptor :=
  mk_z_column (col_x c) (col_y c) (col_z c) (Some o).

Definition col_xy (c : z_column_descriptor) : Z * Z := (col_x c, col_y c).

(** The part of a column that only the enumerator writes. *)
Definition col_content (c : z_column_descriptor) : Z * Z * list Z :=
  (col_x c, col_y c, col_z c).

(** The length of the longest column. *)
Definition max_zsize (cols : list z_column_descriptor) : Z :=
  foldr (λ c m, Z.max (zsize c) m) 0 cols.

(** The index of the first G-vector of the column [k]. *)
Definition column_start (cols : list z_column_descriptor) (k : nat) : Z :=
  sumZ (zsize <$> take k cols).

(** Modelled from the spec: the declaration of [block_data_descriptor] is
    not part of the sources at hand.  A distribution table is a count per
    rank and an offset per rank, the offsets being the exclusive prefix
    sums of the counts. *)
Record block_data_descriptor : Type := mk_block {
  counts : list Z;
  offsets : list Z
}.

(** [block_data_descriptor(n)]: [n] counts and offsets, all zero. *)
Definition block_new (n : Z) : result block_data_descriptor :=
  if bool_decide (0 ≤ n)
  then Ok (mk_block (replicate (Z.to_nat n) 0) (replicate (Z.to_nat n) 0))
  else Fail Undefined.

Fixpoint prefix_sums (acc : Z) (l : list Z) : list Z :=
  match l with
  | [] => []
  | c :: l' => acc :: prefix_sums (acc + c) l'
  end.

Definition calc_block_offsets (b : block_data_descriptor) : block_data_descriptor :=
  mk_block (counts b) (prefix_sums 0 (counts b)).

(** Modelled from the spec: the class [FFT3D_grid] is not part of the
    sources at hand.  The grid provider supplies the inclusive bounds of
    each axis, the size of each axis and the function that maps a grid
    index of an axis to its signed reciprocal-lattice integer. *)
Record FFT3D_grid : Type := mk_grid {
  limits : Z → Z * Z;
  grid_size : Z → Z;
  gvec_by_coord : Z → Z → Z
}.

(** Modelled from the spec: the class [Communicator] is not part of the
    sources at hand; the component uses its [size()] and [rank()] only. *)
Record Communicator : Type := mk_comm {
  comm_size : Z;
  comm_rank : Z
}.

(** [std::sort] with the comparator [a.z.size() > b.z.size()]: the result
    is a rearrangement of the input in which no later column is longer than
    an earlier one.  The order of columns of equal length is left to the
    implementation. *)
Record column_sort : Type := mk_column_sort {
  std_sort : list z_column_descriptor → list z_column_descriptor;
  std_sort_perm : ∀ l, std_sort l ≡ₚ l;
  std_sort_sorted : ∀ l,
    StronglySorted (λ a b, (length (col_z b) ≤ length (col_z a))%nat) (std_sort l)
}.

(** ** The enumerator (the two outer loops of the constructor) *)

Section enumerator.
(** [in_cutoff x y z] is the test [(M * ((x, y, z) + vk)).length() <= Gmax]. *)
Variable in_cutoff : Z → Z → Z → bool.
Variable fft_box : FFT3D_grid.
Variable reduce_gvec : bool.

(** The last grid index of the z-loop: in general take z in [0, Nz), in
    case of G-vector reduction take z in [0, Nz/2] for the {x=0,y=0}
    stick. *)
Definition zmax (i j : Z) : Z :=
  if reduce_gvec && bool_decide (i = 0) && bool_decide (j = 0)
  then (limits fft_box 2).2
  else grid_size fft_box 2 - 1.

(** The z-loop for the pair (i, j). *)
Definition scan_z (i j : Z) : list Z :=
  filter (λ k, in_cutoff i j k = true)
         ((λ iz, gvec_by_coord fft_box iz 2) <$> seqZ 0 (zmax i j + 1)).

Definition in_limits (i j : Z) : bool :=
  bool_decide ((limits fft_box 0).1 ≤ i ≤ (limits fft_box 0).2) &&
  bool_decide ((limits fft_box 1).1 ≤ j ≤ (limits fft_box 1).2).

(** State of the enumeration: the columns found so far, the running
    number of G-vectors and the marks of [non_zero_columns]. *)
Record enum_state : Type := mk_enum {
  en_columns : list z_column_descriptor;
  en_num_gvec : Z;
  en_marks : gset (Z * Z)
}.

Definition enum_body (st : enum_state) (ij : Z * Z) : result enum_state :=
  let '(i, j) := ij in
  let zcol := scan_z i j in
  if bool_decide (zcol ≠ []) && bool_decide ((i, j) ∉ en_marks st)
  then
    let cols := en_columns st ++ [z_column i j zcol] in
    let n := en_num_gvec st + size zcol in
    let marks := {[ (i, j) ]} ∪ en_marks st in
    if reduce_gvec
    then if in_limits (- i) (- j)
         then Ok (mk_enum cols n ({[ (- i, - j) ]} ∪ marks))
         else Fail Undefined
    else Ok (mk_enum cols n marks)
  else Ok st.

Definition grid_pairs : list (Z * Z) :=
  let l0 := limits fft_box 0 in
  let l1 := limits fft_box 1 in
  i ← seqZ l0.1 (l0.2 - l0.1 + 1);
  (λ j, (i, j)) <$> seqZ l1.1 (l1.2 - l1.1 + 1).

Definition enumerate : result enum_state :=
  foldM enum_body (mk_enum [] 0 ∅) grid_pairs.

(** The grid indices of the z-loop that pass the cutoff test. *)
Definition passing (i j : Z) : list Z :=
  filter (λ iz, in_cutoff i j (gvec_by_coord fft_box iz 2) = true) (seqZ 0 (zmax i j + 1)).

(** A column as the z-loop of its (x, y) pair leaves it. *)
Definition scanned (c : z_column_descriptor) : Prop :=
  col_z c = scan_z (col_x c) (col_y c) ∧ col_z c ≠ [] ∧ col_offset c = None.

Record enum_inv (st : enum_state) : Prop := mk_enum_inv {
  inv_scanned : Forall scanned (en_columns st);
  inv_num_gvec : en_num_gvec st = sumZ (zsize <$> en_columns st);
  inv_marked : Forall (λ c, col_xy c ∈ en_marks st) (en_columns st);
  inv_distinct : NoDup (col_xy <$> en_columns st)
}.

End enumerator.

(** ** Ordering of the column list *)

(** Put the column with (x, y) = (0, 0) to the beginning. *)
Definition is_origin (c : z_column_descriptor) : Prop := col_x c = 0 ∧ col_y c = 0.

Global Instance is_origin_dec c : Decision (is_origin c).
Proof. unfold is_origin. apply _. Defined.

Definition swap_origin (cols : list z_column_descriptor) : list z_column_descriptor :=
  match list_find is_origin cols, cols with
  | Some (i, ci), c0 :: _ => <[0%nat := ci]> (<[i := c0]> cols)
  | _, _ => cols
  end.

(** Sort the columns starting from the second; [begin() + 1] does not exist
    for an empty vector. *)
Definition sort_tail (sorter : column_sort) (cols : list z_column_descriptor)
  : result (list z_column_descriptor) :=
  match cols with
  | [] => Fail Undefined
  | c0 :: rest => Ok (c0 :: std_sort sorter rest)
  end.

(** ** Distribution of the columns between the ranks *)

Record distr_state : Type := mk_distr {
  ranks : list nat;
  gvec_counts : list Z;
  zcol_counts : list Z;
  zcols_local : list (list z_column_descriptor)
}.

(** [std::min_element] with the comparator
    [gvec_distr_.counts[a] < gvec_distr_.counts[b]]: position and value of
    the first smallest element.  The elements of [l] are ranks below the
    number of ranks (lemma [candidates_lt]), so the accesses to the counts
    are inside the table. *)
Fixpoint min_element_from (cnt : list Z) (smallest : nat * nat) (pos : nat)
    (l : list nat) : nat * nat :=
  match l with
  | [] => smallest
  | a :: l' =>
      if bool_decide (cnt !!! a < cnt !!! smallest.2)
      then min_element_from cnt (pos, a) (S pos) l'
      else min_element_from cnt smallest (S pos) l'
  end.

Definition min_element (cnt : list Z) (l : list nat) : option (nat * nat) :=
  match l with
  | [] => None
  | a :: l' => Some (min_element_from cnt (0%nat, a) 1%nat l')
  end.

(** The list of candidate ranks a column is assigned from. *)
Definition candidates (R : nat) (st : distr_state) : list nat :=
  if bool_decide (ranks st = []) then seq 0 R else ranks st.

(** One turn of the assignment loop. *)
Definition assign_column (R : nat) (st : distr_state) (c : z_column_descriptor)
  : result distr_state :=
  let cand := candidates R st in
  match min_element (gvec_counts st) cand with
  | None => Fail Undefined
  | Some (pos, r) =>
      Ok (mk_distr (delete pos cand)
                   (alter (λ n, n + zsize c) r (gvec_counts st))
                   (alter (λ n, n + 1) r (zcol_counts st))
                   (alter (λ l, l ++ [c]) r (zcols_local st)))
  end.

Definition distr_init (R : nat) : distr_state :=
  mk_distr [] (replicate R 0) (replicate R 0) (replicate R []).

Definition distribute (R : nat) (cols : list z_column_descriptor) : result distr_state :=
  foldM (assign_column R) (distr_init R) cols.

(** *** States of the assignment loop *)

(** [pos] is the first position of [l] whose rank has the least count. *)
Definition first_least (cnt : list Z) (l : list nat) (pos r : nat) : Prop :=
  l !! pos = Some r ∧
  (∀ i q, l !! i = Some q → cnt !!! r ≤ cnt !!! q) ∧
  (∀ i q, l !! i = Some q → (i < pos)%nat → cnt !!! r < cnt !!! q).

Record distr_wf (R : nat) (st : distr_state) : Prop := mk_distr_wf {
  wf_gvec : length (gvec_counts st) = R;
  wf_zcol : length (zcol_counts st) = R;
  wf_local : length (zcols_local st) = R;
  wf_ranks : ranks st `sublist_of` seq 0 R
}.

(** 1 for a rank that still waits for its column of the current round. *)
Definition waiting (st : distr_state) (r : nat) : Z :=
  if bool_decide (r ∈ ranks st) then 1 else 0.

Definition round_inv (R : nat) (st : distr_state) : Prop :=
  ∃ k, ∀ r, (r < R)%nat → zcol_counts st !!! r + waiting st r = k.

(** [m] bounds the length of every column.  The loads of two ranks differ by
    at most [m], and a rank that still waits in the current round stays
    within [m] of the ranks served in it after taking any of the columns
    still to come. *)
Definition load_inv (R : nat) (m : Z) (st : distr_state)
    (rest : list z_column_descriptor) : Prop :=
  (∀ p q, (p < R)%nat → (q < R)%nat → gvec_counts st !!! p - gvec_counts st !!! q ≤ m) ∧
  (∀ p q c, (p < R)%nat → p ∉ ranks st → q ∈ ranks st → c ∈ rest →
     gvec_counts st !!! q + zsize c - gvec_counts st !!! p ≤ m).

(** ** Packed addresses of G-vectors *)

(** [static_cast<int>]: the value modulo 2^32, read as a signed integer. *)
Definition to_int (n : Z) : Z := (n + 2 ^ 31) `mod` 2 ^ 32 - 2 ^ 31.

(** [(i << 12) + j] for the column [i] and the position [j]. *)
Definition pack (i j : Z) : Z := to_int (Z.shiftl i 12 + j).

(** The two halves of a packed address: [idx >> 12] and [idx & 0xFFF]. *)
Definition unpack (idx : Z) : Z * Z := (Z.shiftr idx 12, Z.land idx 4095).

(** The loop that fills [gvec_index_by_xy_] and [gvec_full_index_]; [i] is
    the index of the first column of [cols] and [ig] the number of
    G-vectors of the columns before it. *)
Fixpoint build_index (i : nat) (ig : Z) (cols : list z_column_descriptor)
    (by_xy : gmap (Z * Z * Z) Z) : gmap (Z * Z * Z) Z * list Z :=
  match cols with
  | [] => (by_xy, [])
  | c :: cols' =>
      let by_xy' :=
        <[(1, col_x c, col_y c) := zsize c]> (<[(0, col_x c, col_y c) := ig]> by_xy) in
      let packed := (λ j, pack (Z.of_nat i) j) <$> seqZ 0 (zsize c) in
      let '(m, rest) := build_index (S i) (ig + zsize c) cols' by_xy' in
      (m, packed ++ rest)
  end.

(** Return the G-vector of a packed address. *)
Definition gvec_by_full_index (cols : list z_column_descriptor) (idx : Z)
  : result (Z * Z * Z) :=
  let j := (unpack idx).2 in
  let i := (unpack idx).1 in
  _ ← assertion (bool_decide (i < size cols));
  c ← at_ cols i;
  _ ← assertion (bool_decide (j < zsize c));
  z ← at_ (col_z c) j;
  Ok (col_x c, col_y c, z).

(** ** Shells *)

(** [std::map<size_t, std::vector<int>>]: the entries in increasing order
    of their keys. [gsh_push len ig] is [gsh[len].push_back(ig)], with a
    new entry when the key is not there yet. *)
Fixpoint gsh_push (len : N) (ig : Z) (gsh : list (N * list Z)) : list (N * list Z) :=
  match gsh with
  | [] => [(len, [ig])]
  | (k, v) :: rest =>
      if bool_decide (len < k)%N then (len, [ig]) :: gsh
      else if bool_decide (len = k) then (k, v ++ [ig]) :: rest
      else (k, v) :: gsh_push len ig rest
  end.

(** A C++ [double]: a binary64 number, with 53 bits of mantissa and the
    exponent of the infinities 1024. *)
Definition double : Type := spec_float.

(** [static_cast<double>(key)] for a [size_t]: the nearest binary64
    number, ties to even. *)
Definition to_double (key : N) : double := binary_normalize 53 1024 (Z.of_N key) 0 false.

(** The literal [1e-10]: the binary64 number nearest to 10^-10, which is
    0x1.b7cdfd9d7bdbbp-34 = 7737125245533627 * 2^-86. *)
Definition double_1e_10 : double := S754_finite false 7737125245533627 (-86).

(** [a <= b] on doubles. *)
Definition double_le (a b : double) : Prop := SFleb a b = true.

(** [static_cast<double>(key) * 1e-10]: the conversion and the product
    both round to the nearest binary64 number. *)
Definition shell_length (key : N) : double := SFmul 53 1024 (to_double key) double_1e_10.

(** The integer nearest to [m / 2^k], ties to even. *)
Definition round_shift (m k : Z) : Z :=
  let q := m `div` 2 ^ k in
  let r := m `mod` 2 ^ k in
  let h := 2 ^ (k - 1) in
  if bool_decide (r < h) then q
  else if bool_decide (h < r) then q + 1
  else if Z.even q then q else q + 1.

(** The non-negative integer [p] rounded to 53 significant bits. *)
Definition binary64_round (p : Z) : Z :=
  let s := Z.log2 p - 52 in
  if bool_decide (s ≤ 0) then p else round_shift p s * 2 ^ s.

(** [double_is x K v]: [x] is a finite positive double with a mantissa of
    53 bits, and [v] is its value times [2^K]. *)
Definition double_is (x : double) (K v : Z) : Prop :=
  ∃ M E, x = S754_finite false M E ∧ 2 ^ 52 ≤ Z.pos M < 2 ^ 53 ∧ 0 ≤ E + K ∧
         v = Z.pos M * 2 ^ (E + K).

(** The value of [shell_length key] times [2^138], in integer
    arithmetic. *)
Definition shell_length_scaled (key : Z) : Z :=
  binary64_round (binary64_round key * 2 ^ 52 * 7737125245533627).

(** The loop over the entries of the map: the [n]-th entry gives the
    length of shell [n] and the shell of each of its G-vectors. *)
Fixpoint number_shells (n : Z) (gsh : list (N * list Z)) (shell : list Z)
  : list Z * list double :=
  match gsh with
  | [] => (shell, [])
  | (key, igs) :: rest =>
      let shell' := foldl (λ s ig, <[Z.to_nat ig := n]> s) shell igs in
      let '(s, lens) := number_shells (n + 1) rest shell' in
      (s, shell_length key :: lens)
  end.

(** ** The G-vector set *)

(** The members of the class, apart from [vk_] and [lattice_vectors_], which
    only enter the cutoff test and the quantised length of G+k. *)
Record Gvec : Type := mk_Gvec {
  reduce_gvec_ : bool;
  num_ranks_ : Z;
  fft_comm_ : Communicator;
  num_gvec_ : Z;
  gvec_full_index_ : list Z;
  gvec_shell_ : list Z;
  num_gvec_shells_ : Z;
  gvec_shell_len_ : list double;
  gvec_index_by_xy_ : gmap (Z * Z * Z) Z;
  z_columns_ : list z_column_descriptor;
  gvec_distr_ : block_data_descriptor;
  gvec_distr_fft_ : block_data_descriptor;
  zcol_distr_ : block_data_descriptor;
  zcol_distr_fft_ : block_data_descriptor;
  gvec_fft_slab_ : block_data_descriptor
}.

Definition with_fft_comm (c : Communicator) (g : Gvec) : Gvec :=
  mk_Gvec (reduce_gvec_ g) (num_ranks_ g) c (num_gvec_ g) (gvec_full_index_ g)
    (gvec_shell_ g) (num_gvec_shells_ g) (gvec_shell_len_ g) (gvec_index_by_xy_ g)
    (z_columns_ g) (gvec_distr_ g) (gvec_distr_fft_ g) (zcol_distr_ g)
    (zcol_distr_fft_ g) (gvec_fft_slab_ g).

Definition with_shells (shell : list Z) (lens : list double) (g : Gvec) : Gvec :=
  mk_Gvec (reduce_gvec_ g) (num_ranks_ g) (fft_comm_ g) (num_gvec_ g) (gvec_full_index_ g)
    shell (size lens) lens (gvec_index_by_xy_ g)
    (z_columns_ g) (gvec_distr_ g) (gvec_distr_fft_ g) (zcol_distr_ g)
    (zcol_distr_fft_ g) (gvec_fft_slab_ g).

Definition with_fft_distr (gd zd : block_data_descriptor) (g : Gvec) : Gvec :=
  mk_Gvec (reduce_gvec_ g) (num_ranks_ g) (fft_comm_ g) (num_gvec_ g) (gvec_full_index_ g)
    (gvec_shell_ g) (num_gvec_shells_ g) (gvec_shell_len_ g) (gvec_index_by_xy_ g)
    (z_columns_ g) (gvec_distr_ g) gd (zcol_distr_ g) zd (gvec_fft_slab_ g).

Definition with_columns (cols : list z_column_descriptor) (g : Gvec) : Gvec :=
  mk_Gvec (reduce_gvec_ g) (num_ranks_ g) (fft_comm_ g) (num_gvec_ g) (gvec_full_index_ g)
    (gvec_shell_ g) (num_gvec_shells_ g) (gvec_shell_len_ g) (gvec_index_by_xy_ g)
    cols (gvec_distr_ g) (gvec_distr_fft_ g) (zcol_distr_ g)
    (zcol_distr_fft_ g) (gvec_fft_slab_ g).

Definition with_slab (slab : block_data_descriptor) (g : Gvec) : Gvec :=
  mk_Gvec (reduce_gvec_ g) (num_ranks_ g) (fft_comm_ g) (num_gvec_ g) (gvec_full_index_ g)
    (gvec_shell_ g) (num_gvec_shells_ g) (gvec_shell_len_ g) (gvec_index_by_xy_ g)
    (z_columns_ g) (gvec_distr_ g) (gvec_distr_fft_ g) (zcol_distr_ g)
    (zcol_distr_fft_ g) slab.

(** Return G vector in fractional coordinates. *)
Definition gvec (g : Gvec) (ig : Z) : result (Z * Z * Z) :=
  idx ← at_ (gvec_full_index_ g) ig;
  gvec_by_full_index (z_columns_ g) idx.

(** Number of G-vectors for a fine-grained distribution. *)
Definition gvec_count (g : Gvec) (rank : Z) : result Z :=
  _ ← assertion (bool_decide (rank < num_ranks_ g));
  at_ (counts (gvec_distr_ g)) rank.

Definition shell (g : Gvec) (ig : Z) : result Z := at_ (gvec_shell_ g) ig.

Definition shell_len (g : Gvec) (igs : Z) : result double := at_ (gvec_shell_len_ g) igs.

(** ** Tables for the FFT communicator *)

Definition wrong_ranks : fault := Terminate "wrong number of MPI ranks".

(** The number of fine-grained ranks per rank of the FFT communicator, with
    the test that the division is exact. *)
Definition ranks_per_fft_rank (g : Gvec) : result Z :=
  let F := comm_size (fft_comm_ g) in
  if bool_decide (F = 0) then Fail Undefined
  else
    let nrc := num_ranks_ g `quot` F in
    if bool_decide (num_ranks_ g ≠ nrc * F) then Fail wrong_ranks else Ok nrc.

Definition add_fine_rank (g : Gvec) (rank nrc : Z) (acc : list Z * list Z) (i : Z)
  : result (list Z * list Z) :=
  let r := rank * nrc + i in
  a ← at_ (counts (gvec_distr_ g)) r;
  b ← at_ (counts (zcol_distr_ g)) r;
  Ok (alter (λ n, n + a) (Z.to_nat rank) acc.1, alter (λ n, n + b) (Z.to_nat rank) acc.2).

Definition build_fft_distr (g : Gvec) : result Gvec :=
  let F := comm_size (fft_comm_ g) in
  gd ← block_new F;
  zd ← block_new F;
  nrc ← ranks_per_fft_rank g;
  acc ← foldM (λ acc rank, foldM (add_fine_rank g rank nrc) acc (seqZ 0 nrc))
              (counts gd, counts zd) (seqZ 0 F);
  Ok (with_fft_distr (calc_block_offsets (mk_block acc.1 (offsets gd)))
                     (calc_block_offsets (mk_block acc.2 (offsets zd))) g).

(** Calculate offsets of z-columns inside each local buffer of PW
    coefficients. *)
Definition offset_of_column (g : Gvec) (rank : Z)
    (st : list z_column_descriptor * Z) (i : Z)
  : result (list z_column_descriptor * Z) :=
  o ← at_ (offsets (zcol_distr_fft_ g)) rank;
  let icol := o + i in
  c ← at_ st.1 icol;
  Ok (<[Z.to_nat icol := set_offset st.2 c]> st.1, st.2 + zsize c).

Definition offsets_of_rank (g : Gvec) (cols : list z_column_descriptor) (rank : Z)
  : result (list z_column_descriptor) :=
  num_zcol_local ← at_ (counts (zcol_distr_fft_ g)) rank;
  st ← foldM (offset_of_column g rank) (cols, 0) (seqZ 0 num_zcol_local);
  total ← at_ (counts (gvec_distr_fft_ g)) rank;
  _ ← assertion (bool_decide (st.2 = total));
  Ok st.1.

Definition calc_offsets (g : Gvec) : result Gvec :=
  cols ← foldM (offsets_of_rank g) (z_columns_ g) (seqZ 0 (comm_size (fft_comm_ g)));
  Ok (with_columns cols g).

Definition back {A : Type} (v : list A) : result A :=
  match last v with
  | Some a => Ok a
  | None => Fail Undefined
  end.

Definition slab_count (g : Gvec) (rank_row nrc : Z) (cnts : list Z) (i : Z)
  : result (list Z) :=
  n ← gvec_count g (rank_row * nrc + i);
  Ok (<[Z.to_nat i := n]> cnts).

Definition pile_gvec (g : Gvec) : result Gvec :=
  let rank_row := comm_rank (fft_comm_ g) in
  nrc ← ranks_per_fft_rank g;
  slab ← block_new nrc;
  cnts ← foldM (slab_count g rank_row nrc) (counts slab) (seqZ 0 nrc);
  let slab' := calc_block_offsets (mk_block cnts (offsets slab)) in
  o ← back (offsets slab');
  c ← back (counts slab');
  total ← at_ (counts (gvec_distr_fft_ g)) rank_row;
  _ ← assertion (bool_decide (o + c = total));
  Ok (with_slab slab' g).

Definition prepare (fft_comm : Communicator) (g : Gvec) : result Gvec :=
  g1 ← build_fft_distr (with_fft_comm fft_comm g);
  g2 ← calc_offsets g1;
  pile_gvec g2.

(** ** The constructor *)

Definition first_not_zero : fault := Terminate "first G-vector is not zero".

Section constructor.
Variable in_cutoff : Z → Z → Z → bool.
(** [gk_key (x, y, z)] is [size_t((M * ((x, y, z) + vk)).length() * 1e10)]. *)
Variable gk_key : Z * Z * Z → N.
Variable sorter : column_sort.
Variable fft_box : FFT3D_grid.
Variable num_ranks : Z.
Variable fft_comm : Communicator.
Variable reduce_gvec : bool.

(** The column list as the distributor receives it. *)
Definition ordered_columns : result (list z_column_descriptor * Z) :=
  en ← enumerate in_cutoff fft_box reduce_gvec;
  cols ← sort_tail sorter (swap_origin (en_columns en));
  Ok (cols, en_num_gvec en).

(** The constructor up to the tables of the full index. *)
Definition Gvec_indexed : result Gvec :=
  '(cols, num_gvec) ← ordered_columns;
  gd ← block_new num_ranks;
  zd ← block_new num_ranks;
  st ← distribute (Z.to_nat num_ranks) cols;
  let gvec_distr := calc_block_offsets (mk_block (gvec_counts st) (offsets gd)) in
  let zcol_distr := calc_block_offsets (mk_block (zcol_counts st) (offsets zd)) in
  let z_columns := concat (zcols_local st) in
  let '(by_xy, full) := build_index 0 0 z_columns ∅ in
  Ok (mk_Gvec reduce_gvec num_ranks fft_comm num_gvec full [] 0 [] by_xy z_columns
              gvec_distr (mk_block [] []) zcol_distr (mk_block [] []) (mk_block [] [])).

(** The test that the first G-vector is (0, 0, 0). *)
Definition check_first (g : Gvec) : result unit :=
  g0 ← gvec g 0;
  if bool_decide (g0.1.1 ≠ 0 ∨ g0.1.2 ≠ 0 ∨ g0.2 ≠ 0)
  then Fail first_not_zero
  else Ok ().

Definition shell_body (g : Gvec) (gsh : list (N * list Z)) (ig : Z)
  : result (list (N * list Z)) :=
  gk ← gvec g ig;
  Ok (gsh_push (gk_key gk) ig gsh).

Definition find_shells (g : Gvec) : result Gvec :=
  gsh ← foldM (shell_body g) [] (seqZ 0 (num_gvec_ g));
  let '(shell, lens) :=
    number_shells 0 gsh (replicate (Z.to_nat (num_gvec_ g)) 0) in
  Ok (with_shells shell lens g).

(** The constructor up to the shells. *)
Definition Gvec_classified : result Gvec :=
  g ← Gvec_indexed;
  _ ← check_first g;
  find_shells g.

Definition Gvec_new : result Gvec :=
  g1 ← Gvec_classified;
  g2 ← build_fft_distr g1;
  g3 ← calc_offsets g2;
  pile_gvec g3.
End constructor.

(** ** What a constructed set satisfies *)

(** Everything of a G-vector set except the FFT communicator, the tables
    aggregated for it, the offsets of the columns and the slab table. *)
Record same_fine_grained (g g' : Gvec) : Prop := mk_same_fine_grained {
  same_reduce : reduce_gvec_ g' = reduce_gvec_ g;
  same_num_ranks : num_ranks_ g' = num_ranks_ g;
  same_num_gvec : num_gvec_ g' = num_gvec_ g;
  same_full_index : gvec_full_index_ g' = gvec_full_index_ g;
  same_shell : gvec_shell_ g' = gvec_shell_ g;
  same_num_shells : num_gvec_shells_ g' = num_gvec_shells_ g;
  same_shell_len : gvec_shell_len_ g' = gvec_shell_len_ g;
  same_by_xy : gvec_index_by_xy_ g' = gvec_index_by_xy_ g;
  same_columns : col_content <$> z_columns_ g' = col_content <$> z_columns_ g;
  same_gvec_distr : gvec_distr_ g' = gvec_distr_ g;
  same_zcol_distr : zcol_distr_ g' = zcol_distr_ g
}.

Record indexed_inv (g : Gvec) : Prop := mk_indexed_inv {
  ix_distinct : NoDup (col_xy <$> z_columns_ g);
  ix_nonempty : Forall (λ c, 1 ≤ zsize c) (z_columns_ g);
  ix_num_gvec : num_gvec_ g = sumZ (zsize <$> z_columns_ g);
  ix_by_xy : gvec_index_by_xy_ g = (build_index 0 0 (z_columns_ g) ∅).1;
  ix_full : gvec_full_index_ g = (build_index 0 0 (z_columns_ g) ∅).2
}.

(** The sum of the block [rank] of [nrc] consecutive entries. *)
Definition group_sum (nrc : nat) (l : list Z) (rank : nat) : Z :=
  sumZ (take nrc (drop (rank * nrc) l)).

(** What the distributor leaves: the columns and both tables of counts are
    those of one list of columns per rank. *)
Record distributed_inv (g : Gvec) (locals : list (list z_column_descriptor)) : Prop :=
  mk_distributed_inv {
    di_positive : 1 ≤ num_ranks_ g;
    di_ranks : size locals = num_ranks_ g;
    di_columns : col_content <$> z_columns_ g = col_content <$> concat locals;
    di_zcol : counts (zcol_distr_ g) = size <$> locals;
    di_gvec : counts (gvec_distr_ g) = (λ l, sumZ (zsize <$> l)) <$> locals
  }.

Section shell_map.
Variable gk_key : Z * Z * Z → N.
Variable g : Gvec.

(** [k] is the quantised length of the G-vector [ig]. *)
Definition key_at (ig : Z) (k : N) : Prop :=
  ∃ gk, gvec g ig = Ok gk ∧ gk_key gk = k.

(** The map of the shells after the G-vectors [seen]. *)
Record gsh_inv (gsh : list (N * list Z)) (seen : list Z) : Prop := mk_gsh_inv {
  gsh_sorted : StronglySorted N.lt gsh.*1;
  gsh_sound : ∀ k v ig, (k, v) ∈ gsh → ig ∈ v → ig ∈ seen ∧ key_at ig k;
  gsh_complete : ∀ ig, ig ∈ seen → ∃ k v, (k, v) ∈ gsh ∧ ig ∈ v
}.

End shell_map.

(** ** Reading a G-vector set *)

(** Offset (in the global index) of G-vectors for a fine-grained
    distribution. *)
Definition gvec_offset (g : Gvec) (rank : Z) : result Z :=
  _ ← assertion (bool_decide (rank < num_ranks_ g));
  at_ (offsets (gvec_distr_ g)) rank.

Definition gvec_count_fft (g : Gvec) : result Z :=
  at_ (counts (gvec_distr_fft_ g)) (comm_rank (fft_comm_ g)).

Definition gvec_offset_fft (g : Gvec) : result Z :=
  at_ (offsets (gvec_distr_fft_ g)) (comm_rank (fft_comm_ g)).

(** [gvec_shell_len_(gvec_shell_(ig))]. *)
Definition gvec_len (g : Gvec) (ig : Z) : result double :=
  igs ← shell g ig;
  shell_len g igs.

(** [static_cast<int>(z_columns_.size())]. *)
Definition num_zcol (g : Gvec) : Z := to_int (size (z_columns_ g)).

Section lookup.
(** The FFT box the set was constructed with: the constructor allocates
    [gvec_index_by_xy_] with the extents [2], [limits(0)] and [limits(1)]. *)
Variable fft_box : FFT3D_grid.
Variable g : Gvec.

(** Modelled from the spec: the class [mdarray] is not part of the sources
    at hand.  [gvec_index_by_xy_(t, x, y)]: the constructor fills the array
    with -1 before it writes the entries of the columns, so an entry it has
    not written reads -1; an access outside of the extents of the array is
    undefined. *)
Definition index_by_xy (t x y : Z) : result Z :=
  if in_limits fft_box x y
  then Ok (default (-1) (gvec_index_by_xy_ g !! (t, x, y)))
  else Fail Undefined.

Definition index_by_gvec (G : Z * Z * Z) : result Z :=
  let '(x, y, z) := G in
  if reduce_gvec_ g && bool_decide (x = 0) && bool_decide (y = 0) && bool_decide (z < 0)
  then Ok (-1)
  else
    ig0 ← index_by_xy 0 x y;
    if bool_decide (ig0 = -1) then Ok (-1)
    else
      offs ← (if bool_decide (0 ≤ z) then Ok z
              else n ← index_by_xy 1 x y; Ok (z + n));
      let ig := ig0 + offs in
      _ ← assertion (bool_decide (ig < num_gvec_ g));
      Ok ig.

Definition index_g12 (g1 g2 : Z * Z * Z) : result Z :=
  let v := (g1.1.1 - g2.1.1, g1.1.2 - g2.1.2, g1.2 - g2.2) in
  idx ← index_by_gvec v;
  _ ← assertion (bool_decide (0 ≤ idx) && bool_decide (idx < num_gvec_ g));
  Ok idx.
End lookup.

(** The position [index_by_gvec] expects [z] at in a column of [n]
    entries. *)
Definition wrap_position (n z : Z) : Z := if bool_decide (0 ≤ z) then z else z + n.

(** A column that holds 0, 1, ..., p - 1 followed by -q, ..., -1, as the
    z-loop leaves it when the grid stores the non-negative frequencies
    first and the cutoff admits a range of z around 0. *)
Definition wrapped (c : z_column_descriptor) : Prop :=
  col_z c = seqZ 0 (size (filter (λ z, 0 ≤ z) (col_z c))) ++
            seqZ (- size (filter (λ z, z < 0) (col_z c)))
                 (size (filter (λ z, z < 0) (col_z c))).

(** [set_offsets offs cols]: the columns [cols] with the offsets that the
    inner loop of [calc_offsets] gives them when it starts at [offs]. *)
Fixpoint set_offsets (offs : Z) (cols : list z_column_descriptor)
  : list z_column_descriptor :=
  match cols with
  | [] => []
  | c :: cols' => set_offset offs c :: set_offsets (offs + zsize c) cols'
  end.

(** [chunks lens l]: the list [l] cut into consecutive pieces of the
    lengths [lens]. *)
Fixpoint chunks {A : Type} (lens : list nat) (l : list A) : list (list A) :=
  match lens with
  | [] => []
  | n :: lens' => take n l :: chunks lens' (drop n l)
  end.

(** ** What the enumerator marks *)

Section enumerator_marks.
Context (in_cutoff : Z → Z → Z → bool) (fft_box : FFT3D_grid) (reduce_gvec : bool).

(** The marks of [non_zero_columns] after the pairs [seen]: a pair with a
    non-empty z-loop is marked, a marked pair is the pair of a column or,
    with the reduction, the opposite of one, and with the reduction no
    column other than (0, 0) has its opposite among the columns. *)
Record marks_inv (st : enum_state) (seen : list (Z * Z)) : Prop := mk_marks_inv {
  mk_seen : ∀ i j, (i, j) ∈ seen →
    scan_z in_cutoff fft_box reduce_gvec i j ≠ [] → (i, j) ∈ en_marks st;
  mk_column : ∀ i j, (i, j) ∈ en_marks st →
    (i, j) ∈ col_xy <$> en_columns st ∨
    (reduce_gvec = true ∧ (- i, - j) ∈ col_xy <$> en_columns st);
  mk_marked : ∀ c, c ∈ en_columns st →
    (col_x c, col_y c) ∈ en_marks st ∧
    (reduce_gvec = true → (- col_x c, - col_y c) ∈ en_marks st);
  mk_opposite : reduce_gvec = true → ∀ c d, c ∈ en_columns st → d ∈ en_columns st →
    col_x d = - col_x c → col_y d = - col_y c → col_x c = 0 ∧ col_y c = 0
}.
End enumerator_marks.

(** ** Grids and sorting routines used in the examples *)

(** The grid of an FFT box with [n] points along each axis: the bounds are
    [n/2 - n + 1] and [n/2], and the grid index [i] stands for [i] up to the
    upper bound and for [i - n] above it.  This is the order of the
    frequencies that [index_by_gvec] of the source relies on, where the
    position of a negative z in a column is z plus the length of the
    column. *)
Definition cubic_box (n : Z) : FFT3D_grid :=
  mk_grid (λ _, (n `quot` 2 - n + 1, n `quot` 2)) (λ _, n)
          (λ i _, if bool_decide (i > n `quot` 2) then i - n else i).

Definition longer_or_equal (a b : z_column_descriptor) : Prop :=
  (length (col_z b) ≤ length (col_z a))%nat.

Global Instance longer_or_equal_dec a b : Decision (longer_or_equal a b).
Proof. unfold longer_or_equal. apply _. Defined.

(** Insertion into a list sorted by decreasing length, after the columns of
    the same length. *)
Fixpoint insert_column (c : z_column_descriptor) (l : list z_column_descriptor)
  : list z_column_descriptor :=
  match l with
  | [] => [c]
  | d :: l' =>
      if bool_decide (length (col_z d) < length (col_z c))%nat
      then c :: l
      else d :: insert_column c l'
  end.

(** A stable sorting routine. *)
Definition insertion_sort (l : list z_column_descriptor) : list z_column_descriptor :=
  foldl (λ acc c, insert_column c acc) [] l.

(** Insertion into a list sorted by decreasing length, before the columns of
    the same length. *)
Fixpoint insert_column_front (c : z_column_descriptor) (l : list z_column_descriptor)
  : list z_column_descriptor :=
  match l with
  | [] => [c]
  | d :: l' =>
      if bool_decide (length (col_z d) ≤ length (col_z c))%nat
      then c :: l
      else d :: insert_column_front c l'
  end.

(** A sorting routine that reverses the columns of equal length. *)
Definition reversing_sort (l : list z_column_descriptor) : list z_column_descriptor :=
  foldl (λ acc c, insert_column_front c acc) [] l.

(** A cutoff that admits every point of the grid. *)
Definition whole_box (x y z : Z) : bool := true.

(** The enumeration of the 27 points of the box [-1,1]^3, and the column
    list made of it with the stable sorting routine. *)
Definition small_enum : enum_state :=
  match enumerate whole_box (cubic_box 3) false with
  | Ok en => en
  | Fail _ => mk_enum [] 0 ∅
  end.

Definition small_ordered (sort : list z_column_descriptor → list z_column_descriptor)
  : list z_column_descriptor :=
  match swap_origin (en_columns small_enum) with
  | [] => []
  | c0 :: rest => c0 :: sort rest
  end.

(** Equal-length columns keep the order in which the enumerator found
    them: for every length, the columns of that length after the first
    position are those of the enumeration, in the same order. *)
Definition keeps_discovery_order (found cols : list z_column_descriptor) : Prop :=
  ∀ n : nat,
    filter (λ c, length (col_z c) = n) (tail cols) =
    filter (λ c, length (col_z c) = n) (filter (λ c, ¬ is_origin c) found).

(** A cutoff sphere of radius 1 in a lattice whose reciprocal vectors have
    the lengths 1, 1 and 1/2: the test is x^2 + y^2 + z^2/4 <= 1.  The
    column (0,0) has five entries, the columns (-1,0), (0,-1), (0,1) and
    (1,0) have one entry each. *)
Definition flat_cell (x y z : Z) : bool :=
  bool_decide (4 * x * x + 4 * y * y + z * z ≤ 4).

(** The first three columns of that set in the order of the distributor,
    and the fourth one. *)
Definition flat_cell_first3 : list z_column_descriptor :=
  [z_column 0 0 [0; 1; 2; -2; -1]; z_column 0 (-1) [0]; z_column (-1) 0 [0]].

Definition flat_cell_fourth : z_column_descriptor := z_column 0 1 [0].

(** The quantised length of G for the flat cell: |G| = sqrt(4x^2 + 4y^2 +
    z^2) / 2, times 10^10 and truncated. *)
Definition flat_cell_key (g : Z * Z * Z) : N :=
  Z.to_N (Z.sqrt ((4 * g.1.1 * g.1.1 + 4 * g.1.2 * g.1.2 + g.2 * g.2) * (25 * 10 ^ 18))).

(** A cutoff sphere of radius 1/2 around (1, 0, 0), as for
    vk = (-1, 0, 0): the test is (x-1)^2 + y^2 + z^2 <= 1/4, which only
    G = (1, 0, 0) passes. *)
Definition off_centre (x y z : Z) : bool :=
  bool_decide (4 * ((x - 1) * (x - 1) + y * y + z * z) ≤ 1).

(** A cutoff sphere of radius 1 for vk = (1/2, 0, 0) in the unit lattice:
    the test is (x + 1/2)^2 + y^2 + z^2 <= 1, which G = (0, 0, 0) and
    G = (-1, 0, 0) pass, both with |G + vk| = 1/2; and the quantised length
    of G + vk. *)
Definition zone_boundary (x y z : Z) : bool :=
  bool_decide ((2 * x + 1) * (2 * x + 1) + 4 * y * y + 4 * z * z ≤ 4).

Definition zone_boundary_key (g : Z * Z * Z) : N :=
  Z.to_N (Z.sqrt (((2 * g.1.1 + 1) * (2 * g.1.1 + 1) + 4 * g.1.2 * g.1.2 + 4 * g.2 * g.2)
                  * (25 * 10 ^ 18))).

(** ** The stable sorting routine meets the contract of [std::sort] *)

Lemma insert_column_perm c l : insert_column c l ≡ₚ c :: l.
Proof.
  induction l as [|d l IH]; simpl; [done|].
  case_bool_decide; [done|].
  rewrite IH. apply Permutation_swap.
Qed.

Lemma insert_column_sorted c l :
  StronglySorted longer_or_equal l → StronglySorted longer_or_equal (insert_column c l).
Proof.
  induction 1 as [|d l Hs IH Hd]; simpl.
  - repeat constructor.
  - case_bool_decide as Hlt.
    + constructor; [by constructor|].
      constructor; [unfold longer_or_equal; lia|].
      eapply Forall_impl; [exact Hd|]. unfold longer_or_equal. intros; lia.
    + constructor; [done|].
      rewrite insert_column_perm. constructor; [unfold longer_or_equal; lia|done].
Qed.

Lemma insertion_sort_perm l : insertion_sort l ≡ₚ l.
Proof.
  unfold insertion_sort.
  enough (∀ acc, foldl (λ a c, insert_column c a) acc l ≡ₚ acc ++ l) as H by apply H.
  induction l as [|c l IH]; intros acc; simpl.
  - by rewrite app_nil_r.
  - rewrite IH, insert_column_perm. simpl. apply Permutation_middle.
Qed.

Lemma insertion_sort_sorted l : StronglySorted longer_or_equal (insertion_sort l).
Proof.
  unfold insertion_sort.
  enough (∀ acc, StronglySorted longer_or_equal acc →
                 StronglySorted longer_or_equal (foldl (λ a c, insert_column c a) acc l)) as H
    by (apply H; constructor).
  induction l as [|c l IH]; intros acc Hacc; simpl; [done|].
  apply IH. by apply insert_column_sorted.
Qed.

Definition stable_sort : column_sort :=
  mk_column_sort insertion_sort insertion_sort_perm insertion_sort_sorted.

Lemma insert_column_front_perm c l : insert_column_front c l ≡ₚ c :: l.
Proof.
  induction l as [|d l IH]; simpl; [done|].
  case_bool_decide; [done|].
  rewrite IH. apply Permutation_swap.
Qed.

Lemma insert_column_front_sorted c l :
  StronglySorted longer_or_equal l →
  StronglySorted longer_or_equal (insert_column_front c l).
Proof.
  induction 1 as [|d l Hs IH Hd]; simpl.
  - repeat constructor.
  - case_bool_decide as Hle.
    + constructor; [by constructor|].
      constructor; [unfold longer_or_equal; lia|].
      eapply Forall_impl; [exact Hd|]. unfold longer_or_equal. intros; lia.
    + constructor; [done|].
      rewrite insert_column_front_perm. constructor; [unfold longer_or_equal; lia|done].
Qed.

Lemma reversing_sort_perm l : reversing_sort l ≡ₚ l.
Proof.
  unfold reversing_sort.
  enough (∀ acc, foldl (λ a c, insert_column_front c a) acc l ≡ₚ acc ++ l) as H by apply H.
  induction l as [|c l IH]; intros acc; simpl.
  - by rewrite app_nil_r.
  - rewrite IH, insert_column_front_perm. simpl. apply Permutation_middle.
Qed.

Lemma reversing_sort_sorted l : StronglySorted longer_or_equal (reversing_sort l).
Proof.
  unfold reversing_sort.
  enough (∀ acc, StronglySorted longer_or_equal acc →
                 StronglySorted longer_or_equal
                   (foldl (λ a c, insert_column_front c a) acc l)) as H
    by (apply H; constructor).
  induction l as [|c l IH]; intros acc Hacc; simpl; [done|].
  apply IH. by apply insert_column_front_sorted.
Qed.

(** The contract of [std::sort] is also met by a routine that is not
    stable. *)
Definition unstable_sort : column_sort :=
  mk_column_sort reversing_sort reversing_sort_perm reversing_sort_sorted.

(** The default constructor [Gvec()]. *)
Definition Gvec_empty : Gvec :=
  mk_Gvec false 0 (mk_comm 0 0) 0 [] [] 0 [] ∅ []
          (mk_block [] []) (mk_block [] []) (mk_block [] []) (mk_block [] [])
          (mk_block [] []).

Definition built (r : result Gvec) : Gvec :=
  match r with
  | Ok g => g
  | Fail _ => Gvec_empty
  end.

(** The nine G-vectors of the flat cell on four ranks, all of them in one
    group of the FFT communicator; then prepared for an FFT communicator of
    size two, and after that for one of size four. *)
Definition flat_cell_gvec : Gvec :=
  built (Gvec_new flat_cell flat_cell_key stable_sort (cubic_box 5) 4 (mk_comm 1 0) false).

Definition zone_boundary_gvec : Gvec :=
  built (Gvec_new zone_boundary zone_boundary_key stable_sort (cubic_box 5) 1
           (mk_comm 1 0) false).

(** Quantised lengths that differ in their last digits only, for the two
    vectors that pass [zone_boundary]. *)
Definition close_key (g : Z * Z * Z) : N :=
  if bool_decide (g.1.1 = 0) then 12000000000000038%N else 12000000000000040%N.

Definition close_shells_gvec : Gvec :=
  built (Gvec_new zone_boundary close_key stable_sort (cubic_box 5) 1
           (mk_comm 1 0) false).

(** The quantised length of G in the unit lattice. *)
Definition unit_key (g : Z * Z * Z) : N :=
  Z.to_N (Z.sqrt ((g.1.1 * g.1.1 + g.1.2 * g.1.2 + g.2 * g.2) * 10 ^ 20)).

(** All the points of the box [-2,2]^3, on [R] ranks in one group of the
    FFT communicator. *)
Definition whole_box_gvec (R : Z) (reduce_gvec : bool) : Gvec :=
  built (Gvec_new whole_box unit_key stable_sort (cubic_box 5) R (mk_comm 1 0)
           reduce_gvec).

Definition flat_cell_gvec2 : Gvec := built (prepare (mk_comm 2 1) flat_cell_gvec).

Definition flat_cell_gvec4 : Gvec := built (prepare (mk_comm 4 3) flat_cell_gvec2).

(** * Properties *)

(** ** Loops and outcomes *)

Lemma bind_Ok {A B : Type} (m : result A) (f : A → result B) (b : B) :
  m ≫= f = Ok b ↔ ∃ a, m = Ok a ∧ f a = Ok b.
Proof.
  destruct m as [a|e]; simpl; split.
  - eauto.
  - by intros (a' & [= ->] & ?).
  - done.
  - by intros (a' & ? & ?).
Qed.

Lemma foldM_app {A S : Type} (f : S → A → result S) (s : S) (l1 l2 : list A) :
  foldM f s (l1 ++ l2) = foldM f s l1 ≫= λ s', foldM f s' l2.
Proof.
  revert s. induction l1 as [|a l1 IH]; intros s; simpl; [done|].
  destruct (f s a) as [s1|e]; simpl; [apply IH|done].
Qed.

Lemma foldM_snoc {A S : Type} (f : S → A → result S) (s : S) (l : list A) (a : A) :
  foldM f s (l ++ [a]) = foldM f s l ≫= λ s', f s' a.
Proof.
  rewrite foldM_app. destruct (foldM f s l) as [s1|e]; simpl; [|done].
  by destruct (f s1 a).
Qed.

(** An invariant that may mention the elements still to come. *)
Lemma foldM_invariant {A S : Type} (P : S → list A → Prop) (f : S → A → result S) :
  (∀ s a l s', P s (a :: l) → f s a = Ok s' → P s' l) →
  ∀ l s s', P s l → foldM f s l = Ok s' → P s' [].
Proof.
  intros Hstep l. induction l as [|a l IH]; intros s s' HP; simpl.
  - by intros [= <-].
  - intros (s1 & H1 & H2)%bind_Ok. eauto.
Qed.

Lemma at_Ok {A : Type} (v : list A) (i : Z) (a : A) :
  at_ v i = Ok a ↔ 0 ≤ i ∧ v !! Z.to_nat i = Some a.
Proof.
  unfold at_. case_bool_decide as Hi.
  - destruct (v !! Z.to_nat i); split; try done.
    + by intros [= ->].
    + by intros [_ [= ->]].
    + by intros [_ ?].
  - split; [done|]. by intros [? _].
Qed.

Lemma at_in_range {A : Type} (v : list A) (i : Z) :
  0 ≤ i < size v → ∃ a, at_ v i = Ok a.
Proof.
  intros [H0 Hlt]. unfold size in Hlt.
  destruct (lookup_lt_is_Some_2 v (Z.to_nat i)) as [a Ha]; [lia|].
  exists a. by apply at_Ok.
Qed.

Lemma assertion_Ok (b : bool) (u : unit) : assertion b = Ok u ↔ b = true.
Proof. destruct b, u; simpl; naive_solver. Qed.

(** ** The search for the rank with the fewest G-vectors *)

Lemma min_element_from_first_least cnt l : ∀ pre p0 a0,
  first_least cnt pre p0 a0 →
  first_least cnt (pre ++ l)
    (min_element_from cnt (p0, a0) (length pre) l).1
    (min_element_from cnt (p0, a0) (length pre) l).2.
Proof.
  induction l as [|a l IH]; intros pre p0 a0 (Hp & Hle & Hlt); simpl.
  - by rewrite app_nil_r.
  - replace (pre ++ a :: l) with ((pre ++ [a]) ++ l) by by rewrite <- app_assoc.
    replace (S (length pre)) with (length (pre ++ [a])) by (rewrite length_app; simpl; lia).
    case_bool_decide as Hc; apply IH; repeat split.
    + by rewrite lookup_app_r, Nat.sub_diag.
    + intros i q [Hq|[_ Hq]]%lookup_app_Some.
      * specialize (Hle _ _ Hq). lia.
      * apply list_lookup_singleton_Some in Hq as [_ <-]. lia.
    + intros i q Hq Hi. rewrite lookup_app_l in Hq by done.
      specialize (Hle _ _ Hq). lia.
    + rewrite lookup_app_l; [done|]. by eapply lookup_lt_Some.
    + intros i q [Hq|[_ Hq]]%lookup_app_Some; [eauto|].
      apply list_lookup_singleton_Some in Hq as [_ <-]. simpl in Hc. lia.
    + intros i q Hq Hi. apply Hlt with i; [|done].
      apply lookup_lt_Some in Hp. by rewrite lookup_app_l in Hq by lia.
Qed.

Lemma min_element_first_least cnt l pos r :
  min_element cnt l = Some (pos, r) → first_least cnt l pos r.
Proof.
  destruct l as [|a l]; simpl; [done|]. intros [= H].
  pose proof (min_element_from_first_least cnt l [a] 0%nat a) as Hm.
  simpl in Hm. rewrite H in Hm. apply Hm. repeat split.
  - intros i q Hq. apply list_lookup_singleton_Some in Hq as [_ <-]. lia.
  - intros; lia.
Qed.

Lemma min_element_is_Some cnt l : l ≠ [] → is_Some (min_element cnt l).
Proof. destruct l; [done|]. simpl. eauto. Qed.

Lemma first_least_unique cnt l pos r pos' r' :
  first_least cnt l pos r → first_least cnt l pos' r' → pos = pos' ∧ r = r'.
Proof.
  intros (H1 & Hle1 & Hlt1) (H2 & Hle2 & Hlt2).
  assert (pos = pos') as ->.
  { destruct (Nat.lt_trichotomy pos pos') as [Hc|[Hc|Hc]]; [|done|].
    - specialize (Hlt2 _ _ H1 Hc). specialize (Hle1 _ _ H2). lia.
    - specialize (Hlt1 _ _ H2 Hc). specialize (Hle2 _ _ H1). lia. }
  split; congruence.
Qed.

(** ** Well-formed states of the assignment loop *)

Lemma StronglySorted_sublist {A : Type} (R : relation A) (k l : list A) :
  k `sublist_of` l → StronglySorted R l → StronglySorted R k.
Proof.
  induction 1 as [|x k l Hs IH|x k l Hs IH]; intros Hl.
  - constructor.
  - apply StronglySorted_inv in Hl as [Hl Hx]. constructor; [by apply IH|].
    apply Forall_forall. intros y Hy. rewrite Forall_forall in Hx.
    apply Hx. by eapply sublist_subseteq.
  - apply StronglySorted_inv in Hl as [Hl _]. by apply IH.
Qed.

Lemma seq_strongly_sorted (j n : nat) : StronglySorted lt (seq j n).
Proof.
  revert j. induction n as [|n IH]; intros j; simpl; constructor; [apply IH|].
  apply Forall_forall. intros y Hy%elem_of_seq. lia.
Qed.

Lemma sorted_lookup_lt (l : list nat) (i j a b : nat) :
  StronglySorted lt l → l !! i = Some a → l !! j = Some b → (i < j)%nat → (a < b)%nat.
Proof.
  intros Hs. revert i j. induction Hs as [|x l Hs IH Hx]; intros i j Ha Hb Hij; [done|].
  destruct j as [|j]; [lia|]. destruct i as [|i]; simpl in *.
  - injection Ha as ->. rewrite Forall_forall in Hx. apply Hx.
    by eapply list_elem_of_lookup_2.
  - eapply IH; eauto. lia.
Qed.

(** Erasing one position of a list without repetitions removes exactly
    the element at that position. *)
Lemma elem_of_delete_NoDup {A : Type} (l : list A) (pos : nat) (r q : A) :
  NoDup l → l !! pos = Some r → q ∈ delete pos l ↔ q ∈ l ∧ q ≠ r.
Proof.
  intros Hnd Hpos.
  rewrite <- (take_drop_middle l pos r Hpos) in Hnd.
  rewrite <- (take_drop_middle l pos r Hpos) at 2.
  rewrite delete_take_drop.
  apply NoDup_app in Hnd as (_ & Hdis & Hnd).
  apply NoDup_cons in Hnd as [Hr _].
  rewrite !elem_of_app, elem_of_cons. split.
  - intros [Hq|Hq].
    + split; [by left|]. intros ->. apply (Hdis r Hq). by left.
    + split; [by right; right|]. by intros ->.
  - intros [[Hq|[->|Hq]] Hne]; [by left|done|by right].
Qed.

Lemma distr_init_wf R : distr_wf R (distr_init R).
Proof.
  split; simpl; rewrite ?length_replicate; try done. apply sublist_nil_l.
Qed.

Lemma candidates_sublist R st : distr_wf R st → candidates R st `sublist_of` seq 0 R.
Proof. intros Hwf. unfold candidates. case_bool_decide; [done|apply Hwf]. Qed.

Lemma candidates_NoDup R st : distr_wf R st → NoDup (candidates R st).
Proof.
  intros Hwf. eapply sublist_NoDup; eauto using candidates_sublist, NoDup_seq.
Qed.

Lemma candidates_lt R st r : distr_wf R st → r ∈ candidates R st → (r < R)%nat.
Proof.
  intros Hwf Hr. eapply sublist_subseteq in Hr; [|by apply candidates_sublist].
  apply elem_of_seq in Hr. lia.
Qed.

Lemma candidates_sorted R st : distr_wf R st → StronglySorted lt (candidates R st).
Proof.
  intros Hwf. eapply StronglySorted_sublist; [by apply candidates_sublist|].
  apply seq_strongly_sorted.
Qed.

(** What one turn of the loop does, in terms of the rank it finds. *)
Lemma assign_column_Ok R st c st' :
  assign_column R st c = Ok st' ↔
  ∃ pos r, min_element (gvec_counts st) (candidates R st) = Some (pos, r) ∧
    st' = mk_distr (delete pos (candidates R st))
                   (alter (λ n, n + zsize c) r (gvec_counts st))
                   (alter (λ n, n + 1) r (zcol_counts st))
                   (alter (λ l, l ++ [c]) r (zcols_local st)).
Proof.
  unfold assign_column.
  destruct (min_element _ _) as [[pos r]|]; split.
  - intros [= <-]. eauto.
  - by intros (? & ? & [= <- <-] & ->).
  - done.
  - by intros (? & ? & ? & _).
Qed.

Lemma assign_column_wf R st c st' :
  distr_wf R st → assign_column R st c = Ok st' → distr_wf R st'.
Proof.
  intros Hwf (pos & r & Hmin & ->)%assign_column_Ok.
  split; simpl; rewrite ?length_alter; try apply Hwf.
  etrans; [apply sublist_delete|by apply candidates_sublist].
Qed.

Lemma distribute_from_wf R cols : ∀ st st',
  distr_wf R st → foldM (assign_column R) st cols = Ok st' → distr_wf R st'.
Proof.
  intros st st' Hwf.
  apply (foldM_invariant (λ s _, distr_wf R s) (assign_column R)); [|done].
  intros s a l s1. apply assign_column_wf.
Qed.

Lemma distribute_wf R cols st : distribute R cols = Ok st → distr_wf R st.
Proof. apply distribute_from_wf, distr_init_wf. Qed.

(** The loop goes through for any list of columns as soon as there is a rank. *)
Lemma assign_column_total R st c :
  (0 < R)%nat → distr_wf R st → ∃ st', assign_column R st c = Ok st'.
Proof.
  intros HR Hwf. unfold assign_column.
  destruct (min_element_is_Some (gvec_counts st) (candidates R st)) as [[pos r] ->]; [|eauto].
  unfold candidates. case_bool_decide; [|done]. destruct R; [lia|done].
Qed.

Lemma distribute_from_total R cols : ∀ st,
  (0 < R)%nat → distr_wf R st → ∃ st', foldM (assign_column R) st cols = Ok st'.
Proof.
  induction cols as [|c cols IH]; intros st HR Hwf; simpl; [eauto|].
  destruct (assign_column_total R st c HR Hwf) as [st1 H1]. rewrite H1. simpl.
  apply IH; [done|]. by eapply assign_column_wf.
Qed.

Lemma distribute_total R cols : (0 < R)%nat → ∃ st, distribute R cols = Ok st.
Proof. intros HR. apply distribute_from_total; [done|apply distr_init_wf]. Qed.

(** ** Sums of counts *)

Lemma alter_add_total (l : list Z) (r q : nat) (a : Z) :
  (r < length l)%nat →
  alter (λ n, n + a) r l !!! q = l !!! q + (if bool_decide (q = r) then a else 0).
Proof.
  intros Hr. case_bool_decide as Hq.
  - subst q. by rewrite list_lookup_total_alter_eq.
  - rewrite list_lookup_total_alter_ne by done. lia.
Qed.

Lemma size_cons {A : Type} (a : A) (l : list A) : size (a :: l) = 1 + size l.
Proof. unfold size. simpl length. lia. Qed.

Lemma size_app {A : Type} (l k : list A) : size (l ++ k) = size l + size k.
Proof. unfold size. rewrite length_app. lia. Qed.

Lemma size_nonneg {A : Type} (l : list A) : 0 ≤ size l.
Proof. unfold size. lia. Qed.

Lemma sumZ_cons (a : Z) (l : list Z) : sumZ (a :: l) = a + sumZ l.
Proof. done. Qed.

Lemma sumZ_app (l k : list Z) : sumZ (l ++ k) = sumZ l + sumZ k.
Proof. unfold sumZ. induction l as [|a l IH]; simpl; lia. Qed.

Lemma sumZ_replicate_0 (n : nat) : sumZ (replicate n 0) = 0.
Proof. unfold sumZ. induction n as [|n IH]; simpl; lia. Qed.

Lemma sumZ_alter_add (l : list Z) (i : nat) (a : Z) :
  (i < length l)%nat → sumZ (alter (λ n, n + a) i l) = sumZ l + a.
Proof.
  unfold sumZ, alter. revert i.
  induction l as [|b l IH]; intros [|i] Hi; simpl in *; try lia.
  rewrite IH by lia. lia.
Qed.

Lemma sumZ_lower (l : list Z) (a : Z) :
  Forall (λ v, a ≤ v) l → size l * a ≤ sumZ l.
Proof.
  unfold sumZ, size. induction 1 as [|v l Hv Hl IH]; simpl length; simpl foldr; lia.
Qed.

Lemma sumZ_upper (l : list Z) (a : Z) :
  Forall (λ v, v ≤ a) l → sumZ l ≤ size l * a.
Proof.
  unfold sumZ, size. induction 1 as [|v l Hv Hl IH]; simpl length; simpl foldr; lia.
Qed.

Lemma sumZ_lower_strict (l : list Z) (a v : Z) :
  Forall (λ v, a ≤ v) l → v ∈ l → a < v → size l * a < sumZ l.
Proof.
  intros Hall Hv Hlt. apply list_elem_of_split in Hv as (l1 & l2 & ->).
  apply Forall_app in Hall as [H1 H2]. apply Forall_cons in H2 as [_ H2].
  apply sumZ_lower in H1, H2. rewrite sumZ_app. unfold size in *.
  rewrite length_app. simpl length. unfold sumZ at 2. simpl foldr. fold (sumZ l2). lia.
Qed.

Lemma sumZ_upper_strict (l : list Z) (a v : Z) :
  Forall (λ v, v ≤ a) l → v ∈ l → v < a → sumZ l < size l * a.
Proof.
  intros Hall Hv Hlt. apply list_elem_of_split in Hv as (l1 & l2 & ->).
  apply Forall_app in Hall as [H1 H2]. apply Forall_cons in H2 as [_ H2].
  apply sumZ_upper in H1, H2. rewrite sumZ_app. unfold size in *.
  rewrite length_app. simpl length. unfold sumZ at 2. simpl foldr. fold (sumZ l2). lia.
Qed.

Lemma distribute_from_totals R cols : ∀ st st',
  distr_wf R st → foldM (assign_column R) st cols = Ok st' →
  sumZ (zcol_counts st') = sumZ (zcol_counts st) + size cols ∧
  sumZ (gvec_counts st') = sumZ (gvec_counts st) + sumZ (zsize <$> cols).
Proof.
  induction cols as [|c cols IH]; intros st st' Hwf; cbn [foldM].
  - intros [= <-]. unfold size, sumZ. simpl. lia.
  - intros (st1 & H1 & H2)%bind_Ok.
    pose proof (assign_column_wf _ _ _ _ Hwf H1) as Hwf1.
    destruct (IH _ _ Hwf1 H2) as [-> ->].
    apply assign_column_Ok in H1 as (pos & r & Hmin & ->).
    cbn [zcol_counts gvec_counts].
    apply min_element_first_least in Hmin as (Hpos & _).
    assert (r < R)%nat as Hr
      by (apply (candidates_lt R st); [done|by eapply list_elem_of_lookup_2]).
    pose proof (wf_gvec _ _ Hwf). pose proof (wf_zcol _ _ Hwf).
    rewrite !sumZ_alter_add by lia.
    rewrite fmap_cons, sumZ_cons, size_cons. lia.
Qed.

Lemma distribute_totals R cols st :
  distribute R cols = Ok st →
  sumZ (zcol_counts st) = size cols ∧ sumZ (gvec_counts st) = sumZ (zsize <$> cols).
Proof.
  intros H. apply distribute_from_totals in H as [-> ->]; [|apply distr_init_wf].
  simpl. by rewrite !sumZ_replicate_0.
Qed.

(** ** Column counts: every rank is served once in a round *)

Lemma distr_init_round R : round_inv R (distr_init R).
Proof.
  exists 0. intros r Hr. unfold waiting, distr_init. cbn [ranks zcol_counts].
  rewrite lookup_total_replicate_2 by done.
  rewrite bool_decide_eq_false_2 by apply not_elem_of_nil. lia.
Qed.

Lemma assign_column_round R st c st' :
  distr_wf R st → round_inv R st → assign_column R st c = Ok st' → round_inv R st'.
Proof.
  intros Hwf [k Hk] (pos & r0 & Hmin & ->)%assign_column_Ok.
  apply min_element_first_least in Hmin as (Hpos & _).
  pose proof (candidates_NoDup _ _ Hwf) as Hnd.
  assert (r0 < R)%nat as Hr0
    by (apply (candidates_lt R st); [done|by eapply list_elem_of_lookup_2]).
  assert (∀ r, r ∈ delete pos (candidates R st) ↔ r ∈ candidates R st ∧ r ≠ r0) as Hdel
    by (intros r; by apply elem_of_delete_NoDup).
  unfold candidates in Hdel, Hpos. unfold round_inv, waiting in *. unfold candidates.
  cbn [ranks zcol_counts].
  case_bool_decide as Hemp.
  - exists (k + 1). intros r Hr. specialize (Hk r Hr). rewrite Hemp in Hk.
    rewrite bool_decide_eq_false_2 in Hk by apply not_elem_of_nil.
    rewrite alter_add_total by (by rewrite (wf_zcol _ _ Hwf)).
    assert (r ∈ delete pos (seq 0 R) ↔ r ≠ r0) as Hd.
    { rewrite Hdel, elem_of_seq. split; [tauto|]. intros; split; [lia|done]. }
    repeat case_bool_decide; simplify_eq; first [lia|tauto].
  - exists k. intros r Hr. specialize (Hk r Hr).
    rewrite alter_add_total by (by rewrite (wf_zcol _ _ Hwf)).
    specialize (Hdel r).
    assert (r0 ∈ ranks st) by (by eapply list_elem_of_lookup_2).
    repeat case_bool_decide; simplify_eq; first [lia|tauto].
Qed.

Lemma distribute_round R cols st : distribute R cols = Ok st → round_inv R st.
Proof.
  intros H.
  apply (foldM_invariant (λ s _, distr_wf R s ∧ round_inv R s) (assign_column R))
    with (l := cols) (s := distr_init R); [| |done].
  - intros s a l s1 [Hwf Hr] Ha. split; [by eapply assign_column_wf|by eapply assign_column_round].
  - split; [apply distr_init_wf|apply distr_init_round].
Qed.

Lemma near_equal_shares (l : list Z) (m total : Z) :
  l ≠ [] → sumZ l = total → Forall (λ v, v = m ∨ v = m + 1) l →
  Forall (λ v, v = total `div` size l ∨ v = ceil_div total (size l)) l.
Proof.
  intros Hne Hsum Hall.
  assert (0 < size l) as Hpos by (unfold size; destruct l; simpl; [done|lia]).
  assert (Forall (λ v, m ≤ v) l) as Hlo by (eapply Forall_impl; [exact Hall|]; simpl; lia).
  assert (Forall (λ v, v ≤ m + 1) l) as Hhi by (eapply Forall_impl; [exact Hall|]; simpl; lia).
  pose proof (sumZ_lower _ _ Hlo) as H1. pose proof (sumZ_upper _ _ Hhi) as H2.
  apply Forall_forall. intros v Hv.
  rewrite Forall_forall in Hall. destruct (Hall v Hv) as [->| ->].
  - pose proof (sumZ_upper_strict _ _ _ Hhi Hv ltac:(lia)) as H3.
    left. apply Z.div_unique with (total - size l * m); lia.
  - pose proof (sumZ_lower_strict _ _ _ Hlo Hv ltac:(lia)) as H3.
    right. unfold ceil_div.
    apply Z.div_unique with (total + size l - 1 - size l * (m + 1)); lia.
Qed.

(** ** G-vector counts: the loads of two ranks differ by at most a column *)

Lemma zsize_nonneg c : 0 ≤ zsize c.
Proof. apply size_nonneg. Qed.

Lemma first_column_load R m c rest st :
  Forall (λ c', zsize c' ≤ m) (c :: rest) →
  assign_column R (distr_init R) c = Ok st → load_inv R m st rest.
Proof.
  intros Hm (pos & r0 & Hmin & ->)%assign_column_Ok.
  pose proof (distr_init_wf R) as Hwf.
  apply min_element_first_least in Hmin as (Hpos & _).
  pose proof (candidates_NoDup _ _ Hwf) as Hnd.
  assert (r0 < R)%nat as Hr0
    by (apply (candidates_lt R (distr_init R)); [done|by eapply list_elem_of_lookup_2]).
  assert (∀ r, r ∈ delete pos (candidates R (distr_init R)) ↔
               r ∈ candidates R (distr_init R) ∧ r ≠ r0) as Hdel
    by (intros r; by apply elem_of_delete_NoDup).
  apply Forall_cons in Hm as [Hc Hm]. rewrite Forall_forall in Hm.
  pose proof (zsize_nonneg c) as Hc0.
  unfold candidates in Hdel. cbn [ranks distr_init] in Hdel.
  rewrite bool_decide_eq_true_2 in Hdel by done.
  unfold candidates, load_inv. cbn [ranks gvec_counts distr_init].
  rewrite bool_decide_eq_true_2 by done.
  split.
  - intros p q Hp Hq. rewrite !alter_add_total by (by rewrite length_replicate).
    rewrite !lookup_total_replicate_2 by done.
    repeat case_bool_decide; lia.
  - intros p q c' Hp Hnp Hq Hc'. rewrite !alter_add_total by (by rewrite length_replicate).
    rewrite !lookup_total_replicate_2
      by (done || (apply Hdel in Hq as [Hq%elem_of_seq _]; lia)).
    specialize (Hm _ Hc'). pose proof (zsize_nonneg c').
    assert (p = r0) as ->.
    { destruct (decide (p = r0)); [done|]. exfalso. apply Hnp, Hdel.
      rewrite elem_of_seq. split; [lia|done]. }
    apply Hdel in Hq as [_ Hq].
    repeat case_bool_decide; try done; lia.
Qed.

Lemma assign_column_load R m st c rest st' :
  distr_wf R st → load_inv R m st (c :: rest) → zsize c ≤ m →
  Forall (λ c', zsize c' ≤ zsize c) rest →
  assign_column R st c = Ok st' → load_inv R m st' rest.
Proof.
  intros Hwf [Hspread Hwait] Hc Hrest (pos & r0 & Hmin & ->)%assign_column_Ok.
  apply min_element_first_least in Hmin as (Hpos & Hleast & _).
  pose proof (candidates_NoDup _ _ Hwf) as Hnd.
  assert (r0 ∈ candidates R st) as Hin by (by eapply list_elem_of_lookup_2).
  assert (r0 < R)%nat as Hr0 by (by apply (candidates_lt R st)).
  assert (∀ r, r ∈ delete pos (candidates R st) ↔ r ∈ candidates R st ∧ r ≠ r0) as Hdel
    by (intros r; by apply elem_of_delete_NoDup).
  assert (∀ q, q ∈ candidates R st →
               gvec_counts st !!! r0 ≤ gvec_counts st !!! q) as Hle.
  { intros q [i Hi]%list_elem_of_lookup_1. eauto. }
  rewrite Forall_forall in Hrest.
  pose proof (zsize_nonneg c) as Hc0.
  pose proof (wf_gvec _ _ Hwf) as Hlen.
  unfold load_inv. cbn [ranks gvec_counts]. split.
  - intros p q Hp Hq. rewrite !alter_add_total by lia.
    specialize (Hspread p q Hp Hq).
    repeat case_bool_decide; simplify_eq; try lia.
    unfold candidates in Hle, Hin. case_bool_decide as Hemp.
    + specialize (Hle q). rewrite elem_of_seq in Hle. lia.
    + destruct (decide (q ∈ ranks st)) as [Hqin|Hqout].
      * specialize (Hle q Hqin). lia.
      * specialize (Hwait q r0 c Hq Hqout Hin). rewrite elem_of_cons in Hwait.
        specialize (Hwait (or_introl eq_refl)). lia.
  - intros p q c' Hp Hnp Hq Hc'. rewrite !alter_add_total by lia.
    apply Hdel in Hq as [Hq Hqr].
    assert (q < R)%nat as HqR by (by apply (candidates_lt R st)).
    specialize (Hrest _ Hc'). pose proof (zsize_nonneg c').
    rewrite (bool_decide_eq_false_2 (q = r0)) by done.
    destruct (decide (p = r0)) as [->|Hpr];
      rewrite ?bool_decide_eq_true_2, ?bool_decide_eq_false_2 by done.
    + specialize (Hspread q r0 HqR Hr0). lia.
    + unfold candidates in Hq, Hdel, Hnp. case_bool_decide as Hemp.
      * exfalso. apply Hnp, Hdel. rewrite elem_of_seq. split; [lia|done].
      * assert (p ∉ ranks st) as Hout.
        { intros Hpin. apply Hnp, Hdel. done. }
        specialize (Hwait p q c' Hp Hout Hq). rewrite elem_of_cons in Hwait.
        specialize (Hwait (or_intror Hc')). lia.
Qed.

Lemma sorted_tail_loads R m st rest st' :
  distr_wf R st → load_inv R m st rest →
  StronglySorted longer_or_equal rest → Forall (λ c, zsize c ≤ m) rest →
  foldM (assign_column R) st rest = Ok st' →
  ∀ p q, (p < R)%nat → (q < R)%nat → gvec_counts st' !!! p - gvec_counts st' !!! q ≤ m.
Proof.
  intros Hwf Hinv Hs Hm Hrun.
  apply (foldM_invariant
           (λ s l, distr_wf R s ∧ load_inv R m s l ∧
                   StronglySorted longer_or_equal l ∧ Forall (λ c, zsize c ≤ m) l)
           (assign_column R)) with (s' := st') in Hrun as (_ & [H _] & _); [done| |done].
  clear. intros s c l s1 (Hwf & Hinv & Hs & Hm) Hstep.
  apply StronglySorted_inv in Hs as [Hs Hc]. apply Forall_cons in Hm as [Hmc Hm].
  split; [by eapply assign_column_wf|]. split; [|done].
  eapply assign_column_load; eauto.
  eapply Forall_impl; [exact Hc|]. unfold longer_or_equal, zsize, size. intros; lia.
Qed.

(** The columns after the first one in decreasing order of length: the
    loads of any two ranks differ by at most the length of a column. *)
Lemma distribute_loads R m cols st :
  0 ≤ m → StronglySorted longer_or_equal (tail cols) → Forall (λ c, zsize c ≤ m) cols →
  distribute R cols = Ok st →
  ∀ p q, (p < R)%nat → (q < R)%nat → gvec_counts st !!! p - gvec_counts st !!! q ≤ m.
Proof.
  intros Hm0 Hs Hm. destruct cols as [|c0 rest]; unfold distribute; cbn [foldM tail] in *.
  - intros [= <-] p q Hp Hq. cbn [gvec_counts distr_init].
    rewrite !lookup_total_replicate_2 by done. lia.
  - intros (st1 & H1 & H2)%bind_Ok.
    eapply sorted_tail_loads; [| |exact Hs| |exact H2].
    + eapply assign_column_wf; [apply distr_init_wf|done].
    + by eapply first_column_load.
    + by apply Forall_cons in Hm as [_ ?].
Qed.

Lemma share_bound (l : list Z) (m v : Z) :
  (∀ u, u ∈ l → v - u ≤ m) → v ∈ l → v ≤ ceil_div (sumZ l) (size l) + m.
Proof.
  intros Hall Hv.
  assert (0 < size l) as Hpos.
  { unfold size. destruct l; [by apply elem_of_nil in Hv|simpl; lia]. }
  assert (Forall (λ u, v - m ≤ u) l) as Hlo.
  { apply Forall_forall. intros u Hu. specialize (Hall u Hu). lia. }
  apply sumZ_lower in Hlo.
  assert (v - m ≤ sumZ l `div` size l) by (apply Z.div_le_lower_bound; lia).
  assert (sumZ l `div` size l ≤ ceil_div (sumZ l) (size l))
    by (unfold ceil_div; apply Z.div_le_mono; lia).
  lia.
Qed.

Lemma max_zsize_nonneg cols : 0 ≤ max_zsize cols.
Proof. induction cols as [|c cols IH]; simpl; lia. Qed.

Lemma max_zsize_bound cols : Forall (λ c, zsize c ≤ max_zsize cols) cols.
Proof.
  induction cols as [|c cols IH]; simpl; constructor; [lia|].
  eapply Forall_impl; [exact IH|]. simpl. intros; lia.
Qed.

Lemma max_zsize_least cols m :
  0 ≤ m → Forall (λ c, zsize c ≤ m) cols → max_zsize cols ≤ m.
Proof. intros Hm. induction 1 as [|c cols Hc Hall IH]; simpl; lia. Qed.

Lemma max_zsize_elem cols : cols ≠ [] → ∃ c, c ∈ cols ∧ zsize c = max_zsize cols.
Proof.
  induction cols as [|c cols IH]; [done|]. intros _.
  destruct cols as [|d cols].
  - exists c. split; [by left|]. simpl. pose proof (zsize_nonneg c). lia.
  - destruct IH as (e & He & Hmax); [done|].
    change (max_zsize (c :: d :: cols)) with (Z.max (zsize c) (max_zsize (d :: cols))).
    destruct (Z.max_spec (zsize c) (max_zsize (d :: cols))) as [[_ ->]|[_ ->]].
    + exists e. split; [by right|done].
    + exists c. split; [by left|done].
Qed.

(** ** The enumerator *)

Lemma filter_fmap {A B : Type} (f : A → B) (P : B → Prop) `{!∀ b, Decision (P b)}
    (l : list A) :
  filter P (f <$> l) = f <$> filter (λ a, P (f a)) l.
Proof.
  induction l as [|a l IH]; [done|]. rewrite fmap_cons, !filter_cons.
  case_decide; by rewrite ?fmap_cons, IH.
Qed.

Lemma seqZ_strongly_sorted (m n : Z) : StronglySorted Z.lt (seqZ m n).
Proof.
  unfold seqZ. apply StronglySorted_fmap with (R1 := lt); [|apply seq_strongly_sorted].
  intros a b Hab. lia.
Qed.

Section enumerator_facts.
Context (in_cutoff : Z → Z → Z → bool) (fft_box : FFT3D_grid) (reduce_gvec : bool).

Lemma scan_z_passing i j :
  scan_z in_cutoff fft_box reduce_gvec i j = (λ iz, gvec_by_coord fft_box iz 2) <$> passing in_cutoff fft_box reduce_gvec i j.
Proof. unfold scan_z, passing. by rewrite filter_fmap. Qed.

Lemma passing_sorted i j : StronglySorted Z.lt (passing in_cutoff fft_box reduce_gvec i j).
Proof.
  eapply StronglySorted_sublist; [apply sublist_filter|apply seqZ_strongly_sorted].
Qed.

Lemma passing_range i j : Forall (λ iz, 0 ≤ iz ≤ zmax fft_box reduce_gvec i j) (passing in_cutoff fft_box reduce_gvec i j).
Proof.
  apply Forall_forall. intros iz [_ Hiz%elem_of_seqZ]%list_elem_of_filter. lia.
Qed.

(** The grid indices listed are those of the loop, from 0 to [zmax], whose
    value passes the test. *)
Lemma passing_complete i j iz :
  iz ∈ passing in_cutoff fft_box reduce_gvec i j ↔
  0 ≤ iz ≤ zmax fft_box reduce_gvec i j ∧ in_cutoff i j (gvec_by_coord fft_box iz 2) = true.
Proof.
  unfold passing. rewrite list_elem_of_filter, elem_of_seqZ. split.
  - intros [Hp Hr]. split; [lia|done].
  - intros [Hr Hp]. split; [done|lia].
Qed.

Lemma scan_z_in_cutoff i j : Forall (λ k, in_cutoff i j k = true) (scan_z in_cutoff fft_box reduce_gvec i j).
Proof. apply Forall_forall. by intros k [Hk _]%list_elem_of_filter. Qed.

Lemma enum_body_inv st ij st' :
  enum_inv in_cutoff fft_box reduce_gvec st →
enum_body in_cutoff fft_box reduce_gvec st ij = Ok st' →
enum_inv in_cutoff fft_box reduce_gvec st'.
Proof.
  intros [Hsc Hnum Hmk Hnd]. unfold enum_body. destruct ij as [i j].
  destruct (bool_decide (scan_z in_cutoff fft_box reduce_gvec i j ≠ [])) eqn:Hne; simpl; [|by intros [= <-]].
  destruct (bool_decide ((i, j) ∉ en_marks st)) eqn:Hfree; simpl; [|by intros [= <-]].
  apply bool_decide_eq_true in Hne, Hfree.
  assert (enum_inv in_cutoff fft_box reduce_gvec (mk_enum (en_columns st ++ [z_column i j (scan_z in_cutoff fft_box reduce_gvec i j)])
                            (en_num_gvec st + size (scan_z in_cutoff fft_box reduce_gvec i j))
                            ({[(i, j)]} ∪ en_marks st))) as [H1 H2 H3 H4].
  { split; cbn [en_columns en_num_gvec en_marks].
    - apply Forall_app. split; [done|]. by repeat constructor.
    - rewrite fmap_app, sumZ_app, Hnum. unfold sumZ at 3. simpl. unfold zsize. simpl. lia.
    - apply Forall_app. split.
      + eapply Forall_impl; [exact Hmk|]. simpl. intros c Hc. by apply elem_of_union_r.
      + repeat constructor. unfold col_xy. simpl. by apply elem_of_union_l, elem_of_singleton.
    - rewrite fmap_app. apply NoDup_app. split; [done|]. split; [|apply NoDup_singleton].
      intros xy Hxy Hxy'. apply list_elem_of_singleton in Hxy'. subst xy.
      apply list_elem_of_fmap in Hxy as (c & Hc & Hin).
      rewrite Forall_forall in Hmk. specialize (Hmk c Hin). unfold col_xy at 1 in Hc.
      simpl in Hc. rewrite Hc in Hfree. done. }
  destruct reduce_gvec.
  - destruct (in_limits fft_box (- i) (- j)); [|done]. intros [= <-].
    split; cbn [en_columns en_num_gvec en_marks] in *; try done.
    eapply Forall_impl; [exact H3|]. simpl. intros c Hc. by apply elem_of_union_r.
  - by intros [= <-].
Qed.

Lemma enumerate_inv en :
  enumerate in_cutoff fft_box reduce_gvec = Ok en →
enum_inv in_cutoff fft_box reduce_gvec en.
Proof.
  apply (foldM_invariant (λ s _, enum_inv in_cutoff fft_box reduce_gvec s) (enum_body in_cutoff fft_box reduce_gvec)).
  - intros s a l s'. apply enum_body_inv.
  - split; simpl; constructor.
Qed.
End enumerator_facts.

Lemma sorted_in_range (f : Z → Z) (lo hi : Z) (izs : list Z) :
  (∀ a b, lo ≤ a < b ∧ b ≤ hi → f a < f b) →
  StronglySorted Z.lt izs → Forall (λ iz, lo ≤ iz ≤ hi) izs →
  StronglySorted Z.lt (f <$> izs).
Proof.
  intros Hf Hs. induction Hs as [|a izs Hs IH Ha]; intros Hr; csimpl; constructor.
  - apply IH. by apply Forall_cons in Hr as [_ ?].
  - apply Forall_cons in Hr as [Hra Hr]. rewrite Forall_fmap.
    rewrite Forall_forall in Ha, Hr. apply Forall_forall. intros b Hb. simpl.
    specialize (Ha b Hb). specialize (Hr b Hb). apply Hf. lia.
Qed.

(** C3 (as amended): every column the enumerator produces has a non-empty
    z-sequence; the sequence lists, in increasing order of the grid index
    [iz] of the z-loop, the values [gvec_by_coord(iz, 2)] that pass the
    cutoff test: the grid indices listed are exactly those from 0 to [zmax]
    whose value passes the test, each of them once.  The sequence is
    strictly increasing in z where [gvec_by_coord] is strictly increasing
    over the grid indices of the loop. *)
Theorem zcol_nonempty_in_scan_order in_cutoff fft_box reduce_gvec en c :
  enumerate in_cutoff fft_box reduce_gvec = Ok en → c ∈ en_columns en →
  col_z c ≠ [] ∧
  (∃ izs, StronglySorted Z.lt izs ∧
          (∀ iz, iz ∈ izs ↔
                 0 ≤ iz ≤ zmax fft_box reduce_gvec (col_x c) (col_y c) ∧
                 in_cutoff (col_x c) (col_y c) (gvec_by_coord fft_box iz 2) = true) ∧
          col_z c = (λ iz, gvec_by_coord fft_box iz 2) <$> izs) ∧
  Forall (λ k, in_cutoff (col_x c) (col_y c) k = true) (col_z c) ∧
  ((∀ a b, 0 ≤ a < b ∧ b ≤ zmax fft_box reduce_gvec (col_x c) (col_y c) →
           gvec_by_coord fft_box a 2 < gvec_by_coord fft_box b 2) →
   StronglySorted Z.lt (col_z c)).
Proof.
  intros Hen Hc. apply enumerate_inv in Hen as [Hsc _ _ _].
  rewrite Forall_forall in Hsc. destruct (Hsc c Hc) as (Hz & Hne & _).
  split; [done|]. rewrite Hz. split; [|split].
  - exists (passing in_cutoff fft_box reduce_gvec (col_x c) (col_y c)).
    split; [apply passing_sorted|]. split; [apply passing_complete|apply scan_z_passing].
  - apply scan_z_in_cutoff.
  - intros Hmono. rewrite scan_z_passing.
    eapply sorted_in_range; [exact Hmono|apply passing_sorted|apply passing_range].
Qed.

Lemma small_enum_Ok : enumerate whole_box (cubic_box 3) false = Ok small_enum.
Proof. vm_compute. reflexivity. Qed.

Lemma small_enum_columns :
  (λ c, (col_x c, col_y c, col_z c)) <$> en_columns small_enum =
  [(-1, -1, [0; 1; -1]); (-1, 0, [0; 1; -1]); (-1, 1, [0; 1; -1]);
   (0, -1, [0; 1; -1]); (0, 0, [0; 1; -1]); (0, 1, [0; 1; -1]);
   (1, -1, [0; 1; -1]); (1, 0, [0; 1; -1]); (1, 1, [0; 1; -1])].
Proof. vm_compute. reflexivity. Qed.

Lemma zcol_nonempty_in_scan_order_witness :
  enumerate whole_box (cubic_box 3) false = Ok small_enum ∧
  z_column 0 0 [0; 1; -1] ∈ en_columns small_enum ∧
  col_z (z_column 0 0 [0; 1; -1]) ≠ [] ∧
  ∃ izs, StronglySorted Z.lt izs ∧
         (∀ iz, iz ∈ izs ↔
                0 ≤ iz ≤ zmax (cubic_box 3) false 0 0 ∧
                whole_box 0 0 (gvec_by_coord (cubic_box 3) iz 2) = true) ∧
         col_z (z_column 0 0 [0; 1; -1]) = (λ iz, gvec_by_coord (cubic_box 3) iz 2) <$> izs.
Proof.
  assert (enumerate whole_box (cubic_box 3) false = Ok small_enum) as Hen
    by (vm_compute; reflexivity).
  assert (z_column 0 0 [0; 1; -1] ∈ en_columns small_enum) as Hc.
  { vm_compute. do 4 apply list_elem_of_further. apply list_elem_of_here. }
  split; [exact Hen|]. split; [exact Hc|].
  destruct (zcol_nonempty_in_scan_order whole_box (cubic_box 3) false small_enum
              (z_column 0 0 [0; 1; -1]) Hen Hc) as (H1 & (izs & H2 & H3 & H4) & _).
  split; [exact H1|]. exists izs. exact (conj H2 (conj H3 H4)).
Defined.

(** C3 as stated fails: in the box [-1,1]^3 the z-sequence of the column
    (0, 0) is 0, 1, -1. *)
Lemma zcol_not_increasing :
  ¬ (∀ in_cutoff fft_box reduce_gvec en c,
       enumerate in_cutoff fft_box reduce_gvec = Ok en → c ∈ en_columns en →
       col_z c ≠ [] ∧ StronglySorted Z.lt (col_z c)).
Proof.
  intros H.
  destruct (H whole_box (cubic_box 3) false small_enum (z_column 0 0 [0; 1; -1]))
    as [_ Hs].
  - vm_compute. reflexivity.
  - vm_compute. do 4 apply list_elem_of_further. apply list_elem_of_here.
  - simpl in Hs. apply StronglySorted_inv in Hs as [_ Hf].
    apply Forall_cons in Hf as [_ Hf]. apply Forall_cons in Hf as [Hf _]. lia.
Qed.

(** ** Ordering of the column list *)

Lemma swap_perm {A : Type} (l : list A) (i : nat) (a0 ai : A) :
  l !! 0%nat = Some a0 → l !! i = Some ai → <[0%nat := ai]> (<[i := a0]> l) ≡ₚ l.
Proof.
  intros H0 Hi. destruct l as [|b l]; [done|]. injection H0 as ->.
  destruct i as [|i]; simpl in *.
  - by injection Hi as ->.
  - rewrite (delete_Permutation l i ai Hi) at 2.
    rewrite insert_take_drop by (by eapply lookup_lt_Some).
    rewrite delete_take_drop.
    rewrite <- Permutation_middle. apply Permutation_swap.
Qed.

Lemma swap_origin_perm cols : swap_origin cols ≡ₚ cols.
Proof.
  unfold swap_origin. destruct (list_find is_origin cols) as [[i ci]|] eqn:Hf; [|done].
  destruct cols as [|c0 cols]; [done|].
  apply list_find_Some in Hf as (Hi & _ & _). by apply swap_perm.
Qed.

Lemma swap_origin_head cols c :
  c ∈ cols → is_origin c → ∃ c0, head (swap_origin cols) = Some c0 ∧ is_origin c0.
Proof.
  intros Hc Ho. unfold swap_origin.
  destruct (list_find is_origin cols) as [[i ci]|] eqn:Hf.
  - destruct cols as [|c0 cols]; [by apply elem_of_nil in Hc|].
    apply list_find_Some in Hf as (_ & Hci & _). exists ci. by destruct i.
  - apply list_find_None in Hf. rewrite Forall_forall in Hf. by destruct (Hf c Hc Ho).
Qed.

Lemma swap_origin_absent cols :
  (∀ c, c ∈ cols → ¬ is_origin c) → swap_origin cols = cols.
Proof.
  intros Hno. unfold swap_origin.
  destruct (list_find is_origin cols) as [[i ci]|] eqn:Hf; [|done].
  apply list_find_Some in Hf as (Hi & Hci & _).
  destruct (Hno ci); [by eapply list_elem_of_lookup_2|done].
Qed.

Lemma sort_tail_Ok sorter cols sorted :
  sort_tail sorter cols = Ok sorted ↔
  ∃ c0 rest, cols = c0 :: rest ∧ sorted = c0 :: std_sort sorter rest.
Proof.
  destruct cols as [|c0 rest]; simpl; split.
  - done.
  - by intros (? & ? & ? & _).
  - intros [= <-]. eauto.
  - by intros (? & ? & [= <- <-] & ->).
Qed.

Lemma ordered_columns_Ok in_cutoff sorter fft_box reduce_gvec cols n :
  ordered_columns in_cutoff sorter fft_box reduce_gvec = Ok (cols, n) ↔
  ∃ en c0 rest,
    enumerate in_cutoff fft_box reduce_gvec = Ok en ∧
    swap_origin (en_columns en) = c0 :: rest ∧
    cols = c0 :: std_sort sorter rest ∧ n = en_num_gvec en.
Proof.
  unfold ordered_columns. rewrite bind_Ok. split.
  - intros (en & Hen & (sorted & (c0 & rest & Hsw & ->)%sort_tail_Ok & [= <- <-])%bind_Ok).
    by exists en, c0, rest.
  - intros (en & c0 & rest & Hen & Hsw & -> & ->). exists en. split; [done|].
    apply bind_Ok. exists (c0 :: std_sort sorter rest). split; [|done].
    apply sort_tail_Ok. eauto.
Qed.

Lemma sorted_longer_or_equal sorter l : StronglySorted longer_or_equal (std_sort sorter l).
Proof. apply (std_sort_sorted sorter). Qed.

(** C4 (as amended): the column list handed to the distributor is a
    rearrangement of the enumerated columns; the (0,0) column, when present,
    is at position 0 (otherwise the first enumerated column stays there),
    and from position 1 on no column is longer than a column before it.
    The order among columns of equal length is not determined. *)
Theorem origin_first_rest_sorted in_cutoff sorter fft_box reduce_gvec cols n :
  ordered_columns in_cutoff sorter fft_box reduce_gvec = Ok (cols, n) →
  ∃ en, enumerate in_cutoff fft_box reduce_gvec = Ok en ∧
    cols ≡ₚ en_columns en ∧
    StronglySorted longer_or_equal (tail cols) ∧
    ((∃ c, c ∈ en_columns en ∧ is_origin c) → ∃ c0, head cols = Some c0 ∧ is_origin c0) ∧
    ((∀ c, c ∈ en_columns en → ¬ is_origin c) → head cols = head (en_columns en)).
Proof.
  intros (en & c0 & rest & Hen & Hsw & -> & ->)%ordered_columns_Ok.
  exists en. split; [done|]. split; [|split; [|split]].
  - rewrite <- (swap_origin_perm (en_columns en)), Hsw. by rewrite (std_sort_perm sorter).
  - apply sorted_longer_or_equal.
  - intros (c & Hc & Ho). destruct (swap_origin_head _ c Hc Ho) as (c1 & Hh & Ho1).
    rewrite Hsw in Hh. simpl in Hh. injection Hh as ->. by exists c1.
  - intros Hno. rewrite swap_origin_absent in Hsw by done. by rewrite Hsw.
Qed.

Lemma small_ordered_Ok :
  ordered_columns whole_box stable_sort (cubic_box 3) false =
  Ok (small_ordered insertion_sort, 27).
Proof. vm_compute. reflexivity. Qed.

Lemma origin_first_rest_sorted_witness :
  ordered_columns whole_box stable_sort (cubic_box 3) false =
    Ok (small_ordered insertion_sort, 27) ∧
  StronglySorted longer_or_equal (tail (small_ordered insertion_sort)).
Proof.
  split; [vm_compute; reflexivity|].
  destruct (origin_first_rest_sorted whole_box stable_sort (cubic_box 3) false
              (small_ordered insertion_sort) 27) as (en & _ & _ & Hs & _).
  - vm_compute. reflexivity.
  - exact Hs.
Defined.

(** C4 as stated fails even with a stable sorting routine: in the box
    [-1,1]^3 all nine columns have three entries, the enumerator finds
    (-1,-1) first and (0,0) fifth, and the exchange that brings (0,0) to the
    front leaves (-1,-1) behind (-1,0), (-1,1) and (0,-1). *)
Lemma discovery_order_not_kept :
  ¬ (∀ in_cutoff sorter fft_box reduce_gvec en cols n,
       enumerate in_cutoff fft_box reduce_gvec = Ok en →
       ordered_columns in_cutoff sorter fft_box reduce_gvec = Ok (cols, n) →
       ((∃ c, c ∈ en_columns en ∧ is_origin c) →
        ∃ c0, head cols = Some c0 ∧ is_origin c0) ∧
       StronglySorted longer_or_equal (tail cols) ∧
       keeps_discovery_order (en_columns en) cols).
Proof.
  intros H.
  destruct (H whole_box stable_sort (cubic_box 3) false small_enum
              (small_ordered insertion_sort) 27) as (_ & _ & Hkeep).
  - vm_compute. reflexivity.
  - vm_compute. reflexivity.
  - specialize (Hkeep 3%nat). vm_compute in Hkeep. discriminate Hkeep.
Qed.

(** Nor does the contract of [std::sort] keep the order in which the columns
    of equal length enter the sort. *)
Example ties_may_be_reordered :
  std_sort unstable_sort [z_column 0 1 [0]; z_column 1 0 [0]] =
  [z_column 1 0 [0]; z_column 0 1 [0]].
Proof. reflexivity. Qed.

(** ** The distributor *)

(** C2 (as amended): columns are processed in their order, and each column
    is assigned to the rank that holds the fewest vectors among the
    candidate ranks, that is the ranks that have not received a column in
    the current round (all of 0..R-1 when a round begins), with ties broken
    by lowest rank id; the vector count of that rank is then increased by
    the length of the column, its column count by one, and the rank leaves
    the candidates. *)
Theorem column_goes_to_least_loaded_candidate R cols c st' :
  distribute R (cols ++ [c]) = Ok st' →
  ∃ st r, distribute R cols = Ok st ∧
    r ∈ candidates R st ∧
    (∀ q, q ∈ candidates R st → gvec_counts st !!! r ≤ gvec_counts st !!! q) ∧
    (∀ q, q ∈ candidates R st → gvec_counts st !!! q = gvec_counts st !!! r → (r ≤ q)%nat) ∧
    gvec_counts st' = alter (λ n, n + zsize c) r (gvec_counts st) ∧
    zcol_counts st' = alter (λ n, n + 1) r (zcol_counts st) ∧
    zcols_local st' = alter (λ l, l ++ [c]) r (zcols_local st) ∧
    (∀ q, q ∈ ranks st' ↔ q ∈ candidates R st ∧ q ≠ r).
Proof.
  unfold distribute. rewrite foldM_snoc.
  intros (st & Hst & (pos & r & Hmin & ->)%assign_column_Ok)%bind_Ok.
  pose proof (distribute_wf R cols st Hst) as Hwf.
  apply min_element_first_least in Hmin as (Hpos & Hleast & Hfirst).
  exists st, r. split; [done|]. split; [by eapply list_elem_of_lookup_2|].
  split; [|split; [|split; [done|split; [done|split; [done|]]]]].
  - intros q [i Hi]%list_elem_of_lookup_1. eauto.
  - intros q [i Hi]%list_elem_of_lookup_1 Heq.
    destruct (decide (i < pos)%nat) as [Hlt|Hge].
    + specialize (Hfirst _ _ Hi Hlt). lia.
    + destruct (decide (i = pos)) as [->|Hne]; [rewrite Hpos in Hi; injection Hi; lia|].
      assert (r < q)%nat; [|lia].
      eapply sorted_lookup_lt; [by apply candidates_sorted|exact Hpos|exact Hi|lia].
  - intros q. cbn [ranks]. apply elem_of_delete_NoDup; [by apply candidates_NoDup|done].
Qed.

Lemma column_goes_to_least_loaded_candidate_witness :
  distribute 2 (flat_cell_first3 ++ [flat_cell_fourth]) =
    Ok (mk_distr [] [6; 2] [2; 2]
          [[z_column 0 0 [0; 1; 2; -2; -1]; z_column 0 1 [0]];
           [z_column 0 (-1) [0]; z_column (-1) 0 [0]]]) ∧
  ∃ st r, distribute 2 flat_cell_first3 = Ok st ∧ r ∈ candidates 2 st ∧
    [6; 2] = alter (λ n, n + zsize flat_cell_fourth) r (gvec_counts st).
Proof.
  split; [vm_compute; reflexivity|].
  destruct (column_goes_to_least_loaded_candidate 2 flat_cell_first3 flat_cell_fourth
              (mk_distr [] [6; 2] [2; 2]
                 [[z_column 0 0 [0; 1; 2; -2; -1]; z_column 0 1 [0]];
                  [z_column 0 (-1) [0]; z_column (-1) 0 [0]]]))
    as (st & r & H1 & H2 & _ & _ & H3 & _).
  - vm_compute. reflexivity.
  - exists st, r. exact (conj H1 (conj H2 H3)).
Defined.

(** C2 as stated fails: with two ranks holding 5 and 2 vectors, the fourth
    column of the flat cell goes to rank 0, the only rank that has not been
    served in the round, although rank 1 holds fewer vectors. *)
Lemma least_loaded_rank_not_chosen :
  ¬ (∀ R cols c st st',
       distribute R cols = Ok st → assign_column R st c = Ok st' →
       ∃ r, (r < R)%nat ∧
            (∀ q, (q < R)%nat → gvec_counts st !!! r ≤ gvec_counts st !!! q) ∧
            gvec_counts st' = alter (λ n, n + zsize c) r (gvec_counts st)).
Proof.
  intros H.
  destruct (H 2%nat flat_cell_first3 flat_cell_fourth
              (mk_distr [0%nat] [5; 2] [1; 2]
                 [[z_column 0 0 [0; 1; 2; -2; -1]];
                  [z_column 0 (-1) [0]; z_column (-1) 0 [0]]])
              (mk_distr [] [6; 2] [2; 2]
                 [[z_column 0 0 [0; 1; 2; -2; -1]; z_column 0 1 [0]];
                  [z_column 0 (-1) [0]; z_column (-1) 0 [0]]]))
    as (r & Hr & Hleast & Hcounts).
  - vm_compute. reflexivity.
  - vm_compute. reflexivity.
  - cbn [gvec_counts] in *. destruct r as [|[|r]]; [| |lia].
    + specialize (Hleast 1%nat ltac:(lia)). vm_compute in Hleast. by apply Hleast.
    + vm_compute in Hcounts. discriminate Hcounts.
Qed.

(** C10: after the distribution the column counts of any two ranks differ by
    at most one, and each rank holds either the quotient of the number of
    columns by the number of ranks rounded down, or that quotient rounded
    up. *)
Theorem column_counts_balanced R cols st :
  distribute R cols = Ok st →
  (∀ r r' a b, zcol_counts st !! r = Some a → zcol_counts st !! r' = Some b →
               -1 ≤ a - b ≤ 1) ∧
  (∀ r a, zcol_counts st !! r = Some a →
          a = size cols `div` Z.of_nat R ∨ a = ceil_div (size cols) (Z.of_nat R)).
Proof.
  intros Hst.
  pose proof (distribute_wf _ _ _ Hst) as Hwf.
  destruct (distribute_round _ _ _ Hst) as [k Hk].
  destruct (distribute_totals _ _ _ Hst) as [Htot _].
  assert (Forall (λ v, v = (k - 1) ∨ v = (k - 1) + 1) (zcol_counts st)) as Hall.
  { apply Forall_lookup. intros r a Hr.
    assert (r < R)%nat as HrR by (rewrite <- (wf_zcol _ _ Hwf); by eapply lookup_lt_Some).
    specialize (Hk r HrR). rewrite (list_lookup_total_correct _ _ _ Hr) in Hk.
    unfold waiting in Hk. case_bool_decide; lia. }
  split.
  - intros r r' a b Ha Hb. rewrite Forall_lookup in Hall.
    specialize (Hall _ _ Ha) as Ha'. specialize (Hall _ _ Hb) as Hb'. lia.
  - intros r a Ha.
    assert (zcol_counts st ≠ []) as Hne by (intros Hnil; by rewrite Hnil in Ha).
    pose proof (near_equal_shares _ _ _ Hne Htot Hall) as Hshares.
    rewrite Forall_lookup in Hshares. specialize (Hshares _ _ Ha).
    unfold size in Hshares at 2 4. by rewrite (wf_zcol _ _ Hwf) in Hshares.
Qed.

Lemma column_counts_balanced_witness :
  distribute 2 (flat_cell_first3 ++ [flat_cell_fourth; z_column 1 0 [0]]) =
    Ok (mk_distr [0%nat] [6; 3] [2; 3]
          [[z_column 0 0 [0; 1; 2; -2; -1]; z_column 0 1 [0]];
           [z_column 0 (-1) [0]; z_column (-1) 0 [0]; z_column 1 0 [0]]]) ∧
  (2 = 5 `div` 2 ∨ 2 = ceil_div 5 2) ∧ (3 = 5 `div` 2 ∨ 3 = ceil_div 5 2).
Proof.
  split; [vm_compute; reflexivity|].
  destruct (column_counts_balanced 2 (flat_cell_first3 ++ [flat_cell_fourth; z_column 1 0 [0]])
              (mk_distr [0%nat] [6; 3] [2; 3]
                 [[z_column 0 0 [0; 1; 2; -2; -1]; z_column 0 1 [0]];
                  [z_column 0 (-1) [0]; z_column (-1) 0 [0]; z_column 1 0 [0]]]))
    as [_ H].
  - vm_compute. reflexivity.
  - split; [exact (H 0%nat 2 eq_refl)|exact (H 1%nat 3 eq_refl)].
Defined.

(** ** What the stages after the index tables leave alone *)

Lemma col_content_set_offset o c : col_content (set_offset o c) = col_content c.
Proof. done. Qed.

Lemma col_content_zsize c d : col_content c = col_content d → zsize c = zsize d.
Proof. unfold col_content, zsize. by intros [= _ _ ->]. Qed.

Lemma foldM_preserves {A S : Type} (P : S → Prop) (f : S → A → result S) (l : list A) s s' :
  (∀ s a s', P s → f s a = Ok s' → P s') → P s → foldM f s l = Ok s' → P s'.
Proof.
  intros Hstep. apply (foldM_invariant (λ s _, P s) f). intros ? ? _ ?. apply Hstep.
Qed.

Lemma block_new_Ok n b :
  block_new n = Ok b ↔
  0 ≤ n ∧ b = mk_block (replicate (Z.to_nat n) 0) (replicate (Z.to_nat n) 0).
Proof.
  unfold block_new. case_bool_decide; split.
  - by intros [= <-].
  - by intros [_ ->].
  - done.
  - by intros [? _].
Qed.

Lemma build_fft_distr_frame g g' :
  build_fft_distr g = Ok g' → ∃ gd zd, g' = with_fft_distr gd zd g.
Proof.
  unfold build_fft_distr.
  intros (gd & _ & (zd & _ & (nrc & _ & (acc & _ & [= <-])%bind_Ok)%bind_Ok)%bind_Ok)%bind_Ok.
  eauto.
Qed.

Lemma offset_of_column_content g rank st i st' :
  offset_of_column g rank st i = Ok st' → col_content <$> st'.1 = col_content <$> st.1.
Proof.
  unfold offset_of_column.
  intros (o & _ & (c & (_ & Hc)%at_Ok & [= <-])%bind_Ok)%bind_Ok. simpl.
  rewrite list_fmap_insert, col_content_set_offset.
  apply list_insert_id. by rewrite list_lookup_fmap, Hc.
Qed.

Lemma offsets_of_rank_content g cols rank cols' :
  offsets_of_rank g cols rank = Ok cols' → col_content <$> cols' = col_content <$> cols.
Proof.
  unfold offsets_of_rank.
  intros (n & _ & (st & Hst & (total & _ & (u & _ & [= <-])%bind_Ok)%bind_Ok)%bind_Ok)%bind_Ok.
  revert Hst.
  apply (foldM_preserves (λ s, col_content <$> s.1 = col_content <$> cols)); [|done].
  intros s a s1 Hs Hstep. apply offset_of_column_content in Hstep. congruence.
Qed.

Lemma calc_offsets_frame g g' :
  calc_offsets g = Ok g' →
  ∃ cols, g' = with_columns cols g ∧ col_content <$> cols = col_content <$> z_columns_ g.
Proof.
  unfold calc_offsets. intros (cols & Hcols & [= <-])%bind_Ok.
  exists cols. split; [done|]. revert Hcols.
  apply (foldM_preserves (λ s, col_content <$> s = col_content <$> z_columns_ g)); [|done].
  intros s a s1 Hs Hstep. apply offsets_of_rank_content in Hstep. congruence.
Qed.

Lemma pile_gvec_frame g g' : pile_gvec g = Ok g' → ∃ slab, g' = with_slab slab g.
Proof.
  unfold pile_gvec.
  intros (nrc & _ & (slab & _ & (cnts & _ & (o & _ & (c & _ & (t & _ &
            (u & _ & [= <-])%bind_Ok)%bind_Ok)%bind_Ok)%bind_Ok)%bind_Ok)%bind_Ok)%bind_Ok.
  eauto.
Qed.

Lemma same_fine_grained_refl g : same_fine_grained g g.
Proof. by split. Qed.

Lemma same_fine_grained_trans g1 g2 g3 :
  same_fine_grained g1 g2 → same_fine_grained g2 g3 → same_fine_grained g1 g3.
Proof. intros [] []. split; congruence. Qed.

Lemma fft_stages_frame g g' :
  (g1 ← build_fft_distr g; g2 ← calc_offsets g1; pile_gvec g2) = Ok g' →
  same_fine_grained g g' ∧ fft_comm_ g' = fft_comm_ g.
Proof.
  intros (g1 & (gd & zd & ->)%build_fft_distr_frame &
          (g2 & (cols & -> & Hcols)%calc_offsets_frame &
           (slab & ->)%pile_gvec_frame)%bind_Ok)%bind_Ok.
  split; [|done]. by split.
Qed.

Lemma prepare_frame c g g' :
  prepare c g = Ok g' → same_fine_grained g g' ∧ fft_comm_ g' = c.
Proof.
  unfold prepare. intros [H1 H2]%fft_stages_frame. split; [|done].
  eapply same_fine_grained_trans; [|exact H1]. by split.
Qed.

(** C9: [prepare] with a new FFT communicator, also when called twice with
    communicators of different sizes, leaves the fine-grained distributions
    of G-vectors and of columns, the contents of the columns, the number of
    G-vectors, the table of full indices, the shells and their lengths as
    they were; what it writes are the communicator, the tables aggregated
    for it, the offsets of the columns and the slab table. *)
Theorem prepare_keeps_fine_grained c1 c2 g g1 g2 :
  prepare c1 g = Ok g1 → prepare c2 g1 = Ok g2 →
  same_fine_grained g g1 ∧ same_fine_grained g g2 ∧
  fft_comm_ g1 = c1 ∧ fft_comm_ g2 = c2.
Proof.
  intros [H1 Hc1]%prepare_frame [H2 Hc2]%prepare_frame.
  split; [done|]. split; [|done]. by eapply same_fine_grained_trans.
Qed.

Lemma flat_cell_gvec_Ok :
  Gvec_new flat_cell flat_cell_key stable_sort (cubic_box 5) 4 (mk_comm 1 0) false =
  Ok flat_cell_gvec.
Proof. vm_compute. reflexivity. Qed.

Lemma prepare_keeps_fine_grained_witness :
  prepare (mk_comm 2 1) flat_cell_gvec = Ok flat_cell_gvec2 ∧
  prepare (mk_comm 4 3) flat_cell_gvec2 = Ok flat_cell_gvec4 ∧
  gvec_distr_fft_ flat_cell_gvec2 ≠ gvec_distr_fft_ flat_cell_gvec4 ∧
  same_fine_grained flat_cell_gvec flat_cell_gvec4.
Proof.
  assert (prepare (mk_comm 2 1) flat_cell_gvec = Ok flat_cell_gvec2) as H1
    by (vm_compute; reflexivity).
  assert (prepare (mk_comm 4 3) flat_cell_gvec2 = Ok flat_cell_gvec4) as H2
    by (vm_compute; reflexivity).
  split; [exact H1|]. split; [exact H2|]. split; [vm_compute; discriminate|].
  exact (proj1 (proj2 (prepare_keeps_fine_grained _ _ _ _ _ H1 H2))).
Defined.

(** ** The division of the ranks between the ranks of the FFT communicator *)

Lemma ranks_per_fft_rank_wrong g :
  0 < comm_size (fft_comm_ g) → ¬ (comm_size (fft_comm_ g) | num_ranks_ g) →
  ranks_per_fft_rank g = Fail wrong_ranks.
Proof.
  intros HF Hnd. unfold ranks_per_fft_rank.
  rewrite bool_decide_eq_false_2 by lia.
  rewrite bool_decide_eq_true_2; [done|].
  intros Heq. apply Hnd. by eexists.
Qed.

Lemma ranks_per_fft_rank_exact g :
  0 < comm_size (fft_comm_ g) → (comm_size (fft_comm_ g) | num_ranks_ g) →
  ∃ nrc, ranks_per_fft_rank g = Ok nrc ∧ num_ranks_ g = nrc * comm_size (fft_comm_ g).
Proof.
  intros HF [z Hz]. unfold ranks_per_fft_rank.
  rewrite bool_decide_eq_false_2 by lia.
  rewrite Hz, Z.quot_mul by lia.
  rewrite bool_decide_eq_false_2 by (intros Hne; by apply Hne).
  eauto.
Qed.

Lemma build_fft_distr_wrong g :
  0 < comm_size (fft_comm_ g) → ¬ (comm_size (fft_comm_ g) | num_ranks_ g) →
  build_fft_distr g = Fail wrong_ranks.
Proof.
  intros HF Hnd. unfold build_fft_distr.
  destruct (block_new (comm_size (fft_comm_ g))) as [b|] eqn:Hb.
  - simpl. by rewrite ranks_per_fft_rank_wrong.
  - unfold block_new in Hb. by rewrite bool_decide_eq_true_2 in Hb by lia.
Qed.

Lemma foldM_total {A S : Type} (P : S → Prop) (Q : A → Prop) (f : S → A → result S)
    (l : list A) (s : S) :
  (∀ s a, Q a → P s → ∃ s', f s a = Ok s' ∧ P s') →
  Forall Q l → P s → ∃ s', foldM f s l = Ok s' ∧ P s'.
Proof.
  intros Hstep Hl. revert s. induction Hl as [|a l Ha Hl IH]; intros s HP; simpl; [eauto|].
  destruct (Hstep s a Ha HP) as (s1 & -> & HP1). simpl. by apply IH.
Qed.

Lemma build_fft_distr_total g :
  0 < comm_size (fft_comm_ g) → (comm_size (fft_comm_ g) | num_ranks_ g) →
  size (counts (gvec_distr_ g)) = num_ranks_ g →
  size (counts (zcol_distr_ g)) = num_ranks_ g →
  ∃ g', build_fft_distr g = Ok g'.
Proof.
  intros HF Hdiv Hg Hz. unfold build_fft_distr.
  destruct (ranks_per_fft_rank_exact g HF Hdiv) as (nrc & -> & HR).
  unfold block_new. rewrite bool_decide_eq_true_2 by lia. simpl.
  pose proof (size_nonneg (counts (gvec_distr_ g))) as HR0.
  assert (0 ≤ nrc) as Hnrc by nia.
  edestruct (foldM_total (λ _ : list Z * list Z, True)
               (λ rank, 0 ≤ rank < comm_size (fft_comm_ g))) as (acc & -> & _);
    [|apply Forall_seqZ; intros; lia|done|simpl; eauto].
  intros acc rank Hrank _.
  edestruct (foldM_total (λ _ : list Z * list Z, True) (λ i, 0 ≤ i < nrc))
    as (acc' & -> & _); [|apply Forall_seqZ; intros; lia|done|eauto].
  intros acc1 i Hi _. unfold add_fine_rank.
  destruct (at_in_range (counts (gvec_distr_ g)) (rank * nrc + i)) as [a ->]; [nia|].
  destruct (at_in_range (counts (zcol_distr_ g)) (rank * nrc + i)) as [b ->]; [nia|].
  simpl. eauto.
Qed.

Lemma Gvec_indexed_comm in_cutoff sorter fft_box num_ranks fft_comm reduce_gvec g :
  Gvec_indexed in_cutoff sorter fft_box num_ranks fft_comm reduce_gvec = Ok g →
  fft_comm_ g = fft_comm ∧ num_ranks_ g = num_ranks.
Proof.
  unfold Gvec_indexed. intros ([cols n] & _ & H)%bind_Ok.
  apply bind_Ok in H as (gd & _ & (zd & _ & (st & _ & H)%bind_Ok)%bind_Ok).
  destruct (build_index _ _ _ _) as [by_xy full]. by injection H as <-.
Qed.

Lemma find_shells_frame gk_key g g' :
  find_shells gk_key g = Ok g' → ∃ shell lens, g' = with_shells shell lens g.
Proof.
  unfold find_shells. intros (gsh & _ & H)%bind_Ok.
  destruct (number_shells _ _ _) as [shell lens]. injection H as <-. eauto.
Qed.

Lemma Gvec_classified_comm in_cutoff gk_key sorter fft_box num_ranks fft_comm reduce_gvec g :
  Gvec_classified in_cutoff gk_key sorter fft_box num_ranks fft_comm reduce_gvec = Ok g →
  fft_comm_ g = fft_comm ∧ num_ranks_ g = num_ranks.
Proof.
  unfold Gvec_classified.
  intros (g0 & [Hc HR]%Gvec_indexed_comm & (u & _ & (sh & lens & ->)%find_shells_frame)%bind_Ok)%bind_Ok.
  done.
Qed.

(** C8: when the size F of the FFT communicator does not divide the number
    R of fine-grained ranks, building the tables for the FFT communicator
    ends with the fatal error "wrong number of MPI ranks", both in
    [prepare] and in the constructor once it has reached that stage; when F
    divides R the tables are built, whatever the R counts of the
    fine-grained tables are. *)
Theorem fft_tables_need_exact_division
    in_cutoff gk_key sorter fft_box reduce_gvec (c : Communicator) (g : Gvec) :
  0 < comm_size c →
  (¬ (comm_size c | num_ranks_ g) →
     build_fft_distr (with_fft_comm c g) = Fail wrong_ranks ∧
     prepare c g = Fail wrong_ranks ∧
     (Gvec_classified in_cutoff gk_key sorter fft_box (num_ranks_ g) c reduce_gvec = Ok g →
      Gvec_new in_cutoff gk_key sorter fft_box (num_ranks_ g) c reduce_gvec = Fail wrong_ranks)) ∧
  ((comm_size c | num_ranks_ g) →
     size (counts (gvec_distr_ g)) = num_ranks_ g →
     size (counts (zcol_distr_ g)) = num_ranks_ g →
     ∃ g', build_fft_distr (with_fft_comm c g) = Ok g').
Proof.
  intros HF. split.
  - intros Hnd.
    assert (build_fft_distr (with_fft_comm c g) = Fail wrong_ranks) as Hb
      by (by apply build_fft_distr_wrong).
    split; [done|]. split.
    + unfold prepare. by rewrite Hb.
    + intros Hcl. unfold Gvec_new. rewrite Hcl. simpl.
      apply Gvec_classified_comm in Hcl as [Hc _].
      rewrite build_fft_distr_wrong; [done| |]; by rewrite Hc.
  - intros Hdiv Hg Hz. by apply build_fft_distr_total.
Qed.

Lemma fft_tables_need_exact_division_witness :
  0 < comm_size (mk_comm 3 0) ∧
  prepare (mk_comm 3 0) flat_cell_gvec = Fail wrong_ranks ∧
  ∃ g', build_fft_distr (with_fft_comm (mk_comm 2 0) flat_cell_gvec) = Ok g'.
Proof.
  assert (num_ranks_ flat_cell_gvec = 4) as HR by (vm_compute; reflexivity).
  split; [done|]. split.
  - refine (proj1 (proj2 (proj1 (fft_tables_need_exact_division flat_cell flat_cell_key
              stable_sort (cubic_box 5) false (mk_comm 3 0) flat_cell_gvec _) _))).
    + done.
    + rewrite HR. intros [z Hz]. cbn [comm_size] in Hz. lia.
  - refine (proj2 (fft_tables_need_exact_division flat_cell flat_cell_key
              stable_sort (cubic_box 5) false (mk_comm 2 0) flat_cell_gvec _) _ _ _).
    + done.
    + rewrite HR. by exists 2.
    + vm_compute. reflexivity.
    + vm_compute. reflexivity.
Defined.

(** ** The stages of the constructor *)

Lemma concat_alter_snoc {A : Type} (L : list (list A)) (r : nat) (a : A) :
  (r < length L)%nat → concat (alter (λ l, l ++ [a]) r L) ≡ₚ a :: concat L.
Proof.
  unfold alter. revert r. induction L as [|l L IH]; intros [|r] Hr; simpl in *; try lia.
  - rewrite <- app_assoc. simpl. symmetry. apply Permutation_middle.
  - rewrite IH by lia. symmetry. apply Permutation_middle.
Qed.

Lemma distribute_from_local_perm R cols : ∀ st st',
  distr_wf R st → foldM (assign_column R) st cols = Ok st' →
  concat (zcols_local st') ≡ₚ concat (zcols_local st) ++ cols.
Proof.
  induction cols as [|c cols IH]; intros st st' Hwf; cbn [foldM].
  - intros [= <-]. by rewrite app_nil_r.
  - intros (st1 & H1 & H2)%bind_Ok.
    pose proof (assign_column_wf _ _ _ _ Hwf H1) as Hwf1.
    rewrite (IH _ _ Hwf1 H2).
    apply assign_column_Ok in H1 as (pos & r & Hmin & ->). cbn [zcols_local].
    apply min_element_first_least in Hmin as (Hpos & _).
    assert (r < R)%nat as Hr
      by (apply (candidates_lt R st); [done|by eapply list_elem_of_lookup_2]).
    rewrite concat_alter_snoc by (by rewrite (wf_local _ _ Hwf)).
    simpl. apply Permutation_middle.
Qed.

Lemma concat_replicate_nil {A : Type} (n : nat) : concat (replicate n (@nil A)) = [].
Proof. induction n as [|n IH]; simpl; done. Qed.

Lemma distribute_local_perm R cols st :
  distribute R cols = Ok st → concat (zcols_local st) ≡ₚ cols.
Proof.
  intros H. apply distribute_from_local_perm in H; [|apply distr_init_wf].
  cbn [zcols_local distr_init] in H. by rewrite concat_replicate_nil in H.
Qed.

Lemma Gvec_indexed_Ok in_cutoff sorter fft_box num_ranks fft_comm reduce_gvec g :
  Gvec_indexed in_cutoff sorter fft_box num_ranks fft_comm reduce_gvec = Ok g →
  ∃ cols st,
    ordered_columns in_cutoff sorter fft_box reduce_gvec = Ok (cols, num_gvec_ g) ∧
    0 ≤ num_ranks ∧
    distribute (Z.to_nat num_ranks) cols = Ok st ∧
    z_columns_ g = concat (zcols_local st) ∧
    gvec_distr_ g = calc_block_offsets (mk_block (gvec_counts st) []) ∧
    zcol_distr_ g = calc_block_offsets (mk_block (zcol_counts st) []) ∧
    gvec_index_by_xy_ g = (build_index 0 0 (z_columns_ g) ∅).1 ∧
    gvec_full_index_ g = (build_index 0 0 (z_columns_ g) ∅).2 ∧
    num_ranks_ g = num_ranks ∧ fft_comm_ g = fft_comm ∧ reduce_gvec_ g = reduce_gvec.
Proof.
  unfold Gvec_indexed. intros ([cols n] & Hcols & H)%bind_Ok.
  apply bind_Ok in H as (gd & [HR ->]%block_new_Ok & H).
  apply bind_Ok in H as (zd & [_ ->]%block_new_Ok & H).
  apply bind_Ok in H as (st & Hst & H).
  destruct (build_index _ _ _ _) as [by_xy full] eqn:Hidx. injection H as <-.
  exists cols, st. cbn. rewrite Hidx. done.
Qed.

Lemma check_first_Ok g u : check_first g = Ok u ↔ gvec g 0 = Ok (0, 0, 0).
Proof.
  unfold check_first. destruct (gvec g 0) as [[[x y] z]|e]; simpl; [|done].
  case_bool_decide as Hnz; split; try done.
  - intros [= -> -> ->]. simpl in Hnz. lia.
  - intros _. simpl in Hnz. f_equal. f_equal; [f_equal|]; lia.
  - by destruct u.
Qed.

Lemma check_first_Fail g v :
  gvec g 0 = Ok v → v ≠ (0, 0, 0) → check_first g = Fail first_not_zero.
Proof.
  intros Hv Hne. unfold check_first. rewrite Hv. simpl.
  rewrite bool_decide_eq_true_2; [done|].
  destruct v as [[x y] z]. simpl.
  destruct (decide (x = 0)) as [->|]; [|by left].
  destruct (decide (y = 0)) as [->|]; [|by right; left].
  destruct (decide (z = 0)) as [->|]; [done|by right; right].
Qed.

Lemma at_fmap {A B : Type} (f : A → B) (v : list A) (i : Z) :
  at_ (f <$> v) i = (a ← at_ v i; Ok (f a)).
Proof.
  unfold at_. case_bool_decide; [|done]. rewrite list_lookup_fmap.
  by destruct (v !! Z.to_nat i).
Qed.

(** The G-vector of a packed address depends on the contents of the
    columns only. *)
Lemma at_content cols cols' (i : Z) :
  col_content <$> cols = col_content <$> cols' →
  match at_ cols i, at_ cols' i with
  | Ok c, Ok c' => col_content c = col_content c'
  | Fail e, Fail e' => e = e'
  | _, _ => False
  end.
Proof.
  intros Hc.
  pose proof (at_fmap col_content cols i) as H1.
  pose proof (at_fmap col_content cols' i) as H2.
  rewrite Hc, H2 in H1.
  destruct (at_ cols i), (at_ cols' i); simpl in H1; congruence.
Qed.

Lemma gvec_by_full_index_content cols cols' idx :
  col_content <$> cols = col_content <$> cols' →
  gvec_by_full_index cols idx = gvec_by_full_index cols' idx.
Proof.
  intros Hc. unfold gvec_by_full_index.
  assert (size cols = size cols') as ->
    by (unfold size; by rewrite <- (length_fmap col_content cols), Hc, length_fmap).
  generalize (unpack idx).1 as i, (unpack idx).2 as j. intros i j.
  destruct (assertion _); simpl; [|done].
  pose proof (at_content cols cols' i Hc) as H.
  destruct (at_ cols i) as [c|e], (at_ cols' i) as [c'|e']; simpl; try done; [|by subst].
  destruct c, c'. unfold col_content, zsize in *. simpl in *.
  by injection H as -> -> ->.
Qed.

Lemma gvec_same_fine_grained g g' ig :
  same_fine_grained g g' → gvec g' ig = gvec g ig.
Proof.
  intros Hs. unfold gvec. rewrite (same_full_index _ _ Hs).
  destruct (at_ _ _); simpl; [|done].
  apply gvec_by_full_index_content, (same_columns _ _ Hs).
Qed.

Lemma with_shells_same shell lens g ig : gvec (with_shells shell lens g) ig = gvec g ig.
Proof. done. Qed.

Lemma Gvec_new_Ok in_cutoff gk_key sorter fft_box num_ranks fft_comm reduce_gvec g :
  Gvec_new in_cutoff gk_key sorter fft_box num_ranks fft_comm reduce_gvec = Ok g →
  ∃ g0 g1,
    Gvec_indexed in_cutoff sorter fft_box num_ranks fft_comm reduce_gvec = Ok g0 ∧
    gvec g0 0 = Ok (0, 0, 0) ∧
    find_shells gk_key g0 = Ok g1 ∧
    same_fine_grained g1 g.
Proof.
  unfold Gvec_new, Gvec_classified.
  intros (g1 & (g0 & H0 & (u & Hu%check_first_Ok & H1)%bind_Ok)%bind_Ok &
          [Hs _]%fft_stages_frame)%bind_Ok.
  by exists g0, g1.
Qed.

(** C1: the G-vector that a constructed set returns for the index 0 is
    (0, 0, 0); and when the index tables give any other vector for the index
    0, the constructor ends with the fatal error "first G-vector is not
    zero" and returns no structure. *)
Theorem first_gvec_is_zero in_cutoff gk_key sorter fft_box num_ranks fft_comm reduce_gvec g0 :
  Gvec_indexed in_cutoff sorter fft_box num_ranks fft_comm reduce_gvec = Ok g0 →
  (∀ g, Gvec_new in_cutoff gk_key sorter fft_box num_ranks fft_comm reduce_gvec = Ok g →
        gvec g 0 = Ok (0, 0, 0)) ∧
  (∀ v, gvec g0 0 = Ok v → v ≠ (0, 0, 0) →
        Gvec_new in_cutoff gk_key sorter fft_box num_ranks fft_comm reduce_gvec =
          Fail first_not_zero).
Proof.
  intros H0. split.
  - intros g (g0' & g1 & _ & Hz & (sh & lens & ->)%find_shells_frame & Hs)%Gvec_new_Ok.
    by rewrite (gvec_same_fine_grained _ _ _ Hs), with_shells_same.
  - intros v Hv Hne. unfold Gvec_new, Gvec_classified. rewrite H0. simpl.
    by rewrite (check_first_Fail _ _ Hv Hne).
Qed.

Lemma first_gvec_is_zero_witness :
  Gvec_indexed off_centre stable_sort (cubic_box 5) 1 (mk_comm 1 0) false =
    Ok (built (Gvec_indexed off_centre stable_sort (cubic_box 5) 1 (mk_comm 1 0) false)) ∧
  Gvec_new off_centre flat_cell_key stable_sort (cubic_box 5) 1 (mk_comm 1 0) false =
    Fail first_not_zero.
Proof.
  assert (Gvec_indexed off_centre stable_sort (cubic_box 5) 1 (mk_comm 1 0) false =
    Ok (built (Gvec_indexed off_centre stable_sort (cubic_box 5) 1 (mk_comm 1 0) false)))
    as H0 by (vm_compute; reflexivity).
  split; [exact H0|].
  refine (proj2 (first_gvec_is_zero off_centre flat_cell_key stable_sort (cubic_box 5) 1
                   (mk_comm 1 0) false _ H0) (1, 0, 0) _ _).
  - vm_compute. reflexivity.
  - discriminate.
Defined.

Example flat_cell_first_gvec : gvec flat_cell_gvec 0 = Ok (0, 0, 0).
Proof. vm_compute. reflexivity. Qed.

(** ** The load of a rank *)

Lemma sumZ_Permutation (l k : list Z) : l ≡ₚ k → sumZ l = sumZ k.
Proof.
  induction 1 as [|x l k Hp IH|x y l|l k j H1 IH1 H2 IH2];
    rewrite ?sumZ_cons; lia.
Qed.

Lemma max_zsize_content cols cols' :
  col_content <$> cols = col_content <$> cols' → max_zsize cols = max_zsize cols'.
Proof.
  revert cols'. induction cols as [|c cols IH]; intros [|c' cols'] H; try done.
  rewrite !fmap_cons in H. apply (inj2 cons) in H as [Hc H]. simpl.
  by rewrite (col_content_zsize _ _ Hc), (IH _ H).
Qed.

Lemma ordered_columns_num_gvec in_cutoff sorter fft_box reduce_gvec cols n :
  ordered_columns in_cutoff sorter fft_box reduce_gvec = Ok (cols, n) →
  n = sumZ (zsize <$> cols) ∧ StronglySorted longer_or_equal (tail cols).
Proof.
  intros (en & c0 & rest & Hen & Hsw & -> & ->)%ordered_columns_Ok. split.
  - rewrite (inv_num_gvec _ _ _ _ (enumerate_inv _ _ _ _ Hen)).
    apply sumZ_Permutation, fmap_Permutation.
    rewrite <- (swap_origin_perm (en_columns en)), Hsw. by rewrite (std_sort_perm sorter).
  - apply sorted_longer_or_equal.
Qed.

(** C5: after the distribution over R ranks no rank holds more G-vectors
    than the total number of G-vectors divided by R, rounded up, plus the
    length of the longest column. *)
Theorem rank_load_bound in_cutoff gk_key sorter fft_box num_ranks fft_comm reduce_gvec g r n :
  Gvec_new in_cutoff gk_key sorter fft_box num_ranks fft_comm reduce_gvec = Ok g →
  counts (gvec_distr_ g) !! r = Some n →
  n ≤ ceil_div (num_gvec_ g) num_ranks + max_zsize (z_columns_ g).
Proof.
  intros (g0 & g1 & H0 & _ & (sh & lens & ->)%find_shells_frame & Hs)%Gvec_new_Ok Hn.
  destruct (Gvec_indexed_Ok _ _ _ _ _ _ _ H0)
    as (cols & st & Hord & HR & Hst & Hcols & Hgd & _).
  rewrite (same_gvec_distr _ _ Hs) in Hn. cbn [gvec_distr_ with_shells] in Hn.
  rewrite Hgd in Hn. cbn [counts calc_block_offsets] in Hn.
  rewrite (same_num_gvec _ _ Hs). cbn [num_gvec_ with_shells].
  rewrite (max_zsize_content _ _ (same_columns _ _ Hs)). cbn [z_columns_ with_shells].
  destruct (ordered_columns_num_gvec _ _ _ _ _ _ Hord) as [Hnum Hsorted].
  destruct (distribute_totals _ _ _ Hst) as [_ Htot].
  pose proof (distribute_wf _ _ _ Hst) as Hwf.
  pose proof (distribute_local_perm _ _ _ Hst) as Hperm.
  set (m := max_zsize (z_columns_ g0)).
  assert (Forall (λ c, zsize c ≤ m) cols) as Hm.
  { rewrite <- Hperm, <- Hcols. apply max_zsize_bound. }
  pose proof (distribute_loads _ m _ _ (max_zsize_nonneg _) Hsorted Hm Hst) as Hloads.
  pose proof (share_bound (gvec_counts st) m n) as Hshare.
  rewrite Htot, <- Hnum in Hshare. unfold size in Hshare.
  rewrite (wf_gvec _ _ Hwf), Z2Nat.id in Hshare by done.
  apply Hshare; [|by eapply list_elem_of_lookup_2].
  intros u [q Hq]%list_elem_of_lookup_1.
  assert (r < Z.to_nat num_ranks)%nat as Hr
    by (rewrite <- (wf_gvec _ _ Hwf); by eapply lookup_lt_Some).
  assert (q < Z.to_nat num_ranks)%nat as Hq'
    by (rewrite <- (wf_gvec _ _ Hwf); by eapply lookup_lt_Some).
  specialize (Hloads r q Hr Hq').
  by rewrite (list_lookup_total_correct _ _ _ Hn), (list_lookup_total_correct _ _ _ Hq)
    in Hloads.
Qed.

Lemma rank_load_bound_witness :
  Gvec_new flat_cell flat_cell_key stable_sort (cubic_box 5) 4 (mk_comm 1 0) false =
    Ok flat_cell_gvec ∧
  counts (gvec_distr_ flat_cell_gvec) = [5; 2; 1; 1] ∧
  5 ≤ ceil_div (num_gvec_ flat_cell_gvec) 4 + max_zsize (z_columns_ flat_cell_gvec).
Proof.
  split; [vm_compute; reflexivity|]. split; [vm_compute; reflexivity|].
  apply (rank_load_bound flat_cell flat_cell_key stable_sort (cubic_box 5) 4 (mk_comm 1 0)
           false flat_cell_gvec 0%nat 5).
  - vm_compute. reflexivity.
  - vm_compute. reflexivity.
Defined.

(** ** Packed addresses *)

Lemma pack_in_range (i j : Z) :
  0 ≤ i < 2 ^ 19 → 0 ≤ j < 4096 → pack i j = i * 4096 + j.
Proof.
  intros Hi Hj. unfold pack, to_int. rewrite Z.shiftl_mul_pow2 by lia.
  change (2 ^ 12) with 4096. rewrite Z.mod_small; lia.
Qed.

Lemma unpack_address (i j : Z) : 0 ≤ j < 4096 → unpack (i * 4096 + j) = (i, j).
Proof.
  intros Hj. unfold unpack. rewrite Z.shiftr_div_pow2 by lia.
  change 4095 with (Z.ones 12). rewrite Z.land_ones by lia.
  change (2 ^ 12) with 4096. f_equal.
  - symmetry. apply Z.div_unique with j; lia.
  - symmetry. apply Z.mod_unique with i; lia.
Qed.

Lemma column_start_0 cols : column_start cols 0 = 0.
Proof. done. Qed.

Lemma column_start_S c cols k :
  column_start (c :: cols) (S k) = zsize c + column_start cols k.
Proof. done. Qed.

Lemma column_start_nonneg cols k : 0 ≤ column_start cols k.
Proof.
  unfold column_start. revert k. induction cols as [|c cols IH]; intros [|k]; try done.
  rewrite firstn_cons, fmap_cons, sumZ_cons. pose proof (zsize_nonneg c).
  specialize (IH k). lia.
Qed.

Lemma build_index_cons i ig c cols by_xy :
  build_index i ig (c :: cols) by_xy =
  ((build_index (S i) (ig + zsize c) cols
      (<[(1, col_x c, col_y c) := zsize c]> (<[(0, col_x c, col_y c) := ig]> by_xy))).1,
   ((λ j, pack (Z.of_nat i) j) <$> seqZ 0 (zsize c)) ++
   (build_index (S i) (ig + zsize c) cols
      (<[(1, col_x c, col_y c) := zsize c]> (<[(0, col_x c, col_y c) := ig]> by_xy))).2).
Proof. cbn [build_index]. by destruct (build_index _ _ _ _). Qed.

Lemma build_index_length cols : ∀ i ig by_xy,
  size (build_index i ig cols by_xy).2 = sumZ (zsize <$> cols).
Proof.
  induction cols as [|c cols IH]; intros i ig by_xy; [done|].
  rewrite build_index_cons. cbn [snd]. rewrite size_app, IH, fmap_cons, sumZ_cons.
  unfold size at 1. rewrite length_fmap, length_seqZ.
  pose proof (zsize_nonneg c). lia.
Qed.

(** The table of full indices holds, at the index [n], the packed address
    of the column and the position that [n] counts up to. *)
Lemma build_index_full cols : ∀ i ig by_xy n p,
  (build_index i ig cols by_xy).2 !! n = Some p ↔
  ∃ k c j, cols !! k = Some c ∧ 0 ≤ j < zsize c ∧
           Z.of_nat n = column_start cols k + j ∧ p = pack (Z.of_nat (i + k)) j.
Proof.
  induction cols as [|c cols IH]; intros i ig by_xy n p.
  - simpl. split; [done|]. by intros (k & c & j & ? & _).
  - rewrite build_index_cons. cbn [snd].
    pose proof (zsize_nonneg c) as Hc0.
    assert (length ((λ j, pack (Z.of_nat i) j) <$> seqZ 0 (zsize c)) = Z.to_nat (zsize c))
      as Hlen by (by rewrite length_fmap, length_seqZ).
    destruct (decide (Z.of_nat n < zsize c)) as [Hn|Hn].
    + rewrite lookup_app_l by lia. rewrite list_lookup_fmap, lookup_seqZ_lt by done.
      simpl. split.
      * intros [= <-]. exists 0%nat, c, (Z.of_nat n). rewrite Nat.add_0_r.
        rewrite column_start_0. split; [done|]. split; [lia|]. split; [lia|done].
      * intros ([|k] & c' & j & Hk & Hj & Hnj & ->).
        -- injection Hk as <-. rewrite column_start_0 in Hnj. rewrite Nat.add_0_r.
           do 2 f_equal. lia.
        -- rewrite column_start_S in Hnj. pose proof (column_start_nonneg cols k). lia.
    + rewrite lookup_app_r by lia. rewrite Hlen, IH. split.
      * intros (k & c' & j & Hk & Hj & Hnj & ->). exists (S k), c', j.
        rewrite column_start_S. split; [done|]. split; [done|]. split; [lia|].
        do 2 f_equal. lia.
      * intros ([|k] & c' & j & Hk & Hj & Hnj & ->).
        -- injection Hk as <-. rewrite column_start_0 in Hnj. lia.
        -- exists k, c', j. rewrite column_start_S in Hnj. simpl in Hk.
           split; [done|]. split; [done|]. split; [lia|]. do 2 f_equal. lia.
Qed.

(** Columns with other (x, y) pairs leave an entry of the table by (x, y)
    alone. *)
Lemma build_index_other cols : ∀ i ig by_xy t x y,
  Forall (λ c, col_xy c ≠ (x, y)) cols →
  (build_index i ig cols by_xy).1 !! (t, x, y) = by_xy !! (t, x, y).
Proof.
  induction cols as [|c cols IH]; intros i ig by_xy t x y Hne; [done|].
  apply Forall_cons in Hne as [Hc Hne]. rewrite build_index_cons. cbn [fst].
  rewrite IH by done. unfold col_xy in Hc.
  rewrite !lookup_insert_ne; [done|congruence|congruence].
Qed.

(** The table by (x, y) gives the index of the first G-vector of a column
    and the length of the column. *)
Lemma build_index_by_xy cols : ∀ i ig by_xy k c,
  NoDup (col_xy <$> cols) → cols !! k = Some c →
  (build_index i ig cols by_xy).1 !! (0, col_x c, col_y c) = Some (ig + column_start cols k) ∧
  (build_index i ig cols by_xy).1 !! (1, col_x c, col_y c) = Some (zsize c).
Proof.
  induction cols as [|c0 cols IH]; intros i ig by_xy k c Hnd Hk; [done|].
  rewrite fmap_cons in Hnd. apply NoDup_cons in Hnd as [Hc0 Hnd].
  rewrite build_index_cons. cbn [fst]. destruct k as [|k].
  - injection Hk as <-. rewrite column_start_0.
    assert (Forall (λ c, col_xy c ≠ (col_x c0, col_y c0)) cols) as Hne.
    { apply Forall_forall. intros d Hd Heq. apply Hc0.
      change (col_xy c0) with (col_x c0, col_y c0). rewrite <- Heq.
      by apply list_elem_of_fmap_2. }
    rewrite !build_index_other by done.
    rewrite lookup_insert_ne by congruence. rewrite !lookup_insert_eq.
    split; [f_equal; lia|done].
  - simpl in Hk. rewrite column_start_S.
    destruct (IH (S i) (ig + zsize c0)
                (<[(1, col_x c0, col_y c0) := zsize c0]>
                   (<[(0, col_x c0, col_y c0) := ig]> by_xy)) k c Hnd Hk) as [-> ->].
    split; [f_equal; lia|done].
Qed.

Section round_trip.
Variable cols : list z_column_descriptor.
Hypothesis distinct : NoDup (col_xy <$> cols).
Hypothesis short : Forall (λ c, zsize c ≤ 4096) cols.
Hypothesis few : size cols ≤ 2 ^ 19.

Lemma pack_column k c j :
  cols !! k = Some c → 0 ≤ j < zsize c →
  pack (Z.of_nat k) j = Z.of_nat k * 4096 + j ∧ unpack (pack (Z.of_nat k) j) = (Z.of_nat k, j).
Proof using short few.
  intros Hk Hj.
  assert (zsize c ≤ 4096) by (rewrite Forall_forall in short; by eapply short, list_elem_of_lookup_2).
  apply lookup_lt_Some in Hk. unfold size in few.
  rewrite pack_in_range by lia. split; [done|]. apply unpack_address. lia.
Qed.

Lemma address_of_index ig :
  0 ≤ ig < sumZ (zsize <$> cols) →
  ∃ p i j c,
    at_ (build_index 0 0 cols ∅).2 ig = Ok p ∧
    unpack p = (i, j) ∧
    at_ cols i = Ok c ∧ 0 ≤ j < zsize c ∧
    pack i j = p ∧
    (build_index 0 0 cols ∅).1 !! (0, col_x c, col_y c) = Some (ig - j) ∧
    (∀ i' j' c', at_ cols i' = Ok c' → 0 ≤ j' < zsize c' → pack i' j' = p →
                 i' = i ∧ j' = j).
Proof using distinct short few.
  intros Hig.
  destruct (lookup_lt_is_Some_2 (build_index 0 0 cols ∅).2 (Z.to_nat ig)) as [p Hp].
  { pose proof (build_index_length cols 0 0 ∅) as Hlen. unfold size in Hlen. lia. }
  pose proof Hp as (k & c & j & Hk & Hj & Hn & ->)%build_index_full.
  rewrite Nat.add_0_l in *.
  destruct (pack_column k c j Hk Hj) as [Hpk Hun].
  exists (pack (Z.of_nat k) j), (Z.of_nat k), j, c.
  split; [apply at_Ok; split; [lia|done]|]. split; [done|].
  split; [apply at_Ok; split; [lia|by rewrite Nat2Z.id]|]. split; [done|]. split; [done|].
  split.
  - destruct (build_index_by_xy cols 0 0 ∅ k c distinct Hk) as [-> _]. f_equal. lia.
  - intros i' j' c' [Hi' Hc']%at_Ok Hj' Heq.
    destruct (pack_column (Z.to_nat i') c' j') as [Hpk' _]; [done|done|].
    rewrite Z2Nat.id in Hpk' by done.
    assert (zsize c' ≤ 4096) by (rewrite Forall_forall in short; by eapply short, list_elem_of_lookup_2).
    assert (zsize c ≤ 4096) by (rewrite Forall_forall in short; by eapply short, list_elem_of_lookup_2).
    lia.
Qed.
End round_trip.

(** ** The index tables of a constructed set *)

Lemma column_start_next cols : ∀ k k' c,
  cols !! k = Some c → (k < k')%nat →
  column_start cols k + zsize c ≤ column_start cols k'.
Proof.
  induction cols as [|c0 cols IH]; intros k k' c Hk Hlt; [done|].
  destruct k' as [|k']; [lia|]. rewrite column_start_S. destruct k as [|k].
  - injection Hk as <-. rewrite column_start_0.
    pose proof (column_start_nonneg cols k'). lia.
  - simpl in Hk. rewrite column_start_S.
    specialize (IH k k' c Hk ltac:(lia)). lia.
Qed.

Lemma column_start_all cols k :
  (length cols ≤ k)%nat → column_start cols k = sumZ (zsize <$> cols).
Proof. intros Hk. unfold column_start. by rewrite take_ge. Qed.

Lemma column_start_bound cols k c :
  cols !! k = Some c → column_start cols k + zsize c ≤ sumZ (zsize <$> cols).
Proof.
  intros Hk. rewrite <- (column_start_all cols (S (length cols))) by lia.
  apply column_start_next; [done|]. apply lookup_lt_Some in Hk. lia.
Qed.

Lemma foldM_each {A S : Type} (f : S → A → result S) (l : list A) (s s' : S) (a : A) :
  foldM f s l = Ok s' → a ∈ l → ∃ s1 s2, f s1 a = Ok s2.
Proof.
  revert s. induction l as [|b l IH]; intros s Hrun Ha; [by apply elem_of_nil in Ha|].
  simpl in Hrun. apply bind_Ok in Hrun as (s1 & H1 & H2).
  apply elem_of_cons in Ha as [->|Ha]; [eauto|]. by eapply IH.
Qed.

(** The shells are found by decoding the full index of every G-vector. *)
Lemma find_shells_decodes gk_key g g' ig :
  find_shells gk_key g = Ok g' → 0 ≤ ig < num_gvec_ g → ∃ gk, gvec g ig = Ok gk.
Proof.
  unfold find_shells. intros (gsh & Hgsh & _)%bind_Ok Hig.
  destruct (foldM_each _ _ _ _ ig Hgsh) as (s1 & s2 & Hbody).
  { apply elem_of_seqZ. lia. }
  unfold shell_body in Hbody. apply bind_Ok in Hbody as (gk & Hgk & _). eauto.
Qed.

Lemma Gvec_indexed_inv in_cutoff sorter fft_box num_ranks fft_comm reduce_gvec g :
  Gvec_indexed in_cutoff sorter fft_box num_ranks fft_comm reduce_gvec = Ok g → indexed_inv g.
Proof.
  intros (cols & st & Hord & HR & Hst & Hcols & _ & _ & Hxy & Hfull & _)%Gvec_indexed_Ok.
  pose proof (distribute_local_perm _ _ _ Hst) as Hperm. rewrite <- Hcols in Hperm.
  destruct (ordered_columns_num_gvec _ _ _ _ _ _ Hord) as [Hnum _].
  apply ordered_columns_Ok in Hord as (en & c0 & rest & Hen & Hsw & Hc & _).
  assert (z_columns_ g ≡ₚ en_columns en) as Hall.
  { rewrite Hperm, Hc, <- (swap_origin_perm (en_columns en)), Hsw.
    by rewrite (std_sort_perm sorter). }
  destruct (enumerate_inv _ _ _ _ Hen) as [Hsc _ _ Hnd].
  split; [| | |done|done].
  - by rewrite Hall.
  - rewrite Hall. eapply Forall_impl; [exact Hsc|]. intros c (_ & Hne & _).
    unfold zsize, size. destruct (col_z c); [done|simpl; lia].
  - rewrite Hnum. apply sumZ_Permutation, fmap_Permutation. by rewrite Hperm.
Qed.

(** The packed address of the first G-vector of column 2^19 is negative. *)
Example pack_column_overflow : unpack (pack (2 ^ 19) 0) = (- 2 ^ 19, 0).
Proof. vm_compute. reflexivity. Qed.

(** A set whose shells have been found has at most 2^19 columns: the
    address of a G-vector of the column 2^19 decodes to the column -2^19,
    and the shells cannot be found. *)
Lemma classified_few_columns gk_key g g' :
  indexed_inv g → find_shells gk_key g = Ok g' → size (z_columns_ g) ≤ 2 ^ 19.
Proof.
  intros [_ Hne Hnum _ Hfull] Hsh.
  destruct (decide (size (z_columns_ g) ≤ 2 ^ 19)) as [|Hmany]; [done|]. exfalso.
  assert (∃ K : nat, Z.of_nat K = 2 ^ 19) as [K HK] by (exists (Z.to_nat (2 ^ 19)); lia).
  destruct (lookup_lt_is_Some_2 (z_columns_ g) K) as [c Hc].
  { unfold size in Hmany. lia. }
  assert (1 ≤ zsize c) as Hc1
    by (rewrite Forall_forall in Hne; by eapply Hne, list_elem_of_lookup_2).
  pose proof (column_start_bound _ _ _ Hc) as Hb.
  pose proof (column_start_nonneg (z_columns_ g) K) as Hs0.
  set (ig := column_start (z_columns_ g) K) in *.
  destruct (find_shells_decodes gk_key g g' ig Hsh) as [gk Hgk]; [lia|].
  unfold gvec in Hgk. apply bind_Ok in Hgk as (p & [_ Hp]%at_Ok & Hdec).
  rewrite Hfull in Hp. apply build_index_full in Hp as (k & c' & j & Hk & Hj & Hn & ->).
  assert (k = K ∧ j = 0) as [-> ->].
  { rewrite Z2Nat.id in Hn by lia.
    destruct (Nat.lt_trichotomy k K) as [Hlt|[->|Hgt]].
    - pose proof (column_start_next _ _ _ _ Hk Hlt) as Hnext. fold ig in Hnext. lia.
    - split; [done|]. fold ig in Hn. lia.
    - pose proof (column_start_next _ _ _ _ Hc Hgt) as Hnext. fold ig in Hnext. lia. }
  rewrite Nat.add_0_l, HK in Hdec.
  unfold gvec_by_full_index in Hdec. rewrite pack_column_overflow in Hdec.
  cbn [fst snd] in Hdec.
  apply bind_Ok in Hdec as (u & _ & Hdec).
  apply bind_Ok in Hdec as (d & [Hneg _]%at_Ok & _). lia.
Qed.

Lemma zsize_content_fmap (cols cols' : list z_column_descriptor) :
  col_content <$> cols = col_content <$> cols' → zsize <$> cols = zsize <$> cols'.
Proof.
  intros Hc.
  change zsize with ((λ t : Z * Z * list Z, size t.2) ∘ col_content).
  by rewrite !list_fmap_compose, Hc.
Qed.

Lemma at_content_Ok (cols cols' : list z_column_descriptor) (i : Z) c :
  col_content <$> cols = col_content <$> cols' → at_ cols i = Ok c →
  ∃ c', at_ cols' i = Ok c' ∧ col_content c' = col_content c.
Proof.
  intros Hc Hi. pose proof (at_content cols cols' i Hc) as H. rewrite Hi in H.
  destruct (at_ cols' i) as [c'|]; [|done]. eauto.
Qed.

(** C7: in a constructed set whose columns have at most 4096 z-entries,
    every global index ig below the number of G-vectors has a packed address
    in the table of full indices; its two halves are a column index i and a
    position j inside that column, packing the pair gives the address
    again, no other pair of a column and a position in it has that address,
    and the index of the first G-vector of the column plus j is ig. *)
Theorem full_index_round_trip
    in_cutoff gk_key sorter fft_box num_ranks fft_comm reduce_gvec g ig :
  Gvec_new in_cutoff gk_key sorter fft_box num_ranks fft_comm reduce_gvec = Ok g →
  Forall (λ c, zsize c ≤ 4096) (z_columns_ g) →
  0 ≤ ig < num_gvec_ g →
  ∃ p i j c,
    at_ (gvec_full_index_ g) ig = Ok p ∧
    unpack p = (i, j) ∧
    at_ (z_columns_ g) i = Ok c ∧ 0 ≤ j < zsize c ∧
    pack i j = p ∧
    gvec_index_by_xy_ g !! (0, col_x c, col_y c) = Some (ig - j) ∧
    (∀ i' j' c', at_ (z_columns_ g) i' = Ok c' → 0 ≤ j' < zsize c' → pack i' j' = p →
                 i' = i ∧ j' = j).
Proof.
  intros (g0 & g1 & H0 & _ & Hsh & Hs)%Gvec_new_Ok Hshort Hig.
  pose proof (Gvec_indexed_inv _ _ _ _ _ _ _ H0) as Hinv.
  pose proof (classified_few_columns _ _ _ Hinv Hsh) as Hfew.
  destruct Hinv as [Hnd _ Hnum Hxy Hfull].
  apply find_shells_frame in Hsh as (sh & lens & ->).
  destruct Hs as [_ _ Hnum' Hfull' _ _ _ Hxy' Hcols _ _].
  cbn [with_shells num_gvec_ gvec_full_index_ gvec_index_by_xy_ z_columns_] in *.
  assert (Forall (λ c, zsize c ≤ 4096) (z_columns_ g0)) as Hshort0.
  { pose proof (zsize_content_fmap _ _ Hcols) as Hz.
    apply (Forall_fmap zsize (λ n, n ≤ 4096)). rewrite <- Hz.
    by apply (Forall_fmap zsize (λ n, n ≤ 4096)). }
  destruct (address_of_index (z_columns_ g0) Hnd Hshort0 Hfew ig)
    as (p & i & j & c0 & Hp & Hun & Hi & Hj & Hpack & Hstart & Huniq); [lia|].
  destruct (at_content_Ok _ _ i c0 (eq_sym Hcols) Hi) as (c & Hc & Hcc).
  unfold col_content in Hcc. injection Hcc as Hx Hy Hz.
  exists p, i, j, c. rewrite Hfull', Hfull, Hxy', Hxy, Hx, Hy.
  split; [done|]. split; [done|]. split; [done|].
  split; [unfold zsize in *; by rewrite Hz|]. split; [done|]. split; [done|].
  intros i' j' c' Hi' Hj' Hp'.
  destruct (at_content_Ok _ _ i' c' Hcols Hi') as (c0' & Hc0' & Hcc').
  apply (Huniq i' j' c0' Hc0'); [|done].
  by rewrite (col_content_zsize _ _ Hcc').
Qed.

Lemma full_index_round_trip_witness :
  Gvec_new flat_cell flat_cell_key stable_sort (cubic_box 5) 4 (mk_comm 1 0) false =
    Ok flat_cell_gvec ∧
  Forall (λ c, zsize c ≤ 4096) (z_columns_ flat_cell_gvec) ∧
  0 ≤ 7 < num_gvec_ flat_cell_gvec ∧
  ∃ p i j c,
    at_ (gvec_full_index_ flat_cell_gvec) 7 = Ok p ∧ unpack p = (i, j) ∧
    at_ (z_columns_ flat_cell_gvec) i = Ok c ∧ pack i j = p ∧
    gvec_index_by_xy_ flat_cell_gvec !! (0, col_x c, col_y c) = Some (7 - j).
Proof.
  assert (Forall (λ c, zsize c ≤ 4096) (z_columns_ flat_cell_gvec)) as Hshort.
  { apply (Forall_fmap zsize (λ n, n ≤ 4096)).
    assert (zsize <$> z_columns_ flat_cell_gvec = [5; 1; 1; 1; 1]) as ->
      by (vm_compute; reflexivity).
    repeat constructor; lia. }
  assert (num_gvec_ flat_cell_gvec = 9) as Hnum by (vm_compute; reflexivity).
  assert (0 ≤ 7 < num_gvec_ flat_cell_gvec) as Hig by (rewrite Hnum; lia).
  split; [vm_compute; reflexivity|]. split; [exact Hshort|]. split; [exact Hig|].
  destruct (full_index_round_trip flat_cell flat_cell_key stable_sort (cubic_box 5) 4
              (mk_comm 1 0) false flat_cell_gvec 7)
    as (p & i & j & c & H1 & H2 & H3 & _ & H4 & H5 & _).
  - vm_compute. reflexivity.
  - exact Hshort.
  - exact Hig.
  - exists p, i, j, c. exact (conj H1 (conj H2 (conj H3 (conj H4 H5)))).
Defined.

(** ** The first column of a constructed set *)

(** The first column of a constructed set is the column (0, 0), and its
    first z-entry is 0: the G-vector of the index 0 is (0, 0, 0). *)
Lemma origin_column_first
    in_cutoff gk_key sorter fft_box num_ranks fft_comm reduce_gvec g :
  Gvec_new in_cutoff gk_key sorter fft_box num_ranks fft_comm reduce_gvec = Ok g →
  ∃ c zs, z_columns_ g !! 0%nat = Some c ∧ col_x c = 0 ∧ col_y c = 0 ∧ col_z c = 0 :: zs.
Proof.
  intros (g0 & g1 & H0 & Hzero & (sh & lens & ->)%find_shells_frame & Hs)%Gvec_new_Ok.
  destruct (Gvec_indexed_inv _ _ _ _ _ _ _ H0) as [_ Hne _ _ Hfull].
  unfold gvec in Hzero. apply bind_Ok in Hzero as (p & [_ Hp]%at_Ok & Hdec).
  rewrite Hfull in Hp. apply build_index_full in Hp as (k & c & j & Hk & Hj & Hn & ->).
  pose proof (column_start_nonneg (z_columns_ g0) k) as Hk0.
  assert (j = 0) as -> by lia.
  assert (k = 0%nat) as ->.
  { destruct k as [|k]; [done|]. exfalso.
    destruct (lookup_lt_is_Some_2 (z_columns_ g0) 0%nat) as [c0 Hc0];
      [apply lookup_lt_Some in Hk; lia|].
    pose proof (column_start_next _ 0%nat (S k) c0 Hc0 ltac:(lia)) as Hnext.
    rewrite column_start_0 in Hnext.
    assert (1 ≤ zsize c0)
      by (rewrite Forall_forall in Hne; by eapply Hne, list_elem_of_lookup_2).
    change (Z.of_nat 0) with 0 in Hn. lia. }
  change (pack (Z.of_nat (0 + 0)) 0) with 0 in Hdec.
  unfold gvec_by_full_index in Hdec. change (unpack 0) with (0, 0) in Hdec.
  cbn [fst snd] in Hdec.
  apply bind_Ok in Hdec as (u & _ & Hdec).
  apply bind_Ok in Hdec as (c' & [_ Hc']%at_Ok & Hdec).
  change (Z.to_nat 0) with 0%nat in Hc'. rewrite Hk in Hc'. injection Hc' as <-.
  apply bind_Ok in Hdec as (u' & _ & Hdec).
  apply bind_Ok in Hdec as (z & [_ Hz]%at_Ok & [= Hx Hy ->]).
  change (Z.to_nat 0) with 0%nat in Hz.
  destruct (col_z c) as [|z0 zs] eqn:Hcz; [done|]. injection Hz as ->.
  pose proof (same_columns _ _ Hs) as Hcols. cbn [with_shells z_columns_] in Hcols.
  pose proof (f_equal (λ l, l !! 0%nat) Hcols) as H0'. cbn beta in H0'.
  rewrite !list_lookup_fmap, Hk in H0'.
  destruct (z_columns_ g !! 0%nat) as [d|]; [|done].
  injection H0' as Hdx Hdy Hdz. exists d, zs. rewrite Hdx, Hdy, Hdz. by rewrite Hcz.
Qed.

(** So a first column that holds a negative z, as the column (0, 0) of a
    set that is not reduced by inversion symmetry does, is not in increasing
    order. *)
Lemma origin_column_not_increasing
    in_cutoff gk_key sorter fft_box num_ranks fft_comm reduce_gvec g c z :
  Gvec_new in_cutoff gk_key sorter fft_box num_ranks fft_comm reduce_gvec = Ok g →
  z_columns_ g !! 0%nat = Some c → z ∈ col_z c → z < 0 →
  ¬ StronglySorted Z.lt (col_z c).
Proof.
  intros (c' & zs & Hc' & _ & _ & Hz)%origin_column_first Hc Hin Hneg Hs.
  rewrite Hc in Hc'. injection Hc' as <-. rewrite Hz in Hs, Hin.
  apply StronglySorted_inv in Hs as [_ Hall]. rewrite Forall_forall in Hall.
  apply elem_of_cons in Hin as [->|Hin]; [lia|]. specialize (Hall z Hin). lia.
Qed.

Example flat_cell_origin_column :
  (col_content <$> z_columns_ flat_cell_gvec) !! 0%nat = Some (0, 0, [0; 1; 2; -2; -1]).
Proof. vm_compute. reflexivity. Qed.

(** ** Rounding to a double *)

(** [binary_round_aux] in integer arithmetic: the shifts of [shr] divide by
    a power of two and keep the round bit and the sticky bit, from which
    [round_nearest_even] decides as [round_shift] does. *)
Lemma shr_1_nonneg m r s :
  0 ≤ m → shr_1 (Build_shr_record m r s) = Build_shr_record (m `div` 2) (Z.odd m) (r || s).
Proof.
  intros Hm. rewrite <- Z.div2_div. destruct m as [|p|p]; [done| |lia].
  by destruct p.
Qed.

Lemma iter_pos_comm {A} (f : A → A) p :
  ∀ x, SpecFloat.iter_pos f p (f x) = f (SpecFloat.iter_pos f p x).
Proof.
  induction p as [p IH|p IH|]; intros x; simpl; [|by rewrite !IH|done].
  by rewrite !IH.
Qed.

Lemma iter_pos_nat {A} (f : A → A) p x :
  SpecFloat.iter_pos f p x = Nat.iter (Pos.to_nat p) f x.
Proof.
  revert x. induction p as [p IH|p IH|]; intros x; cbn [SpecFloat.iter_pos]; [| |done].
  - rewrite iter_pos_comm, iter_pos_comm, !IH, <- Nat.iter_add.
    replace (Pos.to_nat p~1) with (S (Pos.to_nat p + Pos.to_nat p)) by lia. done.
  - rewrite !IH, <- Nat.iter_add. f_equal. lia.
Qed.

(** [k + 1] shifts of a mantissa: the quotient, the bit shifted out last
    and whether a bit shifted out before it was set. *)
Lemma shr_steps m (k : nat) :
  0 ≤ m →
  Nat.iter (S k) shr_1 (Build_shr_record m false false) =
  Build_shr_record (m `div` 2 ^ Z.of_nat (S k))
                   (Z.odd (m `div` 2 ^ Z.of_nat k))
                   (negb (m `mod` 2 ^ Z.of_nat k =? 0)).
Proof.
  intros Hm. induction k as [|k IH].
  - unfold Nat.iter. cbn [nat_rect]. rewrite shr_1_nonneg by done.
    change (Z.of_nat 1) with 1. change (Z.of_nat 0) with 0.
    rewrite Z.pow_0_r, Z.pow_1_r, Z.div_1_r, Z.mod_1_r. done.
  - rewrite Nat.iter_succ, IH. rewrite shr_1_nonneg by (apply Z.div_pos; lia).
    f_equal.
    + rewrite Z.div_div by lia. f_equal. rewrite (Nat2Z.inj_succ (S k)), Z.pow_succ_r by lia. lia.
    + replace (Z.of_nat (S k)) with (Z.of_nat k + 1) by lia.
      rewrite Z.pow_add_r, Z.pow_1_r by lia.
      set (a := 2 ^ Z.of_nat k). assert (0 < a) by (apply Z.pow_pos_nonneg; lia).
      rewrite Z.rem_mul_r by lia.
      pose proof (Z.bit0_mod (m `div` a)) as Hbit. rewrite Z.bit0_odd in Hbit.
      pose proof (Z.mod_pos_bound m a ltac:(lia)).
      destruct (Z.odd (m `div` a)), (Z.eqb_spec (m `mod` a) 0),
        (Z.eqb_spec (m `mod` a + a * (m `div` a) `mod` 2) 0);
        simpl in *; try done; try nia.
Qed.

Lemma Zdigits2_log2 m : 0 < m → Zdigits2 m = Z.log2 m + 1.
Proof.
  destruct m as [|p|p]; [lia| |lia]. intros _. cbn [Zdigits2].
  induction p as [p IH|p IH|]; [| |done].
  - cbn [digits2_pos]. rewrite Pos2Z.inj_succ, IH.
    change (Z.pos p~1) with (2 * Z.pos p + 1). rewrite Z.log2_succ_double by lia. lia.
  - cbn [digits2_pos]. rewrite Pos2Z.inj_succ, IH.
    change (Z.pos p~0) with (2 * Z.pos p). rewrite Z.log2_double by lia. lia.
Qed.

(** Shifting by [k] bits and rounding to nearest, ties to even. *)
Lemma shr_round m e k :
  0 ≤ m → 0 < k →
  ∃ mrs, shr (Build_shr_record m false false) e k = (mrs, e + k) ∧
         round_nearest_even (shr_m mrs) (loc_of_shr_record mrs) = round_shift m k.
Proof.
  intros Hm Hk. destruct k as [|p|p]; [lia| |lia]. cbn [shr].
  rewrite iter_pos_nat. destruct (Pos2Nat.is_succ p) as [k Hp]. rewrite Hp.
  rewrite shr_steps by done. eexists. split; [done|].
  assert (Z.pos p = Z.of_nat k + 1) as -> by lia.
  replace (Z.of_nat (S k)) with (Z.of_nat k + 1) by lia.
  unfold round_shift. replace (Z.of_nat k + 1 - 1) with (Z.of_nat k) by lia.
  rewrite Z.pow_add_r, Z.pow_1_r by lia.
  set (h := 2 ^ Z.of_nat k). assert (0 < h) by (apply Z.pow_pos_nonneg; lia).
  rewrite Z.rem_mul_r by lia.
  pose proof (Z.bit0_mod (m `div` h)) as Hbit. rewrite Z.bit0_odd in Hbit.
  pose proof (Z.mod_pos_bound m h ltac:(lia)).
  cbn [shr_m loc_of_shr_record].
  destruct (Z.odd (m `div` h)), (Z.eqb_spec (m `mod` h) 0); simpl in Hbit; rewrite <- Hbit;
    cbn [negb loc_of_shr_record round_nearest_even];
    repeat case_bool_decide; try lia; done.
Qed.

Lemma round_shift_bounds m k :
  0 ≤ m → 0 < k →
  m `div` 2 ^ k ≤ round_shift m k ≤ m `div` 2 ^ k + 1.
Proof. intros. unfold round_shift. repeat case_bool_decide; try lia. destruct (Z.even _); lia. Qed.

Lemma log2_bounds m : 0 < m → 2 ^ Z.log2 m ≤ m < 2 ^ (Z.log2 m + 1).
Proof. intros Hm. pose proof (Z.log2_spec m Hm). by rewrite <- Z.add_1_r in *. Qed.

Lemma shr_fexp_exact m e :
  2 ^ 52 ≤ m < 2 ^ 53 → -1074 ≤ e →
  shr_fexp 53 1024 m e loc_Exact = (Build_shr_record m false false, e).
Proof.
  intros Hm He. unfold shr_fexp, fexp, emin. rewrite Zdigits2_log2 by lia.
  assert (Z.log2 m = 52) as ->.
  { apply Z.log2_unique; [lia|]. change (2 ^ Z.succ 52) with (2 ^ 53). lia. }
  cbn [shr_record_of_loc]. replace (Z.max _ _ - e) with 0 by lia. done.
Qed.

(** The mantissa and the exponent that rounding gives to [m * 2^e], for a
    mantissa of 53 bits or more, away from the ends of the range. *)
Lemma binary_round_aux_normal m e :
  2 ^ 52 ≤ m → -1074 ≤ e → e + Z.log2 m ≤ 1022 →
  ∃ M E, binary_round_aux 53 1024 false m e loc_Exact = S754_finite false M E ∧
         2 ^ 52 ≤ Z.pos M < 2 ^ 53 ∧ e ≤ E ≤ e + Z.log2 m - 51 ∧
         Z.pos M * 2 ^ (E - e) = binary64_round m.
Proof.
  intros Hm He Hmax. pose proof (log2_bounds m ltac:(lia)) as Hlog.
  assert (52 ≤ Z.log2 m) as H52 by (apply (Z.log2_le_mono (2 ^ 52) m); lia).
  unfold binary64_round. case_bool_decide as Hs.
  - assert (Z.log2 m = 52) as Heq by lia. rewrite Heq in Hlog.
    change (2 ^ (52 + 1)) with (2 ^ 53) in Hlog.
    unfold binary_round_aux. rewrite shr_fexp_exact by lia.
    cbn [shr_m loc_of_shr_record round_nearest_even]. rewrite shr_fexp_exact by lia.
    cbn [shr_m]. destruct m as [|M|M]; [lia| |lia]. exists M, e.
    replace (e <=? 1024 - 53) with true by lia. split; [done|]. split; [lia|].
    split; [lia|]. rewrite Z.sub_diag. lia.
  - set (n := Z.log2 m - 52) in *.
    destruct (shr_round m e n ltac:(lia) ltac:(lia)) as (mrs & Hshr & Hround).
    pose proof (round_shift_bounds m n ltac:(lia) ltac:(lia)) as Hq.
    assert (2 ^ 52 ≤ m `div` 2 ^ n < 2 ^ 53) as Hdiv.
    { assert (0 < 2 ^ n) by (apply Z.pow_pos_nonneg; lia).
      replace (Z.log2 m) with (52 + n) in Hlog by lia.
      replace (52 + n + 1) with (53 + n) in Hlog by lia.
      rewrite !Z.pow_add_r in Hlog by lia. split.
      - apply Z.div_le_lower_bound; lia.
      - apply Z.div_lt_upper_bound; lia. }
    unfold binary_round_aux.
    assert (shr_fexp 53 1024 m e loc_Exact = (mrs, e + n)) as ->.
    { unfold shr_fexp, fexp, emin. rewrite Zdigits2_log2 by lia.
      cbn [shr_record_of_loc]. rewrite <- Hshr. f_equal. lia. }
    rewrite Hround. set (q := round_shift m n) in *.
    destruct (decide (q < 2 ^ 53)) as [Hlt|Hge].
    + rewrite shr_fexp_exact by lia. cbn [shr_m].
      destruct q as [|M|M] eqn:Hqe; [lia| |lia]. exists M, (e + n).
      replace (e + n <=? 1024 - 53) with true by lia. split; [done|]. split; [lia|].
      split; [lia|]. by replace (e + n - e) with n by lia.
    + assert (q = 2 ^ 53) as Hq53 by lia. rewrite Hq53.
      exists (4503599627370496)%positive, (e + n + 1).
      split.
      * unfold shr_fexp, fexp, emin. change (Zdigits2 (2 ^ 53)) with 54.
        cbn [shr_record_of_loc].
        replace (Z.max (54 + (e + n) - 53) (3 - 1024 - 53) - (e + n)) with 1 by lia.
        cbn [shr SpecFloat.iter_pos]. rewrite shr_1_nonneg by lia.
        change (2 ^ 53 `div` 2) with 4503599627370496.
        cbn [shr_m]. replace (e + n + 1 <=? 1024 - 53) with true by lia. done.
      * split; [lia|]. split; [lia|].
        replace (e + n + 1 - e) with (n + 1) by lia.
        rewrite Z.pow_add_r by lia. lia.
Qed.

Lemma round_shift_mono a b k :
  0 ≤ a ≤ b → 0 < k → round_shift a k ≤ round_shift b k.
Proof.
  intros Hab Hk. unfold round_shift.
  assert (0 < 2 ^ k) as Hpow by (apply Z.pow_pos_nonneg; lia).
  pose proof (Z.div_mod a (2 ^ k) ltac:(lia)) as Ha.
  pose proof (Z.div_mod b (2 ^ k) ltac:(lia)) as Hb.
  pose proof (Z.mod_pos_bound a (2 ^ k) Hpow) as Hra.
  pose proof (Z.mod_pos_bound b (2 ^ k) Hpow) as Hrb.
  assert (a `div` 2 ^ k ≤ b `div` 2 ^ k) as Hq by (apply Z.div_le_mono; lia).
  destruct (decide (a `div` 2 ^ k = b `div` 2 ^ k)) as [Heq|Hne].
  - rewrite Heq in *. assert (a `mod` 2 ^ k ≤ b `mod` 2 ^ k) by lia.
    repeat case_bool_decide; try lia; destruct (Z.even _); lia.
  - repeat case_bool_decide; try lia; repeat destruct (Z.even _); lia.
Qed.

Lemma binary64_round_0 : binary64_round 0 = 0.
Proof. done. Qed.

Lemma binary64_round_bounds p :
  0 < p → 2 ^ Z.log2 p ≤ binary64_round p ≤ 2 ^ (Z.log2 p + 1).
Proof.
  intros Hp. pose proof (log2_bounds p Hp) as Hlog. unfold binary64_round.
  case_bool_decide as Hs; [lia|]. set (s := Z.log2 p - 52) in *.
  pose proof (round_shift_bounds p s ltac:(lia) ltac:(lia)) as Hq.
  assert (0 < 2 ^ s) by (apply Z.pow_pos_nonneg; lia).
  replace (Z.log2 p) with (52 + s) in * by lia.
  replace (52 + s + 1) with (53 + s) in * by lia.
  rewrite !Z.pow_add_r in * by lia.
  assert (2 ^ 52 ≤ p `div` 2 ^ s < 2 ^ 53) as Hdiv.
  { split; [apply Z.div_le_lower_bound|apply Z.div_lt_upper_bound]; lia. }
  nia.
Qed.

(** Rounding to 53 bits keeps the order. *)
Lemma binary64_round_mono a b : 0 ≤ a ≤ b → binary64_round a ≤ binary64_round b.
Proof.
  intros Hab. destruct (decide (a = 0)) as [->|Ha].
  { rewrite binary64_round_0. destruct (decide (b = 0)) as [->|Hb]; [done|].
    pose proof (binary64_round_bounds b ltac:(lia)).
    assert (0 < 2 ^ Z.log2 b) by (apply Z.pow_pos_nonneg; [lia|apply Z.log2_nonneg]). lia. }
  pose proof (Z.log2_le_mono a b ltac:(lia)) as Hlog.
  destruct (decide (Z.log2 a = Z.log2 b)) as [Heq|Hne].
  - unfold binary64_round. rewrite Heq. case_bool_decide; [lia|].
    apply Z.mul_le_mono_nonneg_r; [apply Z.pow_nonneg; lia|].
    apply round_shift_mono; lia.
  - pose proof (binary64_round_bounds a ltac:(lia)) as Hba.
    pose proof (binary64_round_bounds b ltac:(lia)) as Hbb.
    assert (2 ^ (Z.log2 a + 1) ≤ 2 ^ Z.log2 b) by (apply Z.pow_le_mono_r; lia). lia.
Qed.

(** Rounding to 53 bits commutes with the multiplication by a power of
    two. *)
Lemma binary64_round_scale p k :
  0 ≤ p → 0 ≤ k → binary64_round (p * 2 ^ k) = binary64_round p * 2 ^ k.
Proof.
  intros Hp Hk. destruct (decide (p = 0)) as [->|Hne]; [done|].
  assert (0 < 2 ^ k) as Hpk by (apply Z.pow_pos_nonneg; lia).
  unfold binary64_round. rewrite Z.log2_mul_pow2 by lia.
  set (s := Z.log2 p - 52). replace (k + Z.log2 p - 52) with (s + k) by lia.
  repeat case_bool_decide; try lia.
  - unfold round_shift.
    assert (p * 2 ^ k = p * 2 ^ (- s) * 2 ^ (s + k)) as Hsplit.
    { rewrite <- Z.mul_assoc, <- Z.pow_add_r by lia. f_equal. f_equal. lia. }
    assert (0 < 2 ^ (s + k)) by (apply Z.pow_pos_nonneg; lia).
    assert (0 < 2 ^ (s + k - 1)) by (apply Z.pow_pos_nonneg; lia).
    rewrite Hsplit. rewrite Z.mod_mul, Z.div_mul by lia.
    case_bool_decide; lia.
  - unfold round_shift.
    assert (0 < 2 ^ s) by (apply Z.pow_pos_nonneg; lia).
    assert (0 < 2 ^ (s - 1)) by (apply Z.pow_pos_nonneg; lia).
    rewrite (Z.pow_add_r 2 s k) by lia.
    rewrite Z.div_mul_cancel_r, Z.mul_mod_distr_r by lia.
    replace (s + k - 1) with (s - 1 + k) by lia. rewrite (Z.pow_add_r 2 (s - 1) k) by lia.
    repeat case_bool_decide; try nia; destruct (Z.even _); lia.
Qed.

Lemma iter_xO m d : Z.pos (Pos.iter xO m d) = Z.pos m * 2 ^ Z.pos d.
Proof.
  induction d as [|d IH] using Pos.peano_ind.
  - simpl. lia.
  - rewrite Pos.iter_succ, Pos2Z.inj_xO, IH, Pos2Z.inj_succ, Z.pow_succ_r by lia. lia.
Qed.

(** [<=] on finite positive doubles with mantissas of 53 bits is the order
    of their values. *)
Lemma double_is_le x y K v w :
  double_is x K v → double_is y K w → v ≤ w → double_le x y.
Proof.
  intros (M1 & E1 & -> & HM1 & HE1 & ->) (M2 & E2 & -> & HM2 & HE2 & ->) Hle.
  unfold double_le, SFleb, SFcompare. destruct (Z.compare_spec E1 E2) as [->|Hlt|Hgt]; [|done|].
  - rewrite Pos.compare_cont_spec. cbn [Pos.switch_Eq].
    assert (0 < 2 ^ (E2 + K)) by (apply Z.pow_pos_nonneg; lia).
    assert (Z.pos M1 ≤ Z.pos M2) as HM by nia.
    destruct (Pos.compare_spec M1 M2); [done|done|lia].
  - exfalso. assert (0 < 2 ^ (E2 + K)) by (apply Z.pow_pos_nonneg; lia).
    assert (2 * 2 ^ (E2 + K) ≤ 2 ^ (E1 + K)).
    { rewrite <- Z.pow_succ_r by lia. apply Z.pow_le_mono_r; lia. }
    nia.
Qed.

(** The conversion of a [size_t] other than 0: a double with a mantissa of
    53 bits whose value is the key rounded to 53 bits. *)
Lemma to_double_is (key : N) :
  (0 < key < 2 ^ 64)%N →
  ∃ M E, to_double key = S754_finite false M E ∧ 2 ^ 52 ≤ Z.pos M < 2 ^ 53 ∧
         -52 ≤ E ≤ 12 ∧ Z.pos M * 2 ^ (E + 52) = binary64_round (Z.of_N key) * 2 ^ 52.
Proof.
  intros Hkey. unfold to_double. destruct key as [|m]; [lia|]. cbn [Z.of_N binary_normalize].
  assert (0 < Z.pos m < 2 ^ 64) as Hm by lia.
  pose proof (log2_bounds (Z.pos m) ltac:(lia)) as Hlog.
  pose proof (Z.log2_nonneg (Z.pos m)) as Hnn.
  assert (Z.log2 (Z.pos m) < 64) as H64 by (apply Z.log2_lt_pow2; lia).
  unfold binary_round, fexp, emin.
  pose proof (Zdigits2_log2 (Z.pos m) ltac:(lia)) as Hd. cbn [Zdigits2] in Hd. rewrite Hd.
  set (l := Z.log2 (Z.pos m)) in *.
  replace (Z.max (l + 1 + 0 - 53) (3 - 1024 - 53)) with (l - 52) by lia.
  unfold shl_align. destruct (l - 52 - 0) as [|d|d] eqn:Hsh.
  - destruct (binary_round_aux_normal (Z.pos m) 0) as (M & E & HME & HM & HE & Hval);
      [fold l; replace l with 52 in * by lia; lia|lia|lia|].
    fold l in HE. exists M, E. split; [done|]. split; [done|]. split; [lia|].
    rewrite Z.sub_0_r in Hval. rewrite <- Hval, Z.pow_add_r by lia. lia.
  - destruct (binary_round_aux_normal (Z.pos m) 0) as (M & E & HME & HM & HE & Hval);
      [fold l; assert (2 ^ 52 ≤ 2 ^ l) by (apply Z.pow_le_mono_r; lia); lia|lia|lia|].
    fold l in HE. exists M, E. split; [done|]. split; [done|]. split; [lia|].
    rewrite Z.sub_0_r in Hval. rewrite <- Hval, Z.pow_add_r by lia. lia.
  - pose proof (iter_xO m d) as Hiter.
    assert (Z.log2 (Z.pos (Pos.iter xO m d)) = 52) as Hl52.
    { rewrite Hiter, Z.log2_mul_pow2 by lia. lia. }
    destruct (binary_round_aux_normal (Z.pos (Pos.iter xO m d)) (l - 52))
      as (M & E & HME & HM & HE & Hval).
    { pose proof (log2_bounds (Z.pos (Pos.iter xO m d)) ltac:(lia)). rewrite Hl52 in *. lia. }
    { lia. }
    { lia. }
    rewrite Hl52 in HE. exists M, E. split; [done|]. split; [done|]. split; [lia|].
    rewrite Hiter, binary64_round_scale in Hval by lia.
    replace (E + 52) with ((E - (l - 52)) + l) by lia. rewrite Z.pow_add_r by lia.
    rewrite Z.mul_assoc, Hval, <- Z.mul_assoc, <- Z.pow_add_r by lia.
    f_equal. f_equal. lia.
Qed.

(** The length stored for a key other than 0. *)
Lemma shell_length_is (key : N) :
  (0 < key < 2 ^ 64)%N →
  double_is (shell_length key) 138 (shell_length_scaled (Z.of_N key)).
Proof.
  intros Hkey. destruct (to_double_is key Hkey) as (M & E & HME & HM & HE & Hval).
  unfold shell_length, double_1e_10. rewrite HME. cbn [SFmul xorb].
  set (C := 7737125245533627%positive).
  assert (Z.pos C = 7737125245533627) as HC by done.
  assert (Z.log2 (Z.pos (M * C)) ≤ 105) as Hlog.
  { assert (Z.log2 (Z.pos (M * C)) < 106); [|lia]. apply Z.log2_lt_pow2; lia. }
  destruct (binary_round_aux_normal (Z.pos (M * C)) (E + -86))
    as (M' & E' & HME' & HM' & HE' & Hval'); [lia|lia|lia|].
  exists M', E'. split; [done|]. split; [done|]. split; [lia|].
  unfold shell_length_scaled. rewrite <- Hval.
  replace (Z.pos M * 2 ^ (E + 52) * 7737125245533627) with (Z.pos (M * C) * 2 ^ (E + 52)) by lia.
  rewrite binary64_round_scale, <- Hval' by lia.
  rewrite <- Z.mul_assoc, <- Z.pow_add_r by lia. f_equal. f_equal. lia.
Qed.

Lemma shell_length_0 : shell_length 0 = S754_zero false.
Proof. done. Qed.

Lemma shell_length_scaled_mono a b :
  0 ≤ a ≤ b → shell_length_scaled a ≤ shell_length_scaled b.
Proof.
  intros Hab. unfold shell_length_scaled. apply binary64_round_mono.
  pose proof (binary64_round_mono a b Hab). pose proof (binary64_round_mono 0 a ltac:(lia)).
  rewrite binary64_round_0 in *. lia.
Qed.

(** The double of a key grows with the key, weakly. *)
Lemma shell_length_mono (a b : N) :
  (a ≤ b)%N → (b < 2 ^ 64)%N → double_le (shell_length a) (shell_length b).
Proof.
  intros Hab Hb. destruct (decide (a = 0%N)) as [->|Ha].
  - rewrite shell_length_0. destruct (decide (b = 0%N)) as [->|Hb0]; [done|].
    destruct (shell_length_is b ltac:(lia)) as (M & E & -> & _). done.
  - eapply double_is_le; [apply shell_length_is; lia|apply shell_length_is; lia|].
    apply shell_length_scaled_mono. lia.
Qed.

(** Different keys can have the same double: both of these give
    1200000.000000004. *)
Example shell_length_not_injective :
  shell_length 12000000000000038 = shell_length 12000000000000040.
Proof. vm_compute. reflexivity. Qed.

(** ** Shells *)

Lemma StronglySorted_lookup {A : Type} (R : relation A) (l : list A) (i j : nat) (a b : A) :
  StronglySorted R l → l !! i = Some a → l !! j = Some b → (i < j)%nat → R a b.
Proof.
  intros Hs. revert i j. induction Hs as [|x l Hs IH Hx]; intros i j Ha Hb Hij; [done|].
  destruct j as [|j]; [lia|]. destruct i as [|i]; simpl in *.
  - injection Ha as ->. rewrite Forall_forall in Hx. apply Hx.
    by eapply list_elem_of_lookup_2.
  - eapply IH; eauto. lia.
Qed.

Lemma gsh_push_keys len ig gsh :
  Forall (λ k, k = len ∨ k ∈ gsh.*1) (gsh_push len ig gsh).*1.
Proof.
  induction gsh as [|[k v] gsh IH]; simpl.
  - repeat constructor.
  - repeat case_bool_decide; csimpl; constructor.
    + by left.
    + apply Forall_forall. intros k' Hk'. by right.
    + right. by left.
    + apply Forall_forall. intros k' Hk'. right. by right.
    + right. by left.
    + eapply Forall_impl; [exact IH|]. simpl. intros k' [->|Hk']; [by left|].
      right. by right.
Qed.

Lemma gsh_push_sorted len ig gsh :
  StronglySorted N.lt gsh.*1 → StronglySorted N.lt (gsh_push len ig gsh).*1.
Proof.
  induction gsh as [|[k v] gsh IH]; simpl; intros Hs.
  - repeat constructor.
  - apply StronglySorted_inv in Hs as [Hs Hk].
    repeat case_bool_decide; csimpl.
    + constructor; [by constructor|]. constructor; [done|].
      eapply Forall_impl; [exact Hk|]. simpl. intros; lia.
    + by constructor.
    + constructor; [by apply IH|].
      pose proof (gsh_push_keys len ig gsh) as Hkeys.
      rewrite Forall_forall in Hkeys, Hk. apply Forall_forall. intros k' Hk'.
      destruct (Hkeys k' Hk') as [->|Hin]; [lia|by apply Hk].
Qed.

(** [ig] is in the entry of its key after the insertion, and every entry
    is an entry from before, possibly with [ig] appended. *)
Lemma gsh_push_new len ig gsh : ∃ v, (len, v) ∈ gsh_push len ig gsh ∧ ig ∈ v.
Proof.
  induction gsh as [|[k v] gsh (v' & Hin & Hig)]; simpl.
  - exists [ig]. split; [by left|by left].
  - repeat case_bool_decide.
    + exists [ig]. split; [by left|by left].
    + subst k. exists (v ++ [ig]). split; [by left|]. apply elem_of_app. right. by left.
    + exists v'. split; [by right|done].
Qed.

Lemma gsh_push_old len ig gsh k v ig' :
  (k, v) ∈ gsh → ig' ∈ v → ∃ v', (k, v') ∈ gsh_push len ig gsh ∧ ig' ∈ v'.
Proof.
  induction gsh as [|[k0 v0] gsh IH]; simpl; intros Hin Hig; [by apply elem_of_nil in Hin|].
  repeat case_bool_decide.
  - exists v. split; [by right|done].
  - apply elem_of_cons in Hin as [[= -> ->]|Hin].
    + exists (v0 ++ [ig]). split; [by left|]. apply elem_of_app. by left.
    + exists v. split; [by right|done].
  - apply elem_of_cons in Hin as [[= -> ->]|Hin].
    + exists v0. split; [by left|done].
    + destruct (IH Hin Hig) as (v' & Hv' & Hig'). exists v'. split; [by right|done].
Qed.

Lemma gsh_push_members len ig gsh k v ig' :
  (k, v) ∈ gsh_push len ig gsh → ig' ∈ v →
  (ig' = ig ∧ k = len) ∨ ∃ v0, (k, v0) ∈ gsh ∧ ig' ∈ v0.
Proof.
  induction gsh as [|[k0 v0] gsh IH]; simpl; intros Hin Hig.
  - apply list_elem_of_singleton in Hin as [= -> ->].
    apply list_elem_of_singleton in Hig as ->. by left.
  - repeat case_bool_decide.
    + apply elem_of_cons in Hin as [[= -> ->]|Hin].
      * apply list_elem_of_singleton in Hig as ->. by left.
      * right. by exists v.
    + subst k0. apply elem_of_cons in Hin as [[= -> ->]|Hin].
      * apply elem_of_app in Hig as [Hig|Hig].
        -- right. exists v0. split; [by left|done].
        -- apply list_elem_of_singleton in Hig as ->. by left.
      * right. exists v. split; [by right|done].
    + apply elem_of_cons in Hin as [[= -> ->]|Hin].
      * right. exists v0. split; [by left|done].
      * destruct (IH Hin Hig) as [?|(v1 & Hv1 & Hig1)]; [by left|].
        right. exists v1. split; [by right|done].
Qed.

Section shells.
Variable gk_key : Z * Z * Z → N.
Variable g : Gvec.

Lemma shell_body_inv gsh seen ig gsh' :
  gsh_inv gk_key g gsh seen → shell_body gk_key g gsh ig = Ok gsh' →
gsh_inv gk_key g gsh' (seen ++ [ig]).
Proof.
  intros [Hs Hsound Hcompl]. unfold shell_body. intros (gk & Hgk & [= <-])%bind_Ok.
  split.
  - by apply gsh_push_sorted.
  - intros k v ig' Hin Hig'.
    destruct (gsh_push_members _ _ _ _ _ _ Hin Hig') as [[-> ->]|(v0 & Hv0 & Hig0)].
    + split; [apply elem_of_app; right; by left|]. by exists gk.
    + destruct (Hsound _ _ _ Hv0 Hig0) as [Hseen Hkey].
      split; [apply elem_of_app; by left|done].
  - intros ig' [Hig'|Hig']%elem_of_app.
    + destruct (Hcompl _ Hig') as (k & v & Hin & Hv).
      destruct (gsh_push_old (gk_key gk) ig _ _ _ _ Hin Hv) as (v' & ? & ?). eauto.
    + apply list_elem_of_singleton in Hig' as ->.
      destruct (gsh_push_new (gk_key gk) ig gsh) as (v & ? & ?). eauto.
Qed.

Lemma shell_fold_inv l : ∀ gsh seen gsh',
  gsh_inv gk_key g gsh seen → foldM (shell_body gk_key g) gsh l = Ok gsh' →
gsh_inv gk_key g gsh' (seen ++ l).
Proof.
  induction l as [|ig l IH]; intros gsh seen gsh' Hinv; simpl.
  - intros [= <-]. by rewrite app_nil_r.
  - intros (gsh1 & H1 & H2)%bind_Ok.
    replace (seen ++ ig :: l) with ((seen ++ [ig]) ++ l) by (by rewrite <- app_assoc).
    eapply IH; [|exact H2]. by eapply shell_body_inv.
Qed.
End shells.

(** The entries of the shell table written for one entry of the map. *)
Lemma shell_fill_lookup (n : Z) (igs : list Z) : ∀ (shell : list Z) (pos : nat) (s : Z),
  foldl (λ s ig, <[Z.to_nat ig := n]> s) shell igs !! pos = Some s →
  (∃ ig, ig ∈ igs ∧ Z.to_nat ig = pos ∧ s = n) ∨
  (shell !! pos = Some s ∧ ∀ ig, ig ∈ igs → Z.to_nat ig ≠ pos).
Proof.
  induction igs as [|ig0 igs IH]; intros shell pos s; simpl.
  - intros Hs. right. split; [done|]. intros ig Hig. by apply elem_of_nil in Hig.
  - intros [(ig & Hig & Hpos & ->)|[Hs Hnone]]%IH.
    + left. exists ig. split; [by right|done].
    + destruct (decide (Z.to_nat ig0 = pos)) as [Heq|Hne].
      * left. exists ig0. split; [by left|]. split; [done|].
        rewrite Heq in Hs. apply list_lookup_insert_Some in Hs as [(_ & -> & _)|[? _]]; done.
      * right. rewrite list_lookup_insert_ne in Hs by done. split; [done|].
        intros ig [->|Hig]%elem_of_cons; [done|by apply Hnone].
Qed.

Lemma shell_fill_length (n : Z) (igs : list Z) : ∀ shell : list Z,
  length (foldl (λ s ig, <[Z.to_nat ig := n]> s) shell igs) = length shell.
Proof.
  induction igs as [|ig igs IH]; intros shell; simpl; [done|].
  by rewrite IH, length_insert.
Qed.

Lemma number_shells_cons n key igs rest shell :
  number_shells n ((key, igs) :: rest) shell =
  ((number_shells (n + 1) rest (foldl (λ s ig, <[Z.to_nat ig := n]> s) shell igs)).1,
   shell_length key ::
   (number_shells (n + 1) rest (foldl (λ s ig, <[Z.to_nat ig := n]> s) shell igs)).2).
Proof. cbn [number_shells]. by destruct (number_shells _ _ _). Qed.

Lemma number_shells_lens gsh : ∀ n shell,
  (number_shells n gsh shell).2 = shell_length <$> gsh.*1.
Proof.
  induction gsh as [|[k v] gsh IH]; intros n shell; [done|].
  rewrite number_shells_cons. cbn [snd]. by rewrite IH.
Qed.

Lemma number_shells_length gsh : ∀ n shell,
  length (number_shells n gsh shell).1 = length shell.
Proof.
  induction gsh as [|[k v] gsh IH]; intros n shell; [done|].
  rewrite number_shells_cons. cbn [fst]. by rewrite IH, shell_fill_length.
Qed.

(** An entry of the shell table is the number of an entry of the map that
    holds the G-vector, or it is as before and no entry holds it. *)
Lemma number_shells_lookup gsh : ∀ n shell (pos : nat) (s : Z),
  (number_shells n gsh shell).1 !! pos = Some s →
  (∃ idx k v ig, gsh !! idx = Some (k, v) ∧ ig ∈ v ∧ Z.to_nat ig = pos ∧
                 s = n + Z.of_nat idx) ∨
  (shell !! pos = Some s ∧
   ∀ k v ig, (k, v) ∈ gsh → ig ∈ v → Z.to_nat ig ≠ pos).
Proof.
  induction gsh as [|[k0 v0] gsh IH]; intros n shell pos s.
  - simpl. intros Hs. right. split; [done|]. intros k v ig Hin. by apply elem_of_nil in Hin.
  - rewrite number_shells_cons. cbn [fst].
    intros [(idx & k & v & ig & Hidx & Hig & Hpos & ->)|[Hs Hnone]]%IH.
    + left. exists (S idx), k, v, ig. split; [done|]. split; [done|]. split; [done|]. lia.
    + apply shell_fill_lookup in Hs as [(ig & Hig & Hpos & ->)|[Hs Hnone0]].
      * left. exists 0%nat, k0, v0, ig. split; [done|]. split; [done|]. split; [done|]. lia.
      * right. split; [done|].
        intros k v ig [[= -> ->]|Hin]%elem_of_cons Hig; [by apply Hnone0|by eapply Hnone].
Qed.

Lemma find_shells_Ok gk_key g g' :
  find_shells gk_key g = Ok g' →
  ∃ gsh, gsh_inv gk_key g gsh (seqZ 0 (num_gvec_ g)) ∧
    g' = with_shells (number_shells 0 gsh (replicate (Z.to_nat (num_gvec_ g)) 0)).1
                     (shell_length <$> gsh.*1) g.
Proof.
  unfold find_shells. intros (gsh & Hgsh & H)%bind_Ok. exists gsh. split.
  - apply (shell_fold_inv gk_key g _ [] [] gsh) in Hgsh; [done|].
    split; [constructor| |]; intros; by apply elem_of_nil in H0.
  - pose proof (number_shells_lens gsh 0 (replicate (Z.to_nat (num_gvec_ g)) 0)) as Hlens.
    destruct (number_shells _ _ _) as [shell lens]. cbn [fst snd] in *.
    injection H as <-. by rewrite Hlens.
Qed.

Lemma gsh_push_nonempty len ig gsh :
  Forall (λ e : N * list Z, e.2 ≠ []) gsh →
  Forall (λ e : N * list Z, e.2 ≠ []) (gsh_push len ig gsh).
Proof.
  induction 1 as [|[k v] gsh Hv Hrest IH]; simpl.
  - by repeat constructor.
  - repeat case_bool_decide.
    + constructor; [done|]. by constructor.
    + constructor; [|done]. simpl. by destruct v.
    + by constructor.
Qed.

Lemma shell_fold_nonempty gk_key g l gsh :
  foldM (shell_body gk_key g) [] l = Ok gsh → Forall (λ e : N * list Z, e.2 ≠ []) gsh.
Proof.
  apply (foldM_preserves (λ gsh, Forall (λ e : N * list Z, e.2 ≠ []) gsh)); [|constructor].
  intros s ig s' Hs. unfold shell_body. intros (gk & _ & [= <-])%bind_Ok.
  by apply gsh_push_nonempty.
Qed.

Lemma find_shells_table gk_key g g' :
  find_shells gk_key g = Ok g' →
  ∃ gsh, gsh_inv gk_key g gsh (seqZ 0 (num_gvec_ g)) ∧
         Forall (λ e : N * list Z, e.2 ≠ []) gsh ∧
         g' = with_shells (number_shells 0 gsh (replicate (Z.to_nat (num_gvec_ g)) 0)).1
                          (shell_length <$> gsh.*1) g.
Proof.
  intros H. pose proof H as H'. unfold find_shells in H'.
  apply bind_Ok in H' as (gsh & Hgsh & H').
  exists gsh. split; [|split; [by eapply shell_fold_nonempty|]].
  - apply (shell_fold_inv gk_key g _ [] [] gsh) in Hgsh; [done|].
    split; [constructor| |]; intros; by apply elem_of_nil in H0.
  - pose proof (number_shells_lens gsh 0 (replicate (Z.to_nat (num_gvec_ g)) 0)) as Hlens.
    destruct (number_shells _ _ _) as [shell lens]. cbn [fst snd] in *.
    injection H' as <-. by rewrite Hlens.
Qed.

Lemma sorted_keys_NoDup (keys : list N) : StronglySorted N.lt keys → NoDup keys.
Proof.
  induction 1 as [|a l Hs IH Ha]; constructor; [|done].
  intros Hin. rewrite Forall_forall in Ha. specialize (Ha a Hin). lia.
Qed.

(** The keys of a sorted list are in the order of their positions. *)
Lemma sorted_keys_order (keys : list N) (n1 n2 : Z) (k1 k2 : N) :
  StronglySorted N.lt keys → at_ keys n1 = Ok k1 → at_ keys n2 = Ok k2 →
  (n1 < n2 ↔ (k1 < k2)%N) ∧ (n1 = n2 ↔ k1 = k2).
Proof.
  intros Hs [H1 Hk1]%at_Ok [H2 Hk2]%at_Ok.
  assert (∀ a b ka kb, keys !! Z.to_nat a = Some ka → keys !! Z.to_nat b = Some kb →
            0 ≤ a → 0 ≤ b → a < b → (ka < kb)%N) as Hlt.
  { intros a b ka kb Ha Hb Ha0 Hb0 Hab.
    apply (StronglySorted_lookup _ _ _ _ _ _ Hs Ha Hb). lia. }
  assert (n1 = n2 → k1 = k2) as Heq by (intros ->; congruence).
  split; split.
  - by apply (Hlt n1 n2).
  - intros Hk. destruct (Z.lt_trichotomy n1 n2) as [|[Hn|Hn]]; [done| |].
    + specialize (Heq Hn). lia.
    + pose proof (Hlt n2 n1 _ _ Hk2 Hk1 H2 H1 Hn). lia.
  - done.
  - intros Hk. destruct (Z.lt_trichotomy n1 n2) as [Hn|[|Hn]]; [|done|].
    + pose proof (Hlt n1 n2 _ _ Hk1 Hk2 H1 H2 Hn). lia.
    + pose proof (Hlt n2 n1 _ _ Hk2 Hk1 H2 H1 Hn). lia.
Qed.

(** The doubles of sorted keys do not decrease. *)
Lemma shell_lengths_sorted (keys : list N) :
  StronglySorted N.lt keys → Forall (λ k, (k < 2 ^ 64)%N) keys →
  StronglySorted double_le (shell_length <$> keys).
Proof.
  induction 1 as [|k keys Hs IH Hk]; intros Hsmall; csimpl; constructor.
  - apply IH. by apply Forall_cons in Hsmall as [_ ?].
  - apply Forall_cons in Hsmall as [_ Hsmall]. rewrite Forall_fmap.
    rewrite Forall_forall in Hk, Hsmall. apply Forall_forall. intros b Hb. simpl.
    apply shell_length_mono; [|by apply Hsmall]. specialize (Hk b Hb). lia.
Qed.

(** What the classification gives: a table of keys in increasing order, one
    for each shell and each the quantised length of a G-vector; the length
    of a shell is the double of its key, and the shell of a G-vector is the
    one that has the quantised length of the G-vector as its key. *)
Lemma classified_shells gk_key g g' :
  find_shells gk_key g = Ok g' →
  ∃ keys, StronglySorted N.lt keys ∧
    gvec_shell_len_ g' = shell_length <$> keys ∧
    (∀ ig, 0 ≤ ig < num_gvec_ g →
       ∃ gk n, gvec g ig = Ok gk ∧ shell g' ig = Ok n ∧ at_ keys n = Ok (gk_key gk)) ∧
    (∀ k, k ∈ keys → ∃ ig gk, 0 ≤ ig < num_gvec_ g ∧ gvec g ig = Ok gk ∧ gk_key gk = k).
Proof.
  intros (gsh & [Hsorted Hsound Hcompl] & Hne & ->)%find_shells_table.
  exists gsh.*1. unfold shell. cbn [with_shells gvec_shell_ gvec_shell_len_].
  split; [done|]. split; [done|]. split.
  - intros ig Hig.
    destruct (lookup_lt_is_Some_2
                (number_shells 0 gsh (replicate (Z.to_nat (num_gvec_ g)) 0)).1
                (Z.to_nat ig)) as [s Hs].
    { rewrite number_shells_length, length_replicate. lia. }
    pose proof Hs as [(idx & k & v & ig' & Hidx & Hig' & Hpos & ->)|[_ Hnone]]%number_shells_lookup.
    + destruct (Hsound k v ig') as [Hseen (gk & Hgk & Hkey)];
        [by eapply list_elem_of_lookup_2|done|].
      apply elem_of_seqZ in Hseen. assert (ig' = ig) as -> by lia.
      exists gk, (0 + Z.of_nat idx). split; [done|]. split.
      * apply at_Ok. split; [lia|done].
      * apply at_Ok. split; [lia|].
        replace (Z.to_nat (0 + Z.of_nat idx)) with idx by lia.
        by rewrite list_lookup_fmap, Hidx, Hkey.
    + destruct (Hcompl ig) as (k & v & Hin & Hv); [apply elem_of_seqZ; lia|].
      by destruct (Hnone k v ig Hin Hv).
  - intros k ((k' & v) & -> & Hin)%list_elem_of_fmap. cbn [fst].
    assert (v ≠ []) as Hv by (rewrite Forall_forall in Hne; by apply (Hne (k', v))).
    destruct v as [|ig v]; [done|].
    destruct (Hsound k' (ig :: v) ig Hin) as [Hseen (gk & Hgk & Hkey)]; [by left|].
    apply elem_of_seqZ in Hseen. exists ig, gk. split; [lia|done].
Qed.

(** Every number below the number of shells is the shell of a G-vector. *)
Lemma find_shells_used gk_key g g' n :
  find_shells gk_key g = Ok g' → 0 ≤ n < num_gvec_shells_ g' →
  ∃ ig, 0 ≤ ig < num_gvec_ g ∧ shell g' ig = Ok n.
Proof.
  intros (gsh & [Hsorted Hsound Hcompl] & Hne & ->)%find_shells_table.
  unfold shell. cbn [with_shells num_gvec_shells_ gvec_shell_]. unfold size.
  rewrite !length_fmap. intros Hn.
  destruct (lookup_lt_is_Some_2 gsh (Z.to_nat n)) as [[k v] Hkv]; [lia|].
  assert (v ≠ []) as Hv.
  { rewrite Forall_forall in Hne. by apply (Hne (k, v)), (list_elem_of_lookup_2 _ (Z.to_nat n)). }
  destruct v as [|ig v]; [done|].
  destruct (Hsound k (ig :: v) ig) as [Hseen (gk & Hgk & Hkey)];
    [by eapply list_elem_of_lookup_2|by left|].
  apply elem_of_seqZ in Hseen. exists ig. split; [lia|].
  destruct (lookup_lt_is_Some_2
              (number_shells 0 gsh (replicate (Z.to_nat (num_gvec_ g)) 0)).1
              (Z.to_nat ig)) as [s Hs].
  { rewrite number_shells_length, length_replicate. lia. }
  apply at_Ok. split; [lia|]. rewrite Hs. f_equal.
  apply number_shells_lookup in Hs
    as [(idx & k' & v' & ig' & Hidx & Hig' & Hpos & ->)|[_ Hnone]].
  - destruct (Hsound k' v' ig') as [Hseen' (gk' & Hgk' & Hkey')];
      [by eapply list_elem_of_lookup_2|done|].
    apply elem_of_seqZ in Hseen'. assert (ig' = ig) as -> by lia.
    assert (k' = k) as -> by congruence.
    pose proof (sorted_keys_NoDup _ Hsorted) as Hnd.
    assert (idx = Z.to_nat n) as ->; [|lia].
    apply (NoDup_lookup gsh.*1 _ _ k Hnd); by rewrite list_lookup_fmap, ?Hidx, ?Hkv.
  - exfalso. apply (Hnone k (ig :: v) ig); [by eapply list_elem_of_lookup_2|by left|done].
Qed.

(** The shells of a constructed set. *)
Lemma Gvec_new_shells in_cutoff gk_key sorter fft_box num_ranks fft_comm reduce_gvec g :
  Gvec_new in_cutoff gk_key sorter fft_box num_ranks fft_comm reduce_gvec = Ok g →
  ∃ keys, StronglySorted N.lt keys ∧
    gvec_shell_len_ g = shell_length <$> keys ∧
    num_gvec_shells_ g = size keys ∧
    0 < num_gvec_ g ∧
    (∀ ig, 0 ≤ ig < num_gvec_ g →
       ∃ gk n, gvec g ig = Ok gk ∧ shell g ig = Ok n ∧ at_ keys n = Ok (gk_key gk)) ∧
    (∀ k, k ∈ keys → ∃ ig gk, 0 ≤ ig < num_gvec_ g ∧ gvec g ig = Ok gk ∧ gk_key gk = k) ∧
    (∀ n, 0 ≤ n < num_gvec_shells_ g → ∃ ig, 0 ≤ ig < num_gvec_ g ∧ shell g ig = Ok n).
Proof.
  intros (g0 & g1 & H0 & Hzero & Hsh & Hs)%Gvec_new_Ok.
  destruct (classified_shells _ _ _ Hsh) as (keys & Hsorted & Hlens & Hshell & Hkeys).
  pose proof (λ n, find_shells_used gk_key g0 g1 n Hsh) as Hused.
  pose proof (Gvec_indexed_inv _ _ _ _ _ _ _ H0) as [_ _ Hnum _ Hfull].
  assert (0 < num_gvec_ g0) as Hpos.
  { unfold gvec in Hzero. apply bind_Ok in Hzero as (p & [_ Hp]%at_Ok & _).
    apply lookup_lt_Some in Hp. rewrite Hfull in Hp.
    pose proof (build_index_length (z_columns_ g0) 0 0 ∅) as Hlen. unfold size in Hlen.
    lia. }
  apply find_shells_frame in Hsh as Hframe. destruct Hframe as (sh & lens & ->).
  pose proof (λ ig, gvec_same_fine_grained _ _ ig Hs) as Hgvec.
  unfold shell in *.
  rewrite (same_shell _ _ Hs), (same_shell_len _ _ Hs), (same_num_gvec _ _ Hs),
    (same_num_shells _ _ Hs).
  cbn [with_shells num_gvec_ gvec_shell_ gvec_shell_len_ num_gvec_shells_] in *.
  exists keys. split; [done|]. split; [done|].
  split; [rewrite Hlens; unfold size; by rewrite length_fmap|].
  split; [done|]. split; [|split; [|done]].
  - intros ig Hig. destruct (Hshell ig Hig) as (gk & n & Hgk & Hn & Hkey).
    exists gk, n. by rewrite Hgvec, with_shells_same.
  - intros k Hk. destruct (Hkeys k Hk) as (ig & gk & Hig & Hgk & Hkey).
    exists ig, gk. by rewrite Hgvec, with_shells_same.
Qed.

(** C6 (as amended): in a constructed set the shells are numbered in the
    order of the quantised length of G + vk, the key
    [size_t(|G + vk| * 1e10)], and the shell of a G-vector has the double
    [static_cast<double>(key) * 1e-10] of the key of the G-vector as its
    length; the keys being [size_t] values, below 2^64, the lengths of the
    shells do not decrease with the shell number.  Shell 0 has the length 0
    and holds the zero vector alone when the quantised length of the zero
    vector is 0 and that of every other G-vector of the set is not. *)
Theorem shells_ordered_by_length
    in_cutoff gk_key sorter fft_box num_ranks fft_comm reduce_gvec g :
  Gvec_new in_cutoff gk_key sorter fft_box num_ranks fft_comm reduce_gvec = Ok g →
  ((∀ ig gk, gvec g ig = Ok gk → (gk_key gk < 2 ^ 64)%N) →
   StronglySorted double_le (gvec_shell_len_ g)) ∧
  (∀ ig, 0 ≤ ig < num_gvec_ g →
     ∃ gk n, gvec g ig = Ok gk ∧ shell g ig = Ok n ∧
             shell_len g n = Ok (shell_length (gk_key gk))) ∧
  (∀ ig1 ig2 gk1 gk2 n1 n2,
     0 ≤ ig1 < num_gvec_ g → 0 ≤ ig2 < num_gvec_ g →
     gvec g ig1 = Ok gk1 → gvec g ig2 = Ok gk2 →
     shell g ig1 = Ok n1 → shell g ig2 = Ok n2 →
     (n1 ≤ n2 ↔ (gk_key gk1 ≤ gk_key gk2)%N)) ∧
  (gk_key (0, 0, 0) = 0%N →
   (∀ ig gk, 0 < ig < num_gvec_ g → gvec g ig = Ok gk → gk_key gk ≠ 0%N) →
   shell_len g 0 = Ok (S754_zero false) ∧
   ∀ ig, 0 ≤ ig < num_gvec_ g → (shell g ig = Ok 0 ↔ ig = 0)).
Proof.
  intros Hg.
  destruct (Gvec_new_shells _ _ _ _ _ _ _ _ Hg)
    as (keys & Hsorted & Hlens & Hnum & Hpos & Hshell & Hkeys & _).
  apply Gvec_new_Ok in Hg as (g0 & g1 & _ & Hzero & Hsh & Hs).
  assert (gvec g 0 = Ok (0, 0, 0)) as Hzero'.
  { apply find_shells_frame in Hsh as (sh & lens & ->).
    by rewrite (gvec_same_fine_grained _ _ 0 Hs), with_shells_same. }
  assert (∀ n k, at_ keys n = Ok k → shell_len g n = Ok (shell_length k)) as Hlen.
  { intros n k [Hn Hk]%at_Ok. apply at_Ok. split; [done|].
    by rewrite Hlens, list_lookup_fmap, Hk. }
  split; [|split; [|split]].
  - intros Hsmall. rewrite Hlens. apply shell_lengths_sorted; [done|].
    apply Forall_forall. intros k Hk.
    destruct (Hkeys k Hk) as (ig & gk & _ & Hgk & <-). by apply (Hsmall ig).
  - intros ig Hig. destruct (Hshell ig Hig) as (gk & n & Hgk & Hn & Hkey).
    exists gk, n. split; [done|]. split; [done|]. by apply Hlen.
  - intros ig1 ig2 gk1 gk2 n1 n2 Hig1 Hig2 Hg1 Hg2 Hn1 Hn2.
    destruct (Hshell ig1 Hig1) as (gk1' & n1' & Hg1' & Hn1' & Hk1).
    destruct (Hshell ig2 Hig2) as (gk2' & n2' & Hg2' & Hn2' & Hk2).
    rewrite Hg1 in Hg1'. rewrite Hg2 in Hg2'. rewrite Hn1 in Hn1'. rewrite Hn2 in Hn2'.
    injection Hg1' as <-. injection Hg2' as <-. injection Hn1' as <-. injection Hn2' as <-.
    destruct (sorted_keys_order keys n1 n2 _ _ Hsorted Hk1 Hk2) as [Hlt Heq].
    split.
    + intros Hle. destruct (decide (n1 = n2)) as [Hn|Hn].
      * apply Heq in Hn. lia.
      * assert (n1 < n2) as Hn' by lia. apply Hlt in Hn'. lia.
    + intros Hle. destruct (decide (gk_key gk1 = gk_key gk2)) as [Hk|Hk].
      * apply Heq in Hk. lia.
      * assert (gk_key gk1 < gk_key gk2)%N as Hk' by lia. apply Hlt in Hk'. lia.
  - intros Hkey0 Hothers.
    destruct (Hshell 0 ltac:(lia)) as (gk0 & n0 & Hgk0 & Hn0 & Hk0).
    rewrite Hzero' in Hgk0. injection Hgk0 as <-. rewrite Hkey0 in Hk0.
    assert (n0 = 0) as ->.
    { apply at_Ok in Hk0 as Hk0'. destruct Hk0' as [Hn0' Hl0].
      destruct (decide (n0 = 0)) as [|Hne]; [done|]. exfalso.
      destruct (lookup_lt_is_Some_2 keys 0%nat) as [k Hk];
        [apply lookup_lt_Some in Hl0; lia|].
      pose proof (StronglySorted_lookup _ _ _ _ _ _ Hsorted Hk Hl0 ltac:(lia)) as Hlt. lia. }
    split; [by rewrite (Hlen 0 0%N Hk0), shell_length_0|].
    intros ig Hig. split; [|by intros ->].
    intros Hig0. destruct (decide (ig = 0)) as [|Hne]; [done|]. exfalso.
    destruct (Hshell ig Hig) as (gk & n & Hgk & Hn & Hkey).
    rewrite Hig0 in Hn. injection Hn as <-.
    rewrite Hk0 in Hkey. injection Hkey as Hkey.
    by apply (Hothers ig gk ltac:(lia) Hgk).
Qed.

Lemma zone_boundary_gvec_Ok :
  Gvec_new zone_boundary zone_boundary_key stable_sort (cubic_box 5) 1 (mk_comm 1 0) false =
  Ok zone_boundary_gvec.
Proof. vm_compute. reflexivity. Qed.

(** The quantised lengths of the G-vectors of a set are below 2^64 when a
    run over the indices finds them so. *)
Lemma keys_small_check (gk_key : Z * Z * Z → N) (g : Gvec) :
  forallb (λ ig, match gvec g ig with
                 | Ok gk => (gk_key gk <? 2 ^ 64)%N
                 | Fail _ => true
                 end) (seqZ 0 (size (gvec_full_index_ g))) = true →
  ∀ ig gk, gvec g ig = Ok gk → (gk_key gk < 2 ^ 64)%N.
Proof.
  intros Hall ig gk Hgk. rewrite forallb_forall in Hall.
  specialize (Hall ig). rewrite Hgk in Hall. apply N.ltb_lt, Hall, list_elem_of_In.
  unfold gvec in Hgk. apply bind_Ok in Hgk as (p & [Hig Hp%lookup_lt_Some]%at_Ok & _).
  apply elem_of_seqZ. unfold size. lia.
Qed.

Lemma flat_cell_keys_small :
  ∀ ig gk, gvec flat_cell_gvec ig = Ok gk → (flat_cell_key gk < 2 ^ 64)%N.
Proof. apply keys_small_check. vm_compute. reflexivity. Qed.

Lemma shells_ordered_by_length_witness :
  Gvec_new flat_cell flat_cell_key stable_sort (cubic_box 5) 4 (mk_comm 1 0) false =
    Ok flat_cell_gvec ∧
  StronglySorted double_le (gvec_shell_len_ flat_cell_gvec) ∧
  gvec_shell_ flat_cell_gvec = [0; 1; 2; 2; 1; 2; 2; 2; 2].
Proof.
  split; [vm_compute; reflexivity|]. split; [|vm_compute; reflexivity].
  refine (proj1 (shells_ordered_by_length flat_cell flat_cell_key stable_sort (cubic_box 5) 4
                   (mk_comm 1 0) false flat_cell_gvec _) flat_cell_keys_small).
  vm_compute. reflexivity.
Defined.

(** C6 as stated fails for vk = (1/2, 0, 0): the set holds (0, 0, 0) and
    (-1, 0, 0), both in shell 0, whose length is 1/2. *)
Lemma shell_zero_not_the_zero_vector :
  ¬ (∀ in_cutoff gk_key sorter fft_box num_ranks fft_comm reduce_gvec g,
       Gvec_new in_cutoff gk_key sorter fft_box num_ranks fft_comm reduce_gvec = Ok g →
       (∀ i j a b, gvec_shell_len_ g !! i = Some a → gvec_shell_len_ g !! j = Some b →
                   (i ≤ j)%nat → double_le a b) ∧
       (∃ len, shell_len g 0 = Ok len ∧ SFeqb len (S754_zero false) = true) ∧
       (∀ ig, 0 ≤ ig < num_gvec_ g → (shell g ig = Ok 0 ↔ gvec g ig = Ok (0, 0, 0)))).
Proof.
  intros H.
  destruct (H zone_boundary zone_boundary_key stable_sort (cubic_box 5) 1 (mk_comm 1 0)
              false zone_boundary_gvec zone_boundary_gvec_Ok) as (_ & _ & Hzero).
  assert (num_gvec_ zone_boundary_gvec = 2) as Hnum by (vm_compute; reflexivity).
  assert (0 ≤ 1 < num_gvec_ zone_boundary_gvec) as H1 by (rewrite Hnum; lia).
  apply Hzero in H1 as [H1 _].
  assert (shell zone_boundary_gvec 1 = Ok 0) as Hs by (vm_compute; reflexivity).
  apply H1 in Hs.
  assert (gvec zone_boundary_gvec 1 = Ok (-1, 0, 0)) as Hg by (vm_compute; reflexivity).
  rewrite Hg in Hs. discriminate Hs.
Qed.

(** The length of shell 0 of that set is the double 1/2, and the other
    two parts of C6 as stated hold there. *)
Example zone_boundary_shell_0 :
  shell_len zone_boundary_gvec 0 = Ok (S754_finite false 4503599627370496 (-53)) ∧
  num_gvec_shells_ zone_boundary_gvec = 1.
Proof. vm_compute. done. Qed.

(** Two shells can have the same length: the quantised lengths
    12000000000000038 and 12000000000000040 are the keys of two shells, and
    both shells get the double 1200000.000000004. *)
Example shells_can_share_a_length :
  Gvec_new zone_boundary close_key stable_sort (cubic_box 5) 1 (mk_comm 1 0) false =
    Ok close_shells_gvec ∧
  gvec_shell_ close_shells_gvec = [0; 1] ∧
  num_gvec_shells_ close_shells_gvec = 2 ∧
  gvec_shell_len_ close_shells_gvec =
    [S754_finite false 5153960755200017 (-32); S754_finite false 5153960755200017 (-32)].
Proof. vm_compute. done. Qed.

(** ** Sums over blocks of ranks *)

Lemma alter_add_add (l : list Z) (k : nat) (a b : Z) :
  alter (λ n, n + b) k (alter (λ n, n + a) k l) = alter (λ n, n + (a + b)) k l.
Proof.
  unfold alter. revert k. induction l as [|x l IH]; intros [|k]; simpl; try done.
  - f_equal. lia.
  - by rewrite IH.
Qed.

Lemma alter_add_0 (l : list Z) (k : nat) : alter (λ n, n + 0) k l = l.
Proof.
  unfold alter. revert k. induction l as [|x l IH]; intros [|k]; simpl; try done.
  - f_equal. lia.
  - by rewrite IH.
Qed.

Lemma sumZ_take_S (l : list Z) (m : nat) (a : Z) :
  l !! m = Some a → sumZ (take (S m) l) = sumZ (take m l) + a.
Proof.
  intros H. rewrite (take_S_r _ _ _ H), sumZ_app, sumZ_cons. simpl. lia.
Qed.

Lemma group_sum_prefix (nrc : nat) (l : list Z) (k : nat) :
  sumZ (take (S k * nrc) l) = sumZ (take (k * nrc) l) + group_sum nrc l k.
Proof.
  unfold group_sum. rewrite <- sumZ_app, take_take_drop. f_equal. f_equal. lia.
Qed.

Lemma sumZ_groups (nrc : nat) (l : list Z) (F k : nat) :
  (k ≤ F)%nat → sumZ (take k (group_sum nrc l <$> seq 0 F)) = sumZ (take (k * nrc) l).
Proof.
  induction k as [|k IH]; intros Hk; [done|].
  rewrite (sumZ_take_S _ _ (group_sum nrc l k)).
  - rewrite IH by lia. by rewrite group_sum_prefix.
  - rewrite list_lookup_fmap, lookup_seq_lt by lia. done.
Qed.

Lemma prefix_sums_length (a : Z) (l : list Z) : length (prefix_sums a l) = length l.
Proof. revert a. induction l as [|c l IH]; intros a; simpl; [done|]. by rewrite IH. Qed.

Lemma prefix_sums_lookup (l : list Z) : ∀ (a : Z) (k : nat),
  (k < length l)%nat → prefix_sums a l !! k = Some (a + sumZ (take k l)).
Proof.
  induction l as [|c l IH]; intros a [|k] Hk; simpl in *; try lia.
  - f_equal. lia.
  - rewrite IH by lia. f_equal. fold (sumZ (take k l)). lia.
Qed.

Lemma prefix_sums_last (l : list Z) : ∀ (a o c : Z),
  last (prefix_sums a l) = Some o → last l = Some c → o + c = a + sumZ l.
Proof.
  induction l as [|x l IH]; intros a o c; [done|].
  destruct l as [|y l].
  - simpl. intros [= <-] [= <-]. lia.
  - change (prefix_sums a (x :: y :: l)) with (a :: prefix_sums (a + x) (y :: l)).
    change (prefix_sums (a + x) (y :: l)) with ((a + x) :: prefix_sums (a + x + y) l).
    rewrite !last_cons_cons. intros Ho Hc.
    change ((a + x) :: prefix_sums (a + x + y) l) with (prefix_sums (a + x) (y :: l)) in Ho.
    rewrite (sumZ_cons x). specialize (IH _ _ _ Ho Hc). lia.
Qed.

(** ** Columns per rank *)

Lemma sumZ_sizes {A : Type} (L : list (list A)) : sumZ (size <$> L) = size (concat L).
Proof.
  induction L as [|l L IH]; [done|].
  rewrite fmap_cons, sumZ_cons, IH. simpl. by rewrite size_app.
Qed.

Lemma sumZ_loads (L : list (list z_column_descriptor)) :
  sumZ ((λ l, sumZ (zsize <$> l)) <$> L) = sumZ (zsize <$> concat L).
Proof.
  induction L as [|l L IH]; [done|].
  rewrite fmap_cons, sumZ_cons, IH. simpl. by rewrite fmap_app, sumZ_app.
Qed.

Lemma take_drop_block {A : Type} (a b c : list A) :
  take (length b) (drop (length a) (a ++ b ++ c)) = b.
Proof. by rewrite drop_app_length, take_app_length. Qed.

Lemma concat_take_drop {A : Type} (L : list (list A)) (k n : nat) :
  take (length (concat (take n (drop k L)))) (drop (length (concat (take k L))) (concat L)) =
  concat (take n (drop k L)).
Proof.
  assert (concat L = concat (take k L) ++ concat (take n (drop k L)) ++
                     concat (drop n (drop k L))) as ->
    by (by rewrite <- !concat_app, !take_drop).
  apply take_drop_block.
Qed.

Lemma group_sum_sizes {A : Type} (L : list (list A)) (nrc k : nat) :
  group_sum nrc (size <$> L) k = size (concat (take nrc (drop (k * nrc) L))).
Proof. unfold group_sum. by rewrite <- fmap_drop, <- fmap_take, sumZ_sizes. Qed.

Lemma group_sum_loads (L : list (list z_column_descriptor)) (nrc k : nat) :
  group_sum nrc ((λ l, sumZ (zsize <$> l)) <$> L) k =
  sumZ (zsize <$> concat (take nrc (drop (k * nrc) L))).
Proof. unfold group_sum. by rewrite <- fmap_drop, <- fmap_take, sumZ_loads. Qed.

(** ** The tables of the FFT communicator in closed form *)

Lemma at_nat {A : Type} (v : list A) (k : nat) (a : A) :
  v !! k = Some a → at_ v (Z.of_nat k) = Ok a.
Proof. intros H. apply at_Ok. rewrite Nat2Z.id. split; [lia|done]. Qed.

(** The loop over the fine-grained ranks of one rank of the FFT
    communicator adds the sums of their counts. *)
Lemma add_fine_ranks g (k n m : nat) (acc : list Z * list Z) :
  (m ≤ n)%nat →
  (k * n + n ≤ length (counts (gvec_distr_ g)))%nat →
  (k * n + n ≤ length (counts (zcol_distr_ g)))%nat →
  foldM (add_fine_rank g (Z.of_nat k) (Z.of_nat n)) acc (seqZ 0 (Z.of_nat m)) =
    Ok (alter (λ x, x + sumZ (take m (drop (k * n) (counts (gvec_distr_ g))))) k acc.1,
        alter (λ x, x + sumZ (take m (drop (k * n) (counts (zcol_distr_ g))))) k acc.2).
Proof.
  intros Hm Hg Hz. induction m as [|m IH].
  - simpl. rewrite !alter_add_0. by destruct acc.
  - rewrite seqZ_S, foldM_snoc, IH by lia. simpl. unfold add_fine_rank.
    destruct (lookup_lt_is_Some_2 (counts (gvec_distr_ g)) (k * n + m)) as [a Ha]; [lia|].
    destruct (lookup_lt_is_Some_2 (counts (zcol_distr_ g)) (k * n + m)) as [b Hb]; [lia|].
    replace (Z.of_nat k * Z.of_nat n + (0 + Z.of_nat m)) with (Z.of_nat (k * n + m)) by lia.
    rewrite (at_nat _ _ _ Ha), (at_nat _ _ _ Hb). simpl.
    rewrite Nat2Z.id, !alter_add_add.
    rewrite (sumZ_take_S _ m a) by (by rewrite lookup_drop).
    rewrite (sumZ_take_S _ m b) by (by rewrite lookup_drop).
    done.
Qed.

Lemma alter_next_zero (f : Z → Z) (xs : list Z) (n : nat) :
  alter f (length xs) (xs ++ replicate (S n) 0) = (xs ++ [f 0]) ++ replicate n 0.
Proof.
  replace (length xs) with (length xs + 0)%nat at 1 by lia.
  rewrite alter_app_r. simpl. by rewrite <- app_assoc.
Qed.

Lemma fft_ranks_loop g (F n m : nat) :
  (m ≤ F)%nat →
  (F * n ≤ length (counts (gvec_distr_ g)))%nat →
  (F * n ≤ length (counts (zcol_distr_ g)))%nat →
  foldM (λ acc rank, foldM (add_fine_rank g rank (Z.of_nat n)) acc (seqZ 0 (Z.of_nat n)))
        (replicate F 0, replicate F 0) (seqZ 0 (Z.of_nat m)) =
    Ok ((group_sum n (counts (gvec_distr_ g)) <$> seq 0 m) ++ replicate (F - m) 0,
        (group_sum n (counts (zcol_distr_ g)) <$> seq 0 m) ++ replicate (F - m) 0).
Proof.
  intros Hm Hg Hz. induction m as [|m IH].
  - simpl. by rewrite Nat.sub_0_r.
  - rewrite seqZ_S, foldM_snoc, IH by lia.
    rewrite seq_S, !fmap_app.
    replace (F - m)%nat with (S (F - S m)) by lia.
    cbn [mbind result_bind]. rewrite Z.add_0_l, add_fine_ranks by nia.
    cbn [fst snd fmap list_fmap].
    pose proof (alter_next_zero
      (λ x, x + group_sum n (counts (gvec_distr_ g)) m)
      (group_sum n (counts (gvec_distr_ g)) <$> seq 0 m) (F - S m)) as H1.
    pose proof (alter_next_zero
      (λ x, x + group_sum n (counts (zcol_distr_ g)) m)
      (group_sum n (counts (zcol_distr_ g)) <$> seq 0 m) (F - S m)) as H2.
    rewrite length_fmap, length_seq in H1, H2.
    unfold group_sum in *. by rewrite H1, H2.
Qed.

(** [build_fft_distr]: the count of a rank of the FFT communicator is the
    sum over its block of fine-grained ranks. *)
Lemma build_fft_distr_Ok g (F n : nat) :
  comm_size (fft_comm_ g) = Z.of_nat F → (0 < F)%nat →
  num_ranks_ g = Z.of_nat (F * n) →
  size (counts (gvec_distr_ g)) = num_ranks_ g →
  size (counts (zcol_distr_ g)) = num_ranks_ g →
  build_fft_distr g =
    Ok (with_fft_distr
          (calc_block_offsets
             (mk_block (group_sum n (counts (gvec_distr_ g)) <$> seq 0 F) []))
          (calc_block_offsets
             (mk_block (group_sum n (counts (zcol_distr_ g)) <$> seq 0 F) []))
          g).
Proof.
  intros HF HF0 HR Hg Hz. unfold build_fft_distr.
  assert (ranks_per_fft_rank g = Ok (Z.of_nat n)) as ->.
  { destruct (ranks_per_fft_rank_exact g) as (nrc & -> & Hnrc).
    - lia.
    - rewrite HF, HR. exists (Z.of_nat n). lia.
    - f_equal. rewrite HF, HR in Hnrc. nia. }
  unfold block_new. rewrite HF, bool_decide_eq_true_2 by lia. simpl.
  rewrite Nat2Z.id, fft_ranks_loop; unfold size in *; try lia.
  simpl. by rewrite Nat.sub_diag, !app_nil_r.
Qed.

(** ** The offsets of the columns *)

Lemma content_length (cols cols' : list z_column_descriptor) :
  col_content <$> cols = col_content <$> cols' → length cols = length cols'.
Proof. intros H. by rewrite <- (length_fmap col_content cols), H, length_fmap. Qed.

(** The loop over the columns of one rank of the FFT communicator ends with
    the number of G-vectors of these columns. *)
Lemma offsets_loop g (k o : nat) (cols0 cols : list z_column_descriptor) (a : Z) (m : nat) :
  offsets (zcol_distr_fft_ g) !! k = Some (Z.of_nat o) →
  col_content <$> cols = col_content <$> cols0 →
  (o + m ≤ length cols0)%nat →
  ∃ cols',
    foldM (offset_of_column g (Z.of_nat k)) (cols, a) (seqZ 0 (Z.of_nat m)) =
      Ok (cols', a + sumZ (take m (drop o (zsize <$> cols0)))) ∧
    col_content <$> cols' = col_content <$> cols0.
Proof.
  intros Ho Hc. induction m as [|m IH]; intros Hm.
  - exists cols. simpl. split; [|done]. do 2 f_equal. lia.
  - destruct IH as (cols1 & Hloop & Hc1); [lia|].
    rewrite seqZ_S, foldM_snoc, Hloop. cbn [mbind result_bind].
    unfold offset_of_column. rewrite (at_nat _ _ _ Ho). cbn [mbind result_bind fst snd].
    replace (Z.of_nat o + (0 + Z.of_nat m)) with (Z.of_nat (o + m)) by lia.
    destruct (lookup_lt_is_Some_2 cols1 (o + m)) as [c Hcol];
      [rewrite (content_length _ _ Hc1); lia|].
    rewrite (at_nat _ _ _ Hcol). cbn [mbind result_bind]. rewrite Nat2Z.id.
    eexists. split.
    + f_equal. f_equal.
      rewrite (sumZ_take_S _ m (zsize c)); [lia|].
      rewrite lookup_drop, <- (zsize_content_fmap _ _ Hc1), list_lookup_fmap, Hcol. done.
    + rewrite list_fmap_insert, col_content_set_offset, <- Hc1.
      apply list_insert_id. by rewrite list_lookup_fmap, Hcol.
Qed.

Section fft_tables.
Variable g : Gvec.
Variable locals : list (list z_column_descriptor).
Variables F n : nat.
Hypothesis comm_is_F : comm_size (fft_comm_ g) = Z.of_nat F.
Hypothesis locals_F_n : length locals = (F * n)%nat.
Hypothesis zcol_fft_counts :
  counts (zcol_distr_fft_ g) = group_sum n (size <$> locals) <$> seq 0 F.
Hypothesis zcol_fft_offsets :
  offsets (zcol_distr_fft_ g) = prefix_sums 0 (counts (zcol_distr_fft_ g)).
Hypothesis gvec_fft_counts :
  counts (gvec_distr_fft_ g) =
    group_sum n ((λ l, sumZ (zsize <$> l)) <$> locals) <$> seq 0 F.

Lemma offsets_of_rank_total (cols : list z_column_descriptor) (k : nat) :
  (k < F)%nat →
  col_content <$> cols = col_content <$> concat locals →
  ∃ cols', offsets_of_rank g cols (Z.of_nat k) = Ok cols' ∧
           col_content <$> cols' = col_content <$> concat locals.
Proof.
  intros Hk Hc. unfold offsets_of_rank.
  assert (counts (zcol_distr_fft_ g) !! k =
          Some (Z.of_nat (length (concat (take n (drop (k * n) locals)))))) as Hnum.
  { rewrite zcol_fft_counts, list_lookup_fmap, lookup_seq_lt by done.
    simpl. by rewrite group_sum_sizes. }
  assert (offsets (zcol_distr_fft_ g) !! k =
          Some (Z.of_nat (length (concat (take (k * n) locals))))) as Hoff.
  { rewrite zcol_fft_offsets, prefix_sums_lookup
      by (rewrite zcol_fft_counts, length_fmap, length_seq; lia).
    rewrite zcol_fft_counts, sumZ_groups by lia.
    by rewrite <- fmap_take, sumZ_sizes. }
  assert (counts (gvec_distr_fft_ g) !! k =
          Some (sumZ (zsize <$> concat (take n (drop (k * n) locals))))) as Htot.
  { rewrite gvec_fft_counts, list_lookup_fmap, lookup_seq_lt by done.
    simpl. by rewrite group_sum_loads. }
  rewrite (at_nat _ _ _ Hnum). cbn [mbind result_bind].
  destruct (offsets_loop g k _ (concat locals) cols 0
              (length (concat (take n (drop (k * n) locals)))) Hoff Hc)
    as (cols' & -> & Hc').
  { assert (concat locals = concat (take (k * n) locals) ++
              concat (take n (drop (k * n) locals)) ++
              concat (drop n (drop (k * n) locals))) as Hsplit
      by (by rewrite <- !concat_app, !take_drop).
    apply (f_equal length) in Hsplit. rewrite !length_app in Hsplit. lia. }
  cbn [mbind result_bind fst snd]. rewrite (at_nat _ _ _ Htot). cbn [mbind result_bind].
  rewrite <- fmap_drop, <- fmap_take, concat_take_drop, Z.add_0_l.
  rewrite bool_decide_eq_true_2 by done. simpl. eauto.
Qed.

Lemma calc_offsets_total :
  col_content <$> z_columns_ g = col_content <$> concat locals →
  ∃ g', calc_offsets g = Ok g'.
Proof.
  intros Hc. unfold calc_offsets.
  edestruct (foldM_total (λ cols, col_content <$> cols = col_content <$> concat locals)
               (λ rank, 0 ≤ rank < Z.of_nat F) (offsets_of_rank g)) as (cols & -> & _);
    [|apply Forall_seqZ; rewrite comm_is_F; intros; lia|exact Hc|simpl; eauto].
  intros cols rank Hrank Hcols.
  replace rank with (Z.of_nat (Z.to_nat rank)) by lia.
  apply offsets_of_rank_total; [lia|done].
Qed.

(** ** The slab of a rank *)

Lemma slab_loop (k m : nat) :
  (k < F)%nat → (m ≤ n)%nat →
  counts (gvec_distr_ g) = (λ l, sumZ (zsize <$> l)) <$> locals →
  num_ranks_ g = Z.of_nat (F * n) →
  foldM (slab_count g (Z.of_nat k) (Z.of_nat n)) (replicate n 0) (seqZ 0 (Z.of_nat m)) =
    Ok (take m (drop (k * n) (counts (gvec_distr_ g))) ++ replicate (n - m) 0).
Proof.
  intros Hk Hm Hg HR. induction m as [|m IH].
  - simpl. by rewrite Nat.sub_0_r.
  - rewrite seqZ_S, foldM_snoc, IH by lia. cbn [mbind result_bind].
    unfold slab_count, gvec_count.
    rewrite bool_decide_eq_true_2 by nia. cbn [assertion mbind result_bind].
    destruct (lookup_lt_is_Some_2 (counts (gvec_distr_ g)) (k * n + m)) as [a Ha];
      [rewrite Hg, length_fmap; nia|].
    replace (Z.of_nat k * Z.of_nat n + (0 + Z.of_nat m)) with (Z.of_nat (k * n + m)) by lia.
    rewrite (at_nat _ _ _ Ha). cbn [mbind result_bind]. f_equal.
    rewrite Z.add_0_l, Nat2Z.id.
    assert (length (take m (drop (k * n) (counts (gvec_distr_ g)))) = m) as Hlen
      by (rewrite length_take, length_drop, Hg, length_fmap; nia).
    rewrite insert_app_r_alt by lia. rewrite Hlen, Nat.sub_diag.
    replace (n - m)%nat with (S (n - S m)) by lia. simpl.
    rewrite (take_S_r _ _ a) by (by rewrite lookup_drop).
    by rewrite <- app_assoc.
Qed.

Lemma pile_gvec_total :
  (Z.to_nat (comm_rank (fft_comm_ g)) < F)%nat → 0 ≤ comm_rank (fft_comm_ g) →
  (0 < n)%nat →
  counts (gvec_distr_ g) = (λ l, sumZ (zsize <$> l)) <$> locals →
  num_ranks_ g = Z.of_nat (F * n) →
  ∃ g', pile_gvec g = Ok g'.
Proof.
  intros Hk Hk0 Hn Hg HR. unfold pile_gvec.
  assert (ranks_per_fft_rank g = Ok (Z.of_nat n)) as ->.
  { destruct (ranks_per_fft_rank_exact g) as (nrc & -> & Hnrc).
    - lia.
    - rewrite comm_is_F, HR. exists (Z.of_nat n). lia.
    - f_equal. rewrite comm_is_F, HR in Hnrc. nia. }
  cbn [mbind result_bind]. unfold block_new. rewrite bool_decide_eq_true_2 by lia.
  cbn [mbind result_bind counts offsets]. rewrite Nat2Z.id.
  replace (comm_rank (fft_comm_ g)) with (Z.of_nat (Z.to_nat (comm_rank (fft_comm_ g))))
    by lia.
  set (k := Z.to_nat (comm_rank (fft_comm_ g))) in *.
  rewrite (slab_loop k n) by (done || lia).
  cbn [mbind result_bind]. rewrite Nat.sub_diag, app_nil_r.
  set (cnts := take n (drop (k * n) (counts (gvec_distr_ g)))).
  assert (length cnts = n) as Hlen
    by (unfold cnts; rewrite length_take, length_drop, Hg, length_fmap; nia).
  unfold back, calc_block_offsets. cbn [counts offsets].
  destruct (last cnts) as [c|] eqn:Hc;
    [|apply last_None in Hc; rewrite Hc in Hlen; simpl in Hlen; lia].
  destruct (last (prefix_sums 0 cnts)) as [o|] eqn:Ho.
  2:{ apply last_None in Ho. apply (f_equal length) in Ho.
      rewrite prefix_sums_length in Ho. simpl in Ho. lia. }
  cbn [mbind result_bind].
  assert (counts (gvec_distr_fft_ g) !! k = Some (sumZ cnts)) as Htot.
  { rewrite gvec_fft_counts, list_lookup_fmap, lookup_seq_lt by done.
    simpl. unfold group_sum, cnts. by rewrite Hg. }
  rewrite (at_nat _ _ _ Htot). cbn [mbind result_bind].
  rewrite bool_decide_eq_true_2 by (rewrite (prefix_sums_last _ _ _ _ Ho Hc); lia).
  simpl. eauto.
Qed.
End fft_tables.

(** ** The tables of counts the distributor leaves *)

Lemma assign_column_counts R st c st' :
  zcol_counts st = size <$> zcols_local st →
  gvec_counts st = (λ l, sumZ (zsize <$> l)) <$> zcols_local st →
  assign_column R st c = Ok st' →
  zcol_counts st' = size <$> zcols_local st' ∧
  gvec_counts st' = (λ l, sumZ (zsize <$> l)) <$> zcols_local st'.
Proof.
  intros Hz Hg (pos & r & _ & ->)%assign_column_Ok. cbn [zcol_counts gvec_counts zcols_local].
  rewrite Hz, Hg. split; symmetry; apply list_fmap_alter, Forall_forall; intros l _.
  - rewrite size_app. unfold size. simpl. lia.
  - rewrite fmap_app, sumZ_app. simpl. lia.
Qed.

Lemma distribute_counts R cols st :
  distribute R cols = Ok st →
  length (zcols_local st) = R ∧
  zcol_counts st = size <$> zcols_local st ∧
  gvec_counts st = (λ l, sumZ (zsize <$> l)) <$> zcols_local st.
Proof.
  intros H. split; [apply (wf_local R), (distribute_wf R cols), H|].
  revert H. unfold distribute.
  apply (foldM_preserves (λ st, zcol_counts st = size <$> zcols_local st ∧
           gvec_counts st = (λ l, sumZ (zsize <$> l)) <$> zcols_local st)).
  - intros s c s' [Hz Hg]. by apply assign_column_counts.
  - simpl. by rewrite !fmap_replicate.
Qed.

Lemma distribute_no_ranks c cols : distribute 0 (c :: cols) = Fail Undefined.
Proof. done. Qed.

Lemma Gvec_indexed_distributed in_cutoff sorter fft_box num_ranks fft_comm reduce_gvec g :
  Gvec_indexed in_cutoff sorter fft_box num_ranks fft_comm reduce_gvec = Ok g →
  ∃ locals, distributed_inv g locals.
Proof.
  intros (cols & st & Hcols & HR & Hst & Hz & Hgd & Hzd & _ & _ & Hnum & _)%Gvec_indexed_Ok.
  exists (zcols_local st).
  destruct (distribute_counts _ _ _ Hst) as (Hlen & Hzc & Hgc).
  apply ordered_columns_Ok in Hcols as (en & c0 & rest & _ & _ & -> & _).
  split.
  - destruct (Z.to_nat num_ranks) as [|R] eqn:HR0; [|lia].
    by rewrite distribute_no_ranks in Hst.
  - unfold size. rewrite Hlen, Hnum. lia.
  - by rewrite Hz.
  - by rewrite Hzd.
  - by rewrite Hgd.
Qed.

Lemma distributed_same g g' locals :
  same_fine_grained g g' → distributed_inv g locals → distributed_inv g' locals.
Proof.
  intros Hs [H0 H1 H2 H3 H4]. split.
  - by rewrite (same_num_ranks _ _ Hs).
  - by rewrite (same_num_ranks _ _ Hs).
  - by rewrite (same_columns _ _ Hs).
  - by rewrite (same_zcol_distr _ _ Hs).
  - by rewrite (same_gvec_distr _ _ Hs).
Qed.

Lemma Gvec_new_distributed in_cutoff gk_key sorter fft_box num_ranks fft_comm reduce_gvec g :
  Gvec_new in_cutoff gk_key sorter fft_box num_ranks fft_comm reduce_gvec = Ok g →
  ∃ locals, distributed_inv g locals.
Proof.
  intros (g0 & g1 & H0 & _ & (sh & lens & ->)%find_shells_frame & Hs)%Gvec_new_Ok.
  apply Gvec_indexed_distributed in H0 as [locals Hd]. exists locals.
  apply (distributed_same (with_shells sh lens g0)); [done|].
  destruct Hd. by split.
Qed.

(** ** [prepare] on a distributed set *)

Lemma fft_stages_total g locals :
  distributed_inv g locals →
  0 < comm_size (fft_comm_ g) → (comm_size (fft_comm_ g) | num_ranks_ g) →
  0 ≤ comm_rank (fft_comm_ g) < comm_size (fft_comm_ g) →
  ∃ g', (g1 ← build_fft_distr g; g2 ← calc_offsets g1; pile_gvec g2) = Ok g'.
Proof.
  intros [Hpos HR Hc Hz Hg] HF [q Hq] Hrank.
  assert (0 < q) as Hq0 by nia.
  set (F := Z.to_nat (comm_size (fft_comm_ g))).
  set (n := Z.to_nat q).
  assert (comm_size (fft_comm_ g) = Z.of_nat F) as HFn by (unfold F; lia).
  assert (num_ranks_ g = Z.of_nat (F * n)) as HRn by (unfold F, n; nia).
  assert (length locals = (F * n)%nat) as Hlen by (unfold size in HR; lia).
  rewrite (build_fft_distr_Ok g F n HFn); [|lia|done|..];
    [|unfold size; rewrite ?Hg, ?Hz, length_fmap; lia..].
  cbn [mbind result_bind].
  set (g1 := with_fft_distr _ _ g).
  destruct (calc_offsets_total g1 locals F n) as [g2 Hg2]; try done.
  - unfold g1. cbn. by rewrite Hz.
  - unfold g1. cbn. by rewrite Hg.
  - rewrite Hg2. cbn [mbind result_bind].
    apply calc_offsets_frame in Hg2 as (cols & -> & Hcols).
    apply (pile_gvec_total (with_columns cols g1) locals F n); try done.
    + unfold g1. cbn. by rewrite Hg.
    + cbn. unfold F. lia.
    + cbn. lia.
    + unfold n. lia.
Qed.

(** [prepare] returns on every distributed set, for every communicator
    whose size divides the number of fine-grained ranks. *)
Theorem prepare_total c g locals :
  distributed_inv g locals →
  0 < comm_size c → (comm_size c | num_ranks_ g) → 0 ≤ comm_rank c < comm_size c →
  ∃ g', prepare c g = Ok g' ∧ distributed_inv g' locals.
Proof.
  intros Hd HF Hdiv Hrank.
  destruct (fft_stages_total (with_fft_comm c g) locals) as [g' Hg']; try done.
  - destruct Hd. by split.
  - exists g'. split; [done|].
    apply prepare_frame in Hg' as [Hs _]. by apply (distributed_same g).
Qed.

(** X1: once the shells are found, the constructor finishes for every
    communicator whose size divides the number of ranks and whose rank is
    below its size: the assertions of [calc_offsets] and of [pile_gvec]
    hold. *)
Theorem Gvec_new_total in_cutoff gk_key sorter fft_box num_ranks fft_comm reduce_gvec g1 :
  Gvec_classified in_cutoff gk_key sorter fft_box num_ranks fft_comm reduce_gvec = Ok g1 →
  0 < comm_size fft_comm → (comm_size fft_comm | num_ranks) →
  0 ≤ comm_rank fft_comm < comm_size fft_comm →
  ∃ g, Gvec_new in_cutoff gk_key sorter fft_box num_ranks fft_comm reduce_gvec = Ok g.
Proof.
  intros Hcl HF Hdiv Hrank. unfold Gvec_new. rewrite Hcl. cbn [mbind result_bind].
  pose proof (Gvec_classified_comm _ _ _ _ _ _ _ _ Hcl) as [Hc HR].
  unfold Gvec_classified in Hcl.
  apply bind_Ok in Hcl as (g0 & H0 & (u & _ & (sh & lens & ->)%find_shells_frame)%bind_Ok).
  apply Gvec_indexed_distributed in H0 as [locals Hd].
  apply (fft_stages_total _ locals).
  - destruct Hd. by split.
  - by rewrite Hc.
  - by rewrite Hc, HR.
  - by rewrite Hc.
Qed.

Lemma Gvec_new_total_witness :
  ∃ g, Gvec_new flat_cell flat_cell_key stable_sort (cubic_box 5) 4 (mk_comm 2 1) false = Ok g.
Proof.
  apply (Gvec_new_total flat_cell flat_cell_key stable_sort (cubic_box 5) 4 (mk_comm 2 1) false
           (built (Gvec_classified flat_cell flat_cell_key stable_sort (cubic_box 5) 4
                     (mk_comm 2 1) false))).
  - vm_compute. reflexivity.
  - cbn [comm_size]. lia.
  - by exists 2.
  - cbn [comm_size comm_rank]. lia.
Defined.

(** X2: [prepare] can be called again and again on a constructed set,
    with any communicators whose sizes divide the number of ranks, and the
    fine-grained part of the set stays as the constructor left it. *)
Theorem prepare_repeatable
    in_cutoff gk_key sorter fft_box num_ranks fft_comm reduce_gvec g (cs : list Communicator) :
  Gvec_new in_cutoff gk_key sorter fft_box num_ranks fft_comm reduce_gvec = Ok g →
  Forall (λ c, 0 < comm_size c ∧ (comm_size c | num_ranks) ∧
               0 ≤ comm_rank c < comm_size c) cs →
  ∃ g', foldM (λ g c, prepare c g) g cs = Ok g' ∧ same_fine_grained g g'.
Proof.
  intros Hg Hcs.
  destruct (Gvec_new_distributed _ _ _ _ _ _ _ _ Hg) as [locals Hd].
  assert (num_ranks_ g = num_ranks) as HR.
  { apply Gvec_new_Ok in Hg as (g0 & g1 & H0 & _ & (sh & lens & ->)%find_shells_frame & Hs).
    rewrite (same_num_ranks _ _ Hs). by apply Gvec_indexed_comm in H0 as [_ <-]. }
  edestruct (foldM_total (λ g', distributed_inv g' locals ∧ same_fine_grained g g')
               (λ c, 0 < comm_size c ∧ (comm_size c | num_ranks) ∧
                     0 ≤ comm_rank c < comm_size c)
               (λ g c, prepare c g) cs g) as (g' & Hg' & _ & Hs); [|done| |by eauto].
  - intros g1 c (HF & Hdiv & Hrank) [Hd1 Hs1].
    destruct (prepare_total c g1 locals) as (g2 & Hg2 & Hd2); try done.
    + by rewrite (same_num_ranks _ _ Hs1), HR.
    + exists g2. split; [done|]. split; [done|].
      eapply same_fine_grained_trans; [exact Hs1|]. by apply prepare_frame in Hg2 as [? _].
  - split; [done|apply same_fine_grained_refl].
Qed.

Lemma prepare_repeatable_witness :
  ∃ g', foldM (λ g c, prepare c g) flat_cell_gvec [mk_comm 2 1; mk_comm 4 3; mk_comm 1 0] =
          Ok g' ∧
        same_fine_grained flat_cell_gvec g'.
Proof.
  apply (prepare_repeatable flat_cell flat_cell_key stable_sort (cubic_box 5) 4
           (mk_comm 1 0) false).
  - exact flat_cell_gvec_Ok.
  - repeat constructor; cbn [comm_size comm_rank]; try lia.
    + by exists 2.
    + by exists 1.
    + by exists 4.
Defined.

(** ** The box [-2,2]^3 *)

(** With a cutoff that admits the 125 points there are 25 columns, and the
    column (0, 0) is the first one, with five z-entries. *)
Example whole_box_columns :
  Gvec_new whole_box unit_key stable_sort (cubic_box 5) 1 (mk_comm 1 0) false =
    Ok (whole_box_gvec 1 false) ∧
  num_gvec_ (whole_box_gvec 1 false) = 125 ∧
  size (z_columns_ (whole_box_gvec 1 false)) = 25 ∧
  head (col_content <$> z_columns_ (whole_box_gvec 1 false)) = Some (0, 0, [0; 1; 2; -2; -1]).
Proof.
  split; [vm_compute; reflexivity|]. split; [vm_compute; reflexivity|].
  split; vm_compute; reflexivity.
Qed.

(** With the reduction by inversion symmetry one column of each pair (x, y),
    (-x, -y) is kept, and the column (0, 0) keeps its z >= 0. *)
Example whole_box_reduced :
  Gvec_new whole_box unit_key stable_sort (cubic_box 5) 1 (mk_comm 1 0) true =
    Ok (whole_box_gvec 1 true) ∧
  num_gvec_ (whole_box_gvec 1 true) = 63 ∧
  (λ c, (col_xy c, zsize c)) <$> z_columns_ (whole_box_gvec 1 true) =
    [((0, 0), 3); ((-2, -1), 5); ((-2, 0), 5); ((-2, 1), 5); ((-2, 2), 5);
     ((-1, -2), 5); ((-1, -1), 5); ((-1, 0), 5); ((-1, 1), 5); ((-1, 2), 5);
     ((0, -2), 5); ((0, -1), 5); ((-2, -2), 5)].
Proof.
  split; [vm_compute; reflexivity|]. split; vm_compute; reflexivity.
Qed.

(** On four ranks the counts add up to 125 and differ by the length of a
    column at most. *)
Example whole_box_four_ranks :
  Gvec_new whole_box unit_key stable_sort (cubic_box 5) 4 (mk_comm 1 0) false =
    Ok (whole_box_gvec 4 false) ∧
  counts (gvec_distr_ (whole_box_gvec 4 false)) = [35; 30; 30; 30] ∧
  counts (zcol_distr_ (whole_box_gvec 4 false)) = [7; 6; 6; 6].
Proof.
  split; [vm_compute; reflexivity|]. split; vm_compute; reflexivity.
Qed.

(** * Further properties of the G-vector set *)

(** ** The examples *)

Lemma flat_cell_columns :
  z_columns_ flat_cell_gvec =
    [mk_z_column 0 0 [0; 1; 2; -2; -1] (Some 0); mk_z_column 0 (-1) [0] (Some 5);
     mk_z_column 1 0 [0] (Some 6); mk_z_column (-1) 0 [0] (Some 7);
     mk_z_column 0 1 [0] (Some 8)].
Proof. vm_compute. reflexivity. Qed.

Lemma flat_cell_short : Forall (λ c, zsize c ≤ 4096) (z_columns_ flat_cell_gvec).
Proof. rewrite flat_cell_columns. repeat constructor; vm_compute; discriminate. Qed.

Lemma flat_cell_wrapped : Forall wrapped (z_columns_ flat_cell_gvec).
Proof. rewrite flat_cell_columns. repeat constructor; vm_compute; reflexivity. Qed.

Lemma flat_cell_gvec2_Ok : prepare (mk_comm 2 1) flat_cell_gvec = Ok flat_cell_gvec2.
Proof. vm_compute. reflexivity. Qed.

Lemma whole_box_reduced_Ok :
  Gvec_new whole_box unit_key stable_sort (cubic_box 5) 1 (mk_comm 1 0) true =
    Ok (whole_box_gvec 1 true).
Proof. vm_compute. reflexivity. Qed.

Lemma cubic_box_5_injective (reduce_gvec : bool) (i j a b : Z) :
  0 ≤ a ≤ zmax (cubic_box 5) reduce_gvec i j → 0 ≤ b ≤ zmax (cubic_box 5) reduce_gvec i j →
  gvec_by_coord (cubic_box 5) a 2 = gvec_by_coord (cubic_box 5) b 2 → a = b.
Proof.
  unfold zmax, cubic_box. cbn [limits grid_size gvec_by_coord fst snd].
  change (5 `quot` 2) with 2.
  destruct (reduce_gvec && bool_decide (i = 0) && bool_decide (j = 0));
    repeat case_bool_decide; lia.
Qed.

(** ** The columns and the index tables of a constructed set *)

Lemma build_index_content cols : ∀ cols' i ig by_xy,
  col_content <$> cols = col_content <$> cols' →
  build_index i ig cols by_xy = build_index i ig cols' by_xy.
Proof.
  induction cols as [|c cols IH]; intros [|c' cols'] i ig by_xy Hc; try done.
  rewrite !fmap_cons in Hc. injection Hc as Hx Hy Hz Hrest.
  rewrite !build_index_cons. unfold zsize. rewrite Hx, Hy, Hz.
  by rewrite (IH cols' _ _ _ Hrest).
Qed.

Lemma col_xy_content (cols cols' : list z_column_descriptor) :
  col_content <$> cols = col_content <$> cols' → col_xy <$> cols = col_xy <$> cols'.
Proof.
  intros Hc. change col_xy with ((λ t : Z * Z * list Z, t.1) ∘ col_content).
  by rewrite !list_fmap_compose, Hc.
Qed.

Lemma indexed_inv_same g g' :
  same_fine_grained g g' → indexed_inv g → indexed_inv g'.
Proof.
  intros Hs [Hnd Hne Hnum Hxy Hfull].
  pose proof (same_columns _ _ Hs) as Hc.
  split.
  - by rewrite (col_xy_content _ _ Hc).
  - apply (Forall_fmap zsize (λ n, 1 ≤ n)). rewrite (zsize_content_fmap _ _ Hc).
    by apply (Forall_fmap zsize (λ n, 1 ≤ n)).
  - by rewrite (same_num_gvec _ _ Hs), (zsize_content_fmap _ _ Hc).
  - by rewrite (same_by_xy _ _ Hs), (build_index_content _ _ _ _ _ Hc).
  - by rewrite (same_full_index _ _ Hs), (build_index_content _ _ _ _ _ Hc).
Qed.

Lemma content_size (cols cols' : list z_column_descriptor) :
  col_content <$> cols = col_content <$> cols' → size cols = size cols'.
Proof. intros H. unfold size. by rewrite (content_length _ _ H). Qed.

(** A constructed set has the index tables of its columns, and at most
    2^19 columns. *)
Lemma Gvec_new_indexed in_cutoff gk_key sorter fft_box num_ranks fft_comm reduce_gvec g :
  Gvec_new in_cutoff gk_key sorter fft_box num_ranks fft_comm reduce_gvec = Ok g →
  indexed_inv g ∧ size (z_columns_ g) ≤ 2 ^ 19.
Proof.
  intros (g0 & g1 & H0 & _ & Hsh & Hs)%Gvec_new_Ok.
  pose proof (Gvec_indexed_inv _ _ _ _ _ _ _ H0) as Hinv.
  pose proof (classified_few_columns _ _ _ Hinv Hsh) as Hfew.
  apply find_shells_frame in Hsh as (sh & lens & ->).
  split.
  - apply (indexed_inv_same (with_shells sh lens g0)); [done|].
    destruct Hinv. by split.
  - by rewrite (content_size _ _ (same_columns _ _ Hs)).
Qed.

Section decode.
Variable g : Gvec.
Hypothesis inv : indexed_inv g.
Hypothesis few : size (z_columns_ g) ≤ 2 ^ 19.
Hypothesis short : Forall (λ c, zsize c ≤ 4096) (z_columns_ g).

(** The G-vector at the position [j] of the column [k]. *)
Lemma gvec_at (k j : nat) c z :
  z_columns_ g !! k = Some c → col_z c !! j = Some z →
  gvec g (column_start (z_columns_ g) k + Z.of_nat j) = Ok (col_x c, col_y c, z).
Proof using inv few short.
  intros Hk Hj. destruct inv as [_ _ _ _ Hfull].
  assert (0 ≤ Z.of_nat j < zsize c) as Hjr
    by (apply lookup_lt_Some in Hj; unfold zsize, size; lia).
  pose proof (column_start_nonneg (z_columns_ g) k) as Hs0.
  destruct (pack_column (z_columns_ g) short few k c (Z.of_nat j) Hk Hjr) as [_ Hun].
  unfold gvec. rewrite Hfull.
  assert (at_ (build_index 0 0 (z_columns_ g) ∅).2
            (column_start (z_columns_ g) k + Z.of_nat j) = Ok (pack (Z.of_nat k) (Z.of_nat j)))
    as ->.
  { apply at_Ok. split; [lia|]. apply build_index_full.
    exists k, c, (Z.of_nat j). split; [done|]. split; [done|]. split; [lia|done]. }
  cbn [mbind result_bind]. unfold gvec_by_full_index. rewrite Hun. cbn [fst snd].
  apply lookup_lt_Some in Hk as Hklt.
  rewrite bool_decide_eq_true_2 by (unfold size; lia). cbn [assertion mbind result_bind].
  rewrite (at_nat _ _ _ Hk). cbn [mbind result_bind].
  rewrite bool_decide_eq_true_2 by lia. cbn [assertion mbind result_bind].
  by rewrite (at_nat _ _ _ Hj).
Qed.

(** Every G-vector of the set sits at a position of a column. *)
Lemma gvec_position ig v :
  gvec g ig = Ok v →
  ∃ (k j : nat) c z,
    z_columns_ g !! k = Some c ∧ col_z c !! j = Some z ∧
    ig = column_start (z_columns_ g) k + Z.of_nat j ∧ v = (col_x c, col_y c, z).
Proof using inv few short.
  intros Hv. pose proof Hv as Hv'. unfold gvec in Hv.
  apply bind_Ok in Hv as (p & [Hig Hp]%at_Ok & _).
  destruct inv as [_ _ _ _ Hfull]. rewrite Hfull in Hp.
  apply build_index_full in Hp as (k & c & j & Hk & Hj & Hn & _).
  destruct (lookup_lt_is_Some_2 (col_z c) (Z.to_nat j)) as [z Hz];
    [unfold zsize, size in Hj; lia|].
  exists k, (Z.to_nat j), c, z. split; [done|]. split; [done|].
  assert (ig = column_start (z_columns_ g) k + Z.of_nat (Z.to_nat j)) as Heq by lia.
  split; [done|].
  pose proof (gvec_at k (Z.to_nat j) c z Hk Hz) as Hat.
  rewrite <- Heq in Hat. congruence.
Qed.

End decode.

(** Decoding gives an entry of a column also when the columns are long. *)
Lemma gvec_member g ig x y z :
  gvec g ig = Ok (x, y, z) →
  ∃ c, c ∈ z_columns_ g ∧ col_x c = x ∧ col_y c = y ∧ z ∈ col_z c.
Proof.
  unfold gvec, gvec_by_full_index.
  intros (p & _ & (u & _ & (c & [_ Hc]%at_Ok & (u' & _ & (z' & [_ Hz]%at_Ok & Heq)%bind_Ok)%bind_Ok)%bind_Ok)%bind_Ok)%bind_Ok.
  injection Heq as <- <- <-. exists c.
  split; [by eapply list_elem_of_lookup_2|]. split; [done|]. split; [done|].
  by eapply list_elem_of_lookup_2.
Qed.

(** ** The columns of a constructed set are those of the enumerator *)

Lemma foldM_preserves_elem {A S : Type} (P : S → Prop) (f : S → A → result S) (l : list A) :
  (∀ s a s', a ∈ l → P s → f s a = Ok s' → P s') →
  ∀ s s', P s → foldM f s l = Ok s' → P s'.
Proof.
  induction l as [|a l IH]; intros Hstep s s' HP; simpl.
  - by intros [= <-].
  - intros (s1 & H1 & H2)%bind_Ok. apply (IH (λ s0 a0 s0' Ha0, Hstep s0 a0 s0' (list_elem_of_further _ _ _ Ha0)) s1 s'); [|done].
    eapply Hstep; [apply list_elem_of_here|done..].
Qed.

Lemma elem_of_grid_pairs fft_box i j :
  (i, j) ∈ grid_pairs fft_box ↔ in_limits fft_box i j = true.
Proof.
  unfold grid_pairs, in_limits. rewrite list_elem_of_bind. split.
  - intros (i' & Hj & Hi). apply list_elem_of_fmap in Hj as (j' & [= <- <-] & Hj).
    apply elem_of_seqZ in Hi, Hj.
    rewrite !bool_decide_eq_true_2 by lia. done.
  - intros [Hi%bool_decide_eq_true Hj%bool_decide_eq_true]%andb_true_iff.
    exists i. split; [|apply elem_of_seqZ; lia].
    apply list_elem_of_fmap. exists j. split; [done|]. apply elem_of_seqZ. lia.
Qed.

Lemma enumerate_in_limits in_cutoff fft_box reduce_gvec en :
  enumerate in_cutoff fft_box reduce_gvec = Ok en →
  Forall (λ c, in_limits fft_box (col_x c) (col_y c) = true) (en_columns en).
Proof.
  unfold enumerate.
  apply (foldM_preserves_elem
           (λ st, Forall (λ c, in_limits fft_box (col_x c) (col_y c) = true) (en_columns st)));
    [|constructor].
  intros st [i j] st' Hij%elem_of_grid_pairs Hst. unfold enum_body.
  destruct (bool_decide (scan_z in_cutoff fft_box reduce_gvec i j ≠ []) &&
            bool_decide ((i, j) ∉ en_marks st)); [|by intros [= <-]].
  assert (Forall (λ c, in_limits fft_box (col_x c) (col_y c) = true)
            (en_columns st ++ [z_column i j (scan_z in_cutoff fft_box reduce_gvec i j)]))
    as Hnew by (apply Forall_app; split; [done|by repeat constructor]).
  destruct reduce_gvec; [destruct (in_limits fft_box (- i) (- j)); [|done]|];
    by intros [= <-].
Qed.

Lemma Gvec_indexed_columns in_cutoff sorter fft_box num_ranks fft_comm reduce_gvec g :
  Gvec_indexed in_cutoff sorter fft_box num_ranks fft_comm reduce_gvec = Ok g →
  ∃ en, enumerate in_cutoff fft_box reduce_gvec = Ok en ∧
        z_columns_ g ≡ₚ en_columns en ∧ num_gvec_ g = en_num_gvec en.
Proof.
  intros (cols & st & Hord & HR & Hst & Hcols & _)%Gvec_indexed_Ok.
  pose proof (distribute_local_perm _ _ _ Hst) as Hperm. rewrite <- Hcols in Hperm.
  apply ordered_columns_Ok in Hord as (en & c0 & rest & Hen & Hsw & Hc & Hn).
  exists en. split; [done|]. split; [|done].
  rewrite Hperm, Hc, <- (swap_origin_perm (en_columns en)), Hsw.
  by rewrite (std_sort_perm sorter).
Qed.

(** The columns of a constructed set are the columns of the enumerator in
    another order, seen through their contents. *)
Lemma Gvec_new_columns in_cutoff gk_key sorter fft_box num_ranks fft_comm reduce_gvec g :
  Gvec_new in_cutoff gk_key sorter fft_box num_ranks fft_comm reduce_gvec = Ok g →
  ∃ en, enumerate in_cutoff fft_box reduce_gvec = Ok en ∧
        col_content <$> z_columns_ g ≡ₚ col_content <$> en_columns en ∧
        num_gvec_ g = en_num_gvec en ∧ reduce_gvec_ g = reduce_gvec.
Proof.
  intros (g0 & g1 & H0 & _ & (sh & lens & ->)%find_shells_frame & Hs)%Gvec_new_Ok.
  destruct (Gvec_indexed_columns _ _ _ _ _ _ _ H0) as (en & Hen & Hperm & Hnum).
  exists en. split; [done|].
  rewrite (same_columns _ _ Hs), (same_num_gvec _ _ Hs), (same_reduce _ _ Hs).
  cbn [with_shells z_columns_ num_gvec_ reduce_gvec_].
  split; [by rewrite Hperm|]. split; [done|].
  by apply Gvec_indexed_Ok in H0 as (? & ? & _ & _ & _ & _ & _ & _ & _ & _ & _ & _ & ->).
Qed.

Lemma content_Forall (P : Z * Z * list Z → Prop) (cols cols' : list z_column_descriptor) :
  col_content <$> cols ≡ₚ col_content <$> cols' →
  Forall (λ c, P (col_content c)) cols' → Forall (λ c, P (col_content c)) cols.
Proof.
  intros Hp H. apply (Forall_fmap col_content P). rewrite Hp.
  by apply (Forall_fmap col_content P).
Qed.

Lemma Gvec_new_in_limits in_cutoff gk_key sorter fft_box num_ranks fft_comm reduce_gvec g :
  Gvec_new in_cutoff gk_key sorter fft_box num_ranks fft_comm reduce_gvec = Ok g →
  Forall (λ c, in_limits fft_box (col_x c) (col_y c) = true) (z_columns_ g).
Proof.
  intros (en & Hen & Hperm & _)%Gvec_new_columns.
  apply (content_Forall (λ t, in_limits fft_box t.1.1 t.1.2 = true) _ _ Hperm).
  by apply enumerate_in_limits in Hen.
Qed.

(** ** [index_by_gvec] *)

Section reverse_lookup.
Variable fft_box : FFT3D_grid.
Variable g : Gvec.
Hypothesis inv : indexed_inv g.
Hypothesis inside : Forall (λ c, in_limits fft_box (col_x c) (col_y c) = true) (z_columns_ g).

Lemma index_by_xy_column (k : nat) c :
  z_columns_ g !! k = Some c →
  index_by_xy fft_box g 0 (col_x c) (col_y c) = Ok (column_start (z_columns_ g) k) ∧
  index_by_xy fft_box g 1 (col_x c) (col_y c) = Ok (zsize c).
Proof using inv inside.
  intros Hk. unfold index_by_xy.
  rewrite Forall_forall in inside.
  rewrite (inside c) by (by eapply list_elem_of_lookup_2).
  destruct inv as [Hnd _ _ Hxy _]. rewrite Hxy.
  destruct (build_index_by_xy (z_columns_ g) 0 0 ∅ k c Hnd Hk) as [-> ->].
  by rewrite Z.add_0_l.
Qed.

Lemma index_by_xy_absent t x y :
  in_limits fft_box x y = true → (x, y) ∉ col_xy <$> z_columns_ g →
  index_by_xy fft_box g t x y = Ok (-1).
Proof using inv.
  intros Hin Habs. unfold index_by_xy. rewrite Hin.
  destruct inv as [_ _ _ Hxy _]. rewrite Hxy, build_index_other; [done|].
  apply Forall_forall. intros c Hc Heq. apply Habs. rewrite <- Heq.
  by apply list_elem_of_fmap_2.
Qed.

(** The index that [index_by_gvec] computes for a triple whose (x, y) is
    the pair of a column of the set. *)
Lemma index_by_gvec_column (k : nat) c z :
  z_columns_ g !! k = Some c →
  ¬ (reduce_gvec_ g = true ∧ col_x c = 0 ∧ col_y c = 0 ∧ z < 0) →
  index_by_gvec fft_box g (col_x c, col_y c, z) =
    if bool_decide (column_start (z_columns_ g) k + wrap_position (zsize c) z < num_gvec_ g)
    then Ok (column_start (z_columns_ g) k + wrap_position (zsize c) z)
    else Fail AssertionFailure.
Proof using inv inside.
  intros Hk Hred. unfold index_by_gvec.
  destruct (index_by_xy_column k c Hk) as [-> H1].
  assert (reduce_gvec_ g && bool_decide (col_x c = 0) && bool_decide (col_y c = 0) &&
          bool_decide (z < 0) = false) as ->.
  { apply not_true_is_false. intros H.
    apply andb_true_iff in H as [[[H2 H3%bool_decide_eq_true]%andb_true_iff
      H4%bool_decide_eq_true]%andb_true_iff H5%bool_decide_eq_true]. by apply Hred. }
  cbn [mbind result_bind].
  pose proof (column_start_nonneg (z_columns_ g) k).
  rewrite bool_decide_eq_false_2 by lia.
  unfold wrap_position. case_bool_decide.
  - cbn [mbind result_bind]. by case_bool_decide.
  - rewrite H1. cbn [mbind result_bind]. by case_bool_decide.
Qed.
End reverse_lookup.

(** The entry [z] of a wrapped column is at the position that
    [index_by_gvec] expects it at. *)
Lemma seqZ_lookup_member (m n z : Z) :
  z ∈ seqZ m n → seqZ m n !! Z.to_nat (z - m) = Some z.
Proof.
  intros Hz%elem_of_seqZ. rewrite lookup_seqZ_lt by lia. f_equal. lia.
Qed.

Lemma wrapped_list_position (l : list Z) (p q z : Z) :
  0 ≤ p → 0 ≤ q → l = seqZ 0 p ++ seqZ (- q) q → z ∈ l →
  0 ≤ wrap_position (size l) z < size l ∧
  l !! Z.to_nat (wrap_position (size l) z) = Some z.
Proof.
  intros Hp Hq -> Hz. unfold wrap_position.
  assert (size (seqZ 0 p ++ seqZ (- q) q) = p + q) as ->
    by (rewrite size_app; unfold size; rewrite !length_seqZ; lia).
  apply elem_of_app in Hz as [Hz|Hz].
  - pose proof Hz as Hr%elem_of_seqZ. rewrite bool_decide_eq_true_2 by lia.
    split; [lia|]. rewrite lookup_app_l by (rewrite length_seqZ; lia).
    apply seqZ_lookup_member in Hz. by rewrite Z.sub_0_r in Hz.
  - pose proof Hz as Hr%elem_of_seqZ. rewrite bool_decide_eq_false_2 by lia.
    split; [lia|]. rewrite lookup_app_r by (rewrite length_seqZ; lia).
    rewrite length_seqZ. apply seqZ_lookup_member in Hz.
    replace (Z.to_nat (z + (p + q)) - Z.to_nat p)%nat with (Z.to_nat (z - - q)) by lia.
    done.
Qed.

Lemma wrapped_position c z :
  wrapped c → z ∈ col_z c →
  0 ≤ wrap_position (zsize c) z < zsize c ∧
  col_z c !! Z.to_nat (wrap_position (zsize c) z) = Some z.
Proof.
  intros Hw Hz. eapply wrapped_list_position; [| |exact Hw|exact Hz]; apply size_nonneg.
Qed.

(** X3: the zero vector has the index 0, and the index of the difference of
    a vector with itself is 0. *)
Theorem zero_vector_has_index_0
    in_cutoff gk_key sorter fft_box num_ranks fft_comm reduce_gvec g :
  Gvec_new in_cutoff gk_key sorter fft_box num_ranks fft_comm reduce_gvec = Ok g →
  index_by_gvec fft_box g (0, 0, 0) = Ok 0 ∧
  ∀ G, index_g12 fft_box g G G = Ok 0.
Proof.
  intros Hg.
  destruct (Gvec_new_indexed _ _ _ _ _ _ _ _ Hg) as [Hinv _].
  pose proof (Gvec_new_in_limits _ _ _ _ _ _ _ _ Hg) as Hin.
  destruct (origin_column_first _ _ _ _ _ _ _ _ Hg) as (c & zs & Hc & Hx & Hy & Hz).
  assert (1 ≤ zsize c) as Hc1.
  { destruct Hinv as [_ Hne _ _ _]. rewrite Forall_forall in Hne.
    by eapply Hne, list_elem_of_lookup_2. }
  assert (index_by_gvec fft_box g (0, 0, 0) = Ok 0) as H0.
  { pose proof (index_by_gvec_column fft_box g Hinv Hin 0 c 0 Hc) as H.
    rewrite Hx, Hy, column_start_0 in H. rewrite H by lia.
    pose proof (column_start_bound _ _ _ Hc) as Hb. rewrite column_start_0 in Hb.
    change (wrap_position (zsize c) 0) with 0.
    by rewrite bool_decide_eq_true_2 by (rewrite (ix_num_gvec _ Hinv); lia). }
  split; [done|]. intros [[x y] z]. unfold index_g12. cbn [fst snd].
  rewrite !Z.sub_diag, H0. cbn [mbind result_bind].
  pose proof (column_start_bound _ _ _ Hc) as Hb. rewrite column_start_0 in Hb.
  rewrite !bool_decide_eq_true_2 by (rewrite ?(ix_num_gvec _ Hinv); lia). done.
Qed.

Lemma zero_vector_has_index_0_witness :
  index_by_gvec (cubic_box 5) flat_cell_gvec (0, 0, 0) = Ok 0 ∧
  index_g12 (cubic_box 5) flat_cell_gvec (1, 0, 1) (1, 0, 1) = Ok 0.
Proof.
  destruct (zero_vector_has_index_0 flat_cell flat_cell_key stable_sort (cubic_box 5) 4
              (mk_comm 1 0) false flat_cell_gvec flat_cell_gvec_Ok) as [H1 H2].
  split; [exact H1|exact (H2 (1, 0, 1))].
Defined.

(** X4: [index_by_gvec] returns -1 for a pair (x, y) inside the box that has
    no column in the set, and for a negative z on the column (0, 0) of a
    reduced set; [index_g12] stops at its assertion then. *)
Theorem absent_column_has_index_minus_1
    in_cutoff gk_key sorter fft_box num_ranks fft_comm reduce_gvec g x y z :
  Gvec_new in_cutoff gk_key sorter fft_box num_ranks fft_comm reduce_gvec = Ok g →
  in_limits fft_box x y = true →
  (x, y) ∉ col_xy <$> z_columns_ g ∨ (reduce_gvec = true ∧ x = 0 ∧ y = 0 ∧ z < 0) →
  index_by_gvec fft_box g (x, y, z) = Ok (-1) ∧
  ∀ g1 g2, (g1.1.1 - g2.1.1, g1.1.2 - g2.1.2, g1.2 - g2.2) = (x, y, z) →
           index_g12 fft_box g g1 g2 = Fail AssertionFailure.
Proof.
  intros Hg Hin Hor.
  destruct (Gvec_new_indexed _ _ _ _ _ _ _ _ Hg) as [Hinv _].
  destruct (Gvec_new_columns _ _ _ _ _ _ _ _ Hg) as (_ & _ & _ & _ & Hred).
  assert (index_by_gvec fft_box g (x, y, z) = Ok (-1)) as H.
  { unfold index_by_gvec.
    destruct (reduce_gvec_ g && bool_decide (x = 0) && bool_decide (y = 0) &&
              bool_decide (z < 0)) eqn:Hb; [done|].
    destruct Hor as [Habs|(Hr & -> & -> & Hz)].
    - by rewrite (index_by_xy_absent fft_box g Hinv 0 x y Hin Habs).
    - rewrite Hred, Hr in Hb. by rewrite !bool_decide_eq_true_2 in Hb. }
  split; [done|]. intros g1 g2 Hd. unfold index_g12. by rewrite Hd, H.
Qed.

Lemma absent_column_has_index_minus_1_witness :
  index_by_gvec (cubic_box 5) flat_cell_gvec (1, 1, 0) = Ok (-1) ∧
  index_g12 (cubic_box 5) flat_cell_gvec (1, 1, 0) (0, 0, 0) = Fail AssertionFailure.
Proof.
  destruct (absent_column_has_index_minus_1 flat_cell flat_cell_key stable_sort (cubic_box 5) 4
              (mk_comm 1 0) false flat_cell_gvec 1 1 0 flat_cell_gvec_Ok) as [H1 H2].
  - vm_compute. reflexivity.
  - left. rewrite flat_cell_columns. intros Hin.
    repeat (apply elem_of_cons in Hin as [Hin|Hin]; [discriminate Hin|]).
    by apply elem_of_nil in Hin.
  - split; [exact H1|]. apply H2. reflexivity.
Defined.

(** X5: when no column is longer than 4096, a vector of a wrapped column is
    found by [index_by_gvec], and the index found is the index of that
    vector. *)
Theorem index_by_gvec_finds_member
    in_cutoff gk_key sorter fft_box num_ranks fft_comm reduce_gvec g c z :
  Gvec_new in_cutoff gk_key sorter fft_box num_ranks fft_comm reduce_gvec = Ok g →
  Forall (λ c, zsize c ≤ 4096) (z_columns_ g) →
  c ∈ z_columns_ g → wrapped c → z ∈ col_z c →
  ¬ (reduce_gvec = true ∧ col_x c = 0 ∧ col_y c = 0 ∧ z < 0) →
  ∃ ig, index_by_gvec fft_box g (col_x c, col_y c, z) = Ok ig ∧
        0 ≤ ig < num_gvec_ g ∧
        gvec g ig = Ok (col_x c, col_y c, z).
Proof.
  intros Hg Hshort Hc Hw Hz Hred.
  destruct (Gvec_new_indexed _ _ _ _ _ _ _ _ Hg) as [Hinv Hfew].
  pose proof (Gvec_new_in_limits _ _ _ _ _ _ _ _ Hg) as Hin.
  destruct (Gvec_new_columns _ _ _ _ _ _ _ _ Hg) as (_ & _ & _ & _ & Hr).
  apply list_elem_of_lookup in Hc as [k Hk].
  destruct (wrapped_position c z Hw Hz) as [Hpos Hlook].
  pose proof (column_start_bound _ _ _ Hk) as Hb.
  pose proof (column_start_nonneg (z_columns_ g) k) as Hs0.
  exists (column_start (z_columns_ g) k + wrap_position (zsize c) z).
  split; [|split].
  - rewrite (index_by_gvec_column fft_box g Hinv Hin k c z Hk) by (by rewrite Hr).
    by rewrite bool_decide_eq_true_2 by (rewrite (ix_num_gvec _ Hinv); lia).
  - rewrite (ix_num_gvec _ Hinv). lia.
  - pose proof (gvec_at g Hinv Hfew Hshort k _ c z Hk Hlook) as Hat.
    by rewrite Z2Nat.id in Hat by lia.
Qed.

Lemma index_by_gvec_finds_member_witness :
  ∃ ig, index_by_gvec (cubic_box 5) flat_cell_gvec (0, 0, -2) = Ok ig ∧
        0 ≤ ig < num_gvec_ flat_cell_gvec ∧
        gvec flat_cell_gvec ig = Ok (0, 0, -2).
Proof.
  apply (index_by_gvec_finds_member flat_cell flat_cell_key stable_sort (cubic_box 5) 4
           (mk_comm 1 0) false flat_cell_gvec
           (mk_z_column 0 0 [0; 1; 2; -2; -1] (Some 0)) (-2) flat_cell_gvec_Ok
           flat_cell_short).
  - rewrite flat_cell_columns. apply list_elem_of_here.
  - vm_compute. reflexivity.
  - cbn [col_z]. do 3 apply list_elem_of_further. apply list_elem_of_here.
  - intros [Hr _]. discriminate Hr.
Defined.

(** X6: [index_by_gvec] inverts [gvec]: when no column is longer than 4096,
    every column is wrapped and, with the reduction, the column (0, 0) has
    no negative z, every index is found again from its vector. *)
Theorem index_by_gvec_inverts_gvec
    in_cutoff gk_key sorter fft_box num_ranks fft_comm reduce_gvec g ig :
  Gvec_new in_cutoff gk_key sorter fft_box num_ranks fft_comm reduce_gvec = Ok g →
  Forall (λ c, zsize c ≤ 4096) (z_columns_ g) →
  Forall wrapped (z_columns_ g) →
  (reduce_gvec = true → ∀ c, c ∈ z_columns_ g → is_origin c → Forall (λ z, 0 ≤ z) (col_z c)) →
  0 ≤ ig < num_gvec_ g →
  ∃ G, gvec g ig = Ok G ∧ index_by_gvec fft_box g G = Ok ig.
Proof.
  intros Hg Hshort Hw Hred Hig.
  destruct (Gvec_new_indexed _ _ _ _ _ _ _ _ Hg) as [Hinv Hfew].
  pose proof (Gvec_new_in_limits _ _ _ _ _ _ _ _ Hg) as Hin.
  destruct (Gvec_new_columns _ _ _ _ _ _ _ _ Hg) as (_ & _ & _ & _ & Hr).
  pose proof Hg as (g0 & g1 & _ & _ & Hsh & Hs)%Gvec_new_Ok.
  destruct (find_shells_decodes _ _ _ ig Hsh) as [G HG].
  { apply find_shells_frame in Hsh as (sh & lens & ->).
    rewrite (same_num_gvec _ _ Hs) in Hig. done. }
  assert (gvec g ig = Ok G) as HG'.
  { rewrite (gvec_same_fine_grained _ _ _ Hs).
    apply find_shells_frame in Hsh as (sh & lens & ->). done. }
  exists G. split; [done|].
  destruct (gvec_position g Hinv Hfew Hshort ig G HG') as (k & j & c & z & Hk & Hj & -> & ->).
  assert (c ∈ z_columns_ g) as Hc by (by eapply list_elem_of_lookup_2).
  assert (z ∈ col_z c) as Hz by (by eapply list_elem_of_lookup_2).
  rewrite Forall_forall in Hw.
  destruct (wrapped_position c z (Hw c Hc) Hz) as [Hpos Hlook].
  assert (wrap_position (zsize c) z = Z.of_nat j) as Hwj.
  { pose proof (gvec_at g Hinv Hfew Hshort k _ c z Hk Hlook) as Hat.
    pose proof (gvec_at g Hinv Hfew Hshort k _ c z Hk Hj) as Hat'.
    assert (NoDup (col_z c)) as Hnd.
    { rewrite (Hw c Hc). apply NoDup_app. split; [apply NoDup_seqZ|].
      split; [|apply NoDup_seqZ].
      intros a Ha%elem_of_seqZ Ha'%elem_of_seqZ. lia. }
    pose proof (NoDup_lookup _ _ _ _ Hnd Hlook Hj). lia. }
  rewrite (index_by_gvec_column fft_box g Hinv Hin k c z Hk).
  - rewrite Hwj. by rewrite bool_decide_eq_true_2 by lia.
  - intros (Hr' & Hx & Hy & Hz'). rewrite Hr in Hr'.
    specialize (Hred Hr' c Hc (conj Hx Hy)). rewrite Forall_forall in Hred.
    specialize (Hred z Hz). lia.
Qed.

Lemma index_by_gvec_inverts_gvec_witness :
  ∃ G, gvec flat_cell_gvec 3 = Ok G ∧ index_by_gvec (cubic_box 5) flat_cell_gvec G = Ok 3.
Proof.
  apply (index_by_gvec_inverts_gvec flat_cell flat_cell_key stable_sort (cubic_box 5) 4
           (mk_comm 1 0) false flat_cell_gvec 3 flat_cell_gvec_Ok flat_cell_short
           flat_cell_wrapped).
  - intros Hr. discriminate Hr.
  - assert (num_gvec_ flat_cell_gvec = 9) as -> by (vm_compute; reflexivity). lia.
Defined.

(** X7: for a triple whose (x, y) is the pair of a column of the set,
    [index_by_gvec] returns -1 when the set is reduced, the column is
    (0, 0) and z is negative; in every other case it adds the position that
    a wrapped column has z at to the index of the first G-vector of the
    column, whether z is an entry of the column or not, and checks only
    that the sum is below the number of G-vectors. *)
Theorem index_by_gvec_does_not_look_at_z
    in_cutoff gk_key sorter fft_box num_ranks fft_comm reduce_gvec g (k : nat) c z :
  Gvec_new in_cutoff gk_key sorter fft_box num_ranks fft_comm reduce_gvec = Ok g →
  z_columns_ g !! k = Some c →
  index_by_gvec fft_box g (col_x c, col_y c, z) =
    if reduce_gvec && bool_decide (col_x c = 0) && bool_decide (col_y c = 0) &&
       bool_decide (z < 0)
    then Ok (-1)
    else if bool_decide (column_start (z_columns_ g) k + wrap_position (zsize c) z
                         < num_gvec_ g)
    then Ok (column_start (z_columns_ g) k + wrap_position (zsize c) z)
    else Fail AssertionFailure.
Proof.
  intros Hg Hk.
  destruct (Gvec_new_indexed _ _ _ _ _ _ _ _ Hg) as [Hinv _].
  pose proof (Gvec_new_in_limits _ _ _ _ _ _ _ _ Hg) as Hin.
  destruct (Gvec_new_columns _ _ _ _ _ _ _ _ Hg) as (_ & _ & _ & _ & Hr).
  destruct (reduce_gvec && bool_decide (col_x c = 0) && bool_decide (col_y c = 0) &&
            bool_decide (z < 0)) eqn:Hguard.
  - unfold index_by_gvec. by rewrite Hr, Hguard.
  - apply (index_by_gvec_column fft_box g Hinv Hin k c z Hk). rewrite Hr.
    intros (-> & Hx & Hy & Hz).
    by rewrite !bool_decide_eq_true_2 in Hguard.
Qed.

Lemma index_by_gvec_does_not_look_at_z_witness :
  (3 ∉ [0; 1; 2; -2; -1]) ∧
  index_by_gvec (cubic_box 5) flat_cell_gvec (0, 0, 3) = Ok 3 ∧
  gvec flat_cell_gvec 3 = Ok (0, 0, -2).
Proof.
  split; [|split].
  - intros Hin. repeat (apply elem_of_cons in Hin as [Hin|Hin]; [discriminate Hin|]).
    by apply elem_of_nil in Hin.
  - etransitivity.
    + apply (index_by_gvec_does_not_look_at_z flat_cell flat_cell_key stable_sort
               (cubic_box 5) 4 (mk_comm 1 0) false flat_cell_gvec 0
               (mk_z_column 0 0 [0; 1; 2; -2; -1] (Some 0)) 3 flat_cell_gvec_Ok).
      by rewrite flat_cell_columns.
    + vm_compute. reflexivity.
  - vm_compute. reflexivity.
Defined.

(** In the reduced set of the whole box the guard answers for the column
    (0, 0): a negative z gets -1 there, whatever the column holds. *)
Example index_by_gvec_reduced_origin :
  index_by_gvec (cubic_box 5) (whole_box_gvec 1 true) (0, 0, -1) = Ok (-1) ∧
  index_by_gvec (cubic_box 5) (whole_box_gvec 1 true) (0, 0, 2) = Ok 2.
Proof. vm_compute. done. Qed.



(** ** What the enumerator marks *)

Section enumerator_marks_facts.
Context (in_cutoff : Z → Z → Z → bool) (fft_box : FFT3D_grid) (reduce_gvec : bool).

Lemma enum_body_marks st seen i j st' :
  marks_inv in_cutoff fft_box reduce_gvec st seen →
  enum_body in_cutoff fft_box reduce_gvec st (i, j) = Ok st' →
  marks_inv in_cutoff fft_box reduce_gvec st' (seen ++ [(i, j)]).
Proof.
  intros [Hseen Hcol Hmk Hopp]. unfold enum_body.
  destruct (bool_decide (scan_z in_cutoff fft_box reduce_gvec i j ≠ [])) eqn:Hne; simpl.
  2:{ intros [= <-]. split; try done.
      intros i' j' [Hin|Hin%list_elem_of_singleton]%elem_of_app Hsc; [by apply Hseen|].
      injection Hin as -> ->. by apply bool_decide_eq_false in Hne. }
  destruct (bool_decide ((i, j) ∉ en_marks st)) eqn:Hfree; simpl.
  2:{ intros [= <-]. split; try done.
      intros i' j' [Hin|Hin%list_elem_of_singleton]%elem_of_app Hsc; [by apply Hseen|].
      injection Hin as -> ->. apply bool_decide_eq_false in Hfree.
      by apply dec_stable in Hfree. }
  apply bool_decide_eq_true in Hfree.
  set (c0 := z_column i j (scan_z in_cutoff fft_box reduce_gvec i j)).
  assert (∀ marks, en_marks st ⊆ marks → (i, j) ∈ marks →
            (reduce_gvec = true → (- i, - j) ∈ marks) →
            (∀ i' j', (i', j') ∈ marks → (i', j') ∈ en_marks st ∨ (i', j') = (i, j) ∨
                       (reduce_gvec = true ∧ (i', j') = (- i, - j))) →
            marks_inv in_cutoff fft_box reduce_gvec (mk_enum (en_columns st ++ [c0])
                         (en_num_gvec st + size (scan_z in_cutoff fft_box reduce_gvec i j))
                         marks) (seen ++ [(i, j)])) as Hnew.
  { intros marks Hsub Hij Hneg Hsrc. split; cbn [en_columns en_marks].
    - intros i' j' [Hin|Hin%list_elem_of_singleton]%elem_of_app Hsc.
      + by apply Hsub, Hseen.
      + by injection Hin as -> ->.
    - intros i' j' Hin. rewrite fmap_app.
      destruct (Hsrc i' j' Hin) as [Hold|[[= -> ->]|[Hr [= -> ->]]]].
      + destruct (Hcol i' j' Hold) as [H|[Hr H]].
        * left. by apply elem_of_app; left.
        * right. split; [done|]. by apply elem_of_app; left.
      + left. apply elem_of_app. right. by apply list_elem_of_singleton.
      + right. split; [done|]. rewrite !Z.opp_involutive.
        apply elem_of_app. right. by apply list_elem_of_singleton.
    - intros c [Hc|Hc%list_elem_of_singleton]%elem_of_app.
      + destruct (Hmk c Hc) as [H1 H2]. split; [by apply Hsub|].
        intros Hr. by apply Hsub, H2.
      + subst c. done.
    - intros Hr c d [Hc|Hc%list_elem_of_singleton]%elem_of_app
        [Hd|Hd%list_elem_of_singleton]%elem_of_app Hx Hy.
      + by apply (Hopp Hr c d).
      + subst d. cbn [c0 z_column col_x col_y] in Hx, Hy. exfalso. apply Hfree.
        destruct (Hmk c Hc) as [_ H2]. specialize (H2 Hr). by rewrite <- Hx, <- Hy in H2.
      + subst c. cbn [c0 z_column col_x col_y] in Hx, Hy. exfalso. apply Hfree.
        destruct (Hmk d Hd) as [_ H2]. specialize (H2 Hr).
        rewrite Hx, Hy, !Z.opp_involutive in H2. done.
      + subst c d. cbn [c0 z_column col_x col_y] in *. lia. }
  destruct reduce_gvec.
  - destruct (in_limits fft_box (- i) (- j)); [|done]. intros [= <-].
    apply Hnew.
    + intros xy Hxy. by apply elem_of_union_r, elem_of_union_r.
    + by apply elem_of_union_r, elem_of_union_l, elem_of_singleton.
    + intros _. by apply elem_of_union_l, elem_of_singleton.
    + intros i' j' [Hin%elem_of_singleton|[Hin%elem_of_singleton|Hin]%elem_of_union]%elem_of_union.
      * right. right. done.
      * right. by left.
      * by left.
  - intros [= <-]. apply Hnew.
    + intros xy Hxy. by apply elem_of_union_r.
    + by apply elem_of_union_l, elem_of_singleton.
    + done.
    + intros i' j' [Hin%elem_of_singleton|Hin]%elem_of_union; [right; by left|by left].
Qed.

Lemma enumerate_from_marks l : ∀ st seen st',
  marks_inv in_cutoff fft_box reduce_gvec st seen →
  foldM (enum_body in_cutoff fft_box reduce_gvec) st l = Ok st' →
  marks_inv in_cutoff fft_box reduce_gvec st' (seen ++ l).
Proof.
  induction l as [|[i j] l IH]; intros st seen st' Hinv; simpl.
  - intros [= <-]. by rewrite app_nil_r.
  - intros (st1 & H1 & H2)%bind_Ok.
    replace (seen ++ (i, j) :: l) with ((seen ++ [(i, j)]) ++ l) by (by rewrite <- app_assoc).
    eapply IH; [|exact H2]. by eapply enum_body_marks.
Qed.

Lemma enumerate_marks en :
  enumerate in_cutoff fft_box reduce_gvec = Ok en →
  marks_inv in_cutoff fft_box reduce_gvec en (grid_pairs fft_box).
Proof.
  intros H. apply (enumerate_from_marks _ (mk_enum [] 0 ∅) []) in H; [done|].
  split; cbn [en_columns en_marks].
  - intros i j Hin. by apply elem_of_nil in Hin.
  - intros i j Hin. by apply elem_of_empty in Hin.
  - intros c Hc. by apply elem_of_nil in Hc.
  - intros _ c d Hc. by apply elem_of_nil in Hc.
Qed.

(** Every pair of the box with a non-empty z-loop has its column, or with
    the reduction the column of the opposite pair. *)
Lemma enumerate_complete en i j :
  enumerate in_cutoff fft_box reduce_gvec = Ok en →
  in_limits fft_box i j = true → scan_z in_cutoff fft_box reduce_gvec i j ≠ [] →
  (i, j) ∈ col_xy <$> en_columns en ∨
  (reduce_gvec = true ∧ (- i, - j) ∈ col_xy <$> en_columns en).
Proof.
  intros [Hseen Hcol _ _]%enumerate_marks Hin%elem_of_grid_pairs Hsc.
  by apply Hcol, Hseen.
Qed.
End enumerator_marks_facts.

Lemma sorted_lt_NoDup (l : list Z) : StronglySorted Z.lt l → NoDup l.
Proof.
  induction 1 as [|a l Hs IH Ha]; constructor; [|done].
  intros Hin. rewrite Forall_forall in Ha. specialize (Ha a Hin). lia.
Qed.

Lemma content_elem_of (cols cols' : list z_column_descriptor) c :
  col_content <$> cols ≡ₚ col_content <$> cols' → c ∈ cols →
  ∃ c', c' ∈ cols' ∧ col_content c' = col_content c.
Proof.
  intros Hp Hc.
  assert (col_content c ∈ col_content <$> cols') as Hin
    by (rewrite <- Hp; by apply list_elem_of_fmap_2).
  apply list_elem_of_fmap in Hin as (c' & Heq & Hc'). eauto.
Qed.

Lemma content_fields c c' :
  col_content c' = col_content c →
  col_x c' = col_x c ∧ col_y c' = col_y c ∧ col_z c' = col_z c.
Proof. unfold col_content. by intros [= -> -> ->]. Qed.

(** X9: every G-vector of a constructed set passes the cutoff test, its
    (x, y) lies inside the box and its z is the frequency of a grid index
    of the z-loop. *)
Theorem gvec_passes_cutoff
    in_cutoff gk_key sorter fft_box num_ranks fft_comm reduce_gvec g ig x y z :
  Gvec_new in_cutoff gk_key sorter fft_box num_ranks fft_comm reduce_gvec = Ok g →
  gvec g ig = Ok (x, y, z) →
  in_cutoff x y z = true ∧ in_limits fft_box x y = true ∧
  ∃ iz, 0 ≤ iz ≤ zmax fft_box reduce_gvec x y ∧ z = gvec_by_coord fft_box iz 2.
Proof.
  intros Hg (c & Hc & <- & <- & Hz)%gvec_member.
  pose proof (Gvec_new_in_limits _ _ _ _ _ _ _ _ Hg) as Hin.
  destruct (Gvec_new_columns _ _ _ _ _ _ _ _ Hg) as (en & Hen & Hperm & _).
  rewrite Forall_forall in Hin. specialize (Hin c Hc).
  destruct (content_elem_of _ _ c Hperm Hc) as (c' & Hc' & (Hx & Hy & Hcz)%content_fields).
  destruct (enumerate_inv _ _ _ _ Hen) as [Hsc _ _ _].
  rewrite Forall_forall in Hsc. destruct (Hsc c' Hc') as (Hscan & _ & _).
  rewrite <- Hcz, Hscan, Hx, Hy in Hz. unfold scan_z in Hz.
  apply list_elem_of_filter in Hz as [Hcut Hz].
  apply list_elem_of_fmap in Hz as (iz & -> & Hiz%elem_of_seqZ).
  split; [done|]. split; [done|]. exists iz. split; [lia|done].
Qed.

Lemma gvec_passes_cutoff_witness :
  flat_cell 0 0 (-2) = true ∧ in_limits (cubic_box 5) 0 0 = true ∧
  ∃ iz, 0 ≤ iz ≤ zmax (cubic_box 5) false 0 0 ∧ -2 = gvec_by_coord (cubic_box 5) iz 2.
Proof.
  apply (gvec_passes_cutoff flat_cell flat_cell_key stable_sort (cubic_box 5) 4
           (mk_comm 1 0) false flat_cell_gvec 3 0 0 (-2) flat_cell_gvec_Ok).
  vm_compute. reflexivity.
Defined.

(** X10: when no column is longer than 4096, every triple of the box that
    passes the cutoff test is a G-vector of the set, or, in a reduced set,
    the column of the opposite (x, y) is in the set. *)
Theorem passing_triple_is_in_the_set
    in_cutoff gk_key sorter fft_box num_ranks fft_comm reduce_gvec g i j iz :
  Gvec_new in_cutoff gk_key sorter fft_box num_ranks fft_comm reduce_gvec = Ok g →
  Forall (λ c, zsize c ≤ 4096) (z_columns_ g) →
  in_limits fft_box i j = true → 0 ≤ iz ≤ zmax fft_box reduce_gvec i j →
  in_cutoff i j (gvec_by_coord fft_box iz 2) = true →
  (∃ ig, 0 ≤ ig < num_gvec_ g ∧ gvec g ig = Ok (i, j, gvec_by_coord fft_box iz 2)) ∨
  (reduce_gvec = true ∧ (- i, - j) ∈ col_xy <$> z_columns_ g).
Proof.
  intros Hg Hshort Hin Hiz Hcut.
  destruct (Gvec_new_indexed _ _ _ _ _ _ _ _ Hg) as [Hinv Hfew].
  destruct (Gvec_new_columns _ _ _ _ _ _ _ _ Hg) as (en & Hen & Hperm & _).
  assert (gvec_by_coord fft_box iz 2 ∈ scan_z in_cutoff fft_box reduce_gvec i j) as Hz.
  { unfold scan_z. apply list_elem_of_filter. split; [done|].
    apply list_elem_of_fmap. exists iz. split; [done|]. apply elem_of_seqZ. lia. }
  assert (scan_z in_cutoff fft_box reduce_gvec i j ≠ []) as Hne
    by (intros Hnil; rewrite Hnil in Hz; by apply elem_of_nil in Hz).
  assert (col_xy <$> z_columns_ g ≡ₚ col_xy <$> en_columns en) as Hxy.
  { change col_xy with ((λ t : Z * Z * list Z, t.1) ∘ col_content).
    by rewrite !list_fmap_compose, Hperm. }
  destruct (enumerate_complete _ _ _ en i j Hen Hin Hne) as [Hcol|[Hr Hcol]].
  - left. apply list_elem_of_fmap in Hcol as (c' & Hij & Hc').
    destruct (enumerate_inv _ _ _ _ Hen) as [Hsc _ _ _].
    rewrite Forall_forall in Hsc. destruct (Hsc c' Hc') as (Hscan & _ & _).
    symmetry in Hperm.
    destruct (content_elem_of _ _ c' Hperm Hc') as (c & Hc & (Hx & Hy & Hcz)%content_fields).
    unfold col_xy in Hij. injection Hij as -> ->.
    apply list_elem_of_lookup in Hc as [k Hk].
    rewrite <- Hscan, <- Hcz in Hz.
    apply list_elem_of_lookup in Hz as [p Hp].
    exists (column_start (z_columns_ g) k + Z.of_nat p).
    pose proof (column_start_bound _ _ _ Hk) as Hb.
    pose proof (column_start_nonneg (z_columns_ g) k) as Hs0.
    apply lookup_lt_Some in Hp as Hplt.
    split; [rewrite (ix_num_gvec _ Hinv); unfold zsize, size in *; lia|].
    rewrite (gvec_at g Hinv Hfew Hshort k p c _ Hk Hp). by rewrite Hx, Hy.
  - right. split; [done|]. by rewrite Hxy.
Qed.

Lemma passing_triple_is_in_the_set_witness :
  (∃ ig, 0 ≤ ig < num_gvec_ flat_cell_gvec ∧
         gvec flat_cell_gvec ig = Ok (0, 0, gvec_by_coord (cubic_box 5) 3 2)) ∨
  (false = true ∧ (- 0, - 0) ∈ col_xy <$> z_columns_ flat_cell_gvec).
Proof.
  apply (passing_triple_is_in_the_set flat_cell flat_cell_key stable_sort (cubic_box 5) 4
           (mk_comm 1 0) false flat_cell_gvec 0 0 3 flat_cell_gvec_Ok flat_cell_short).
  - vm_compute. reflexivity.
  - assert (zmax (cubic_box 5) false 0 0 = 4) as -> by (vm_compute; reflexivity). lia.
  - vm_compute. reflexivity.
Defined.

(** X11: no vector is twice in the set, when no column is longer than 4096
    and the grid gives different frequencies to different grid indices of
    the z-loop. *)
Theorem gvec_is_injective
    in_cutoff gk_key sorter fft_box num_ranks fft_comm reduce_gvec g ig1 ig2 G :
  Gvec_new in_cutoff gk_key sorter fft_box num_ranks fft_comm reduce_gvec = Ok g →
  Forall (λ c, zsize c ≤ 4096) (z_columns_ g) →
  (∀ i j a b, 0 ≤ a ≤ zmax fft_box reduce_gvec i j → 0 ≤ b ≤ zmax fft_box reduce_gvec i j →
              gvec_by_coord fft_box a 2 = gvec_by_coord fft_box b 2 → a = b) →
  gvec g ig1 = Ok G → gvec g ig2 = Ok G → ig1 = ig2.
Proof.
  intros Hg Hshort Hinj H1 H2.
  destruct (Gvec_new_indexed _ _ _ _ _ _ _ _ Hg) as [Hinv Hfew].
  destruct (Gvec_new_columns _ _ _ _ _ _ _ _ Hg) as (en & Hen & Hperm & _).
  destruct (gvec_position g Hinv Hfew Hshort ig1 G H1)
    as (k1 & j1 & c1 & z1 & Hk1 & Hj1 & -> & ->).
  destruct (gvec_position g Hinv Hfew Hshort ig2 _ H2)
    as (k2 & j2 & c2 & z2 & Hk2 & Hj2 & -> & [= Hx Hy Hz]).
  assert (k1 = k2) as ->.
  { apply (NoDup_lookup (col_xy <$> z_columns_ g) k1 k2 (col_x c1, col_y c1));
      [apply (ix_distinct _ Hinv)|by rewrite list_lookup_fmap, Hk1|].
    rewrite list_lookup_fmap, Hk2. unfold col_xy. simpl. by rewrite Hx, Hy. }
  rewrite Hk1 in Hk2. injection Hk2 as <-. subst z2.
  assert (NoDup (col_z c1)) as Hnd.
  { assert (c1 ∈ z_columns_ g) as Hc by (by eapply list_elem_of_lookup_2).
    destruct (content_elem_of _ _ c1 Hperm Hc) as (c' & Hc' & (Hx' & Hy' & Hcz)%content_fields).
    destruct (enumerate_inv _ _ _ _ Hen) as [Hsc _ _ _].
    rewrite Forall_forall in Hsc. destruct (Hsc c' Hc') as (Hscan & _ & _).
    rewrite <- Hcz, Hscan, scan_z_passing.
    apply NoDup_fmap_2_strong.
    - intros a b Ha Hb Hab.
      pose proof (passing_range in_cutoff fft_box reduce_gvec (col_x c') (col_y c')) as Hr.
      rewrite Forall_forall in Hr. apply (Hinj (col_x c') (col_y c')); auto.
    - apply sorted_lt_NoDup, passing_sorted. }
  by rewrite (NoDup_lookup _ _ _ _ Hnd Hj1 Hj2).
Qed.

Lemma gvec_is_injective_witness :
  gvec flat_cell_gvec 3 = Ok (0, 0, -2) ∧
  ∀ ig, gvec flat_cell_gvec ig = Ok (0, 0, -2) → ig = 3.
Proof.
  assert (gvec flat_cell_gvec 3 = Ok (0, 0, -2)) as H3 by (vm_compute; reflexivity).
  split; [exact H3|]. intros ig Hig.
  apply (gvec_is_injective flat_cell flat_cell_key stable_sort (cubic_box 5) 4
           (mk_comm 1 0) false flat_cell_gvec ig 3 (0, 0, -2) flat_cell_gvec_Ok
           flat_cell_short (cubic_box_5_injective false) Hig H3).
Defined.

(** X12: in a reduced set no column other than (0, 0) has the column of the
    opposite (x, y) beside it. *)
Theorem reduced_set_keeps_one_of_a_pair
    in_cutoff gk_key sorter fft_box num_ranks fft_comm g c d :
  Gvec_new in_cutoff gk_key sorter fft_box num_ranks fft_comm true = Ok g →
  c ∈ z_columns_ g → d ∈ z_columns_ g →
  col_x d = - col_x c → col_y d = - col_y c →
  col_x c = 0 ∧ col_y c = 0.
Proof.
  intros Hg Hc Hd Hx Hy.
  destruct (Gvec_new_columns _ _ _ _ _ _ _ _ Hg) as (en & Hen & Hperm & _).
  destruct (content_elem_of _ _ c Hperm Hc) as (c' & Hc' & (Hcx & Hcy & _)%content_fields).
  destruct (content_elem_of _ _ d Hperm Hd) as (d' & Hd' & (Hdx & Hdy & _)%content_fields).
  destruct (enumerate_marks _ _ _ _ Hen) as [_ _ _ Hopp].
  rewrite <- Hcx, <- Hcy. apply (Hopp eq_refl c' d' Hc' Hd'); lia.
Qed.

Lemma reduced_set_keeps_one_of_a_pair_witness :
  z_columns_ (whole_box_gvec 1 true) !! 0%nat = Some (mk_z_column 0 0 [0; 1; 2] (Some 0)) ∧
  col_x (mk_z_column 0 0 [0; 1; 2] (Some 0)) = 0 ∧
  col_y (mk_z_column 0 0 [0; 1; 2] (Some 0)) = 0.
Proof.
  assert (z_columns_ (whole_box_gvec 1 true) !! 0%nat =
          Some (mk_z_column 0 0 [0; 1; 2] (Some 0))) as H0 by (vm_compute; reflexivity).
  split; [exact H0|].
  apply (reduced_set_keeps_one_of_a_pair whole_box unit_key stable_sort (cubic_box 5) 1
           (mk_comm 1 0) (whole_box_gvec 1 true)
           (mk_z_column 0 0 [0; 1; 2] (Some 0)) (mk_z_column 0 0 [0; 1; 2] (Some 0))
           whole_box_reduced_Ok).
  - by eapply list_elem_of_lookup_2.
  - by eapply list_elem_of_lookup_2.
  - reflexivity.
  - reflexivity.
Defined.

(** ** The fine-grained tables of a constructed set *)

Lemma Gvec_new_tables in_cutoff gk_key sorter fft_box num_ranks fft_comm reduce_gvec g :
  Gvec_new in_cutoff gk_key sorter fft_box num_ranks fft_comm reduce_gvec = Ok g →
  num_ranks_ g = num_ranks ∧
  offsets (gvec_distr_ g) = prefix_sums 0 (counts (gvec_distr_ g)) ∧
  offsets (zcol_distr_ g) = prefix_sums 0 (counts (zcol_distr_ g)) ∧
  ∃ locals, distributed_inv g locals.
Proof.
  intros Hg. pose proof (Gvec_new_distributed _ _ _ _ _ _ _ _ Hg) as Hd.
  apply Gvec_new_Ok in Hg as (g0 & g1 & H0 & _ & (sh & lens & ->)%find_shells_frame & Hs).
  rewrite (same_num_ranks _ _ Hs), (same_gvec_distr _ _ Hs), (same_zcol_distr _ _ Hs).
  cbn [with_shells num_ranks_ gvec_distr_ zcol_distr_].
  apply Gvec_indexed_Ok in H0
    as (cols & st & _ & _ & _ & _ & -> & -> & _ & _ & -> & _).
  done.
Qed.






Section ranks.
Variable g : Gvec.
Variable locals : list (list z_column_descriptor).
Hypothesis distributed : distributed_inv g locals.

Lemma gvec_counts_length : length (counts (gvec_distr_ g)) = length locals.
Proof using distributed. by rewrite (di_gvec _ _ distributed), length_fmap. Qed.

Lemma zcol_counts_length : length (counts (zcol_distr_ g)) = length locals.
Proof using distributed. by rewrite (di_zcol _ _ distributed), length_fmap. Qed.



Lemma gvec_counts_total : sumZ (counts (gvec_distr_ g)) = sumZ (zsize <$> z_columns_ g).
Proof using distributed.
  rewrite (di_gvec _ _ distributed), sumZ_loads.
  by rewrite (zsize_content_fmap _ _ (di_columns _ _ distributed)).
Qed.

Lemma zcol_counts_total : sumZ (counts (zcol_distr_ g)) = size (z_columns_ g).
Proof using distributed.
  rewrite (di_zcol _ _ distributed), sumZ_sizes.
  by rewrite (content_size _ _ (di_columns _ _ distributed)).
Qed.

End ranks.

(** X13: the distribution loses nothing: the columns of the set are those of
    the enumerator, the counts of the ranks add up to the number of
    G-vectors and to the number of columns. *)
Theorem distribution_keeps_every_column
    in_cutoff gk_key sorter fft_box num_ranks fft_comm reduce_gvec g :
  Gvec_new in_cutoff gk_key sorter fft_box num_ranks fft_comm reduce_gvec = Ok g →
  (∃ en, enumerate in_cutoff fft_box reduce_gvec = Ok en ∧
         col_content <$> z_columns_ g ≡ₚ col_content <$> en_columns en) ∧
  size (counts (gvec_distr_ g)) = num_ranks ∧
  size (counts (zcol_distr_ g)) = num_ranks ∧
  sumZ (counts (gvec_distr_ g)) = num_gvec_ g ∧
  sumZ (counts (zcol_distr_ g)) = size (z_columns_ g) ∧
  num_zcol g = size (z_columns_ g) ∧
  num_gvec_ g = sumZ (zsize <$> z_columns_ g).
Proof.
  intros Hg.
  destruct (Gvec_new_columns _ _ _ _ _ _ _ _ Hg) as (en & Hen & Hperm & _).
  destruct (Gvec_new_indexed _ _ _ _ _ _ _ _ Hg) as [Hinv Hfew].
  destruct (Gvec_new_tables _ _ _ _ _ _ _ _ Hg) as (HR & _ & _ & locals & Hd).
  split; [by exists en|].
  pose proof (gvec_counts_length g locals Hd) as Hl1.
  pose proof (zcol_counts_length g locals Hd) as Hl2.
  pose proof (di_ranks _ _ Hd) as Hranks. unfold size in *.
  split; [lia|]. split; [lia|].
  split; [by rewrite (gvec_counts_total g locals Hd), (ix_num_gvec _ Hinv)|].
  split; [apply (zcol_counts_total g locals Hd)|].
  split; [|apply (ix_num_gvec _ Hinv)].
  unfold num_zcol, to_int. pose proof (size_nonneg (z_columns_ g)).
  rewrite Z.mod_small; unfold size in *; lia.
Qed.

Lemma distribution_keeps_every_column_witness :
  (∃ en, enumerate flat_cell (cubic_box 5) false = Ok en ∧
         col_content <$> z_columns_ flat_cell_gvec ≡ₚ col_content <$> en_columns en) ∧
  size (counts (gvec_distr_ flat_cell_gvec)) = 4 ∧
  size (counts (zcol_distr_ flat_cell_gvec)) = 4 ∧
  sumZ (counts (gvec_distr_ flat_cell_gvec)) = num_gvec_ flat_cell_gvec ∧
  sumZ (counts (zcol_distr_ flat_cell_gvec)) = size (z_columns_ flat_cell_gvec) ∧
  num_zcol flat_cell_gvec = size (z_columns_ flat_cell_gvec) ∧
  num_gvec_ flat_cell_gvec = sumZ (zsize <$> z_columns_ flat_cell_gvec).
Proof.
  exact (distribution_keeps_every_column flat_cell flat_cell_key stable_sort (cubic_box 5) 4
           (mk_comm 1 0) false flat_cell_gvec flat_cell_gvec_Ok).
Defined.



(** ** What [prepare] writes *)

Lemma ranks_per_fft_rank_Ok g nrc :
  ranks_per_fft_rank g = Ok nrc →
  comm_size (fft_comm_ g) ≠ 0 ∧ num_ranks_ g = nrc * comm_size (fft_comm_ g).
Proof.
  unfold ranks_per_fft_rank. case_bool_decide as HF; [done|].
  case_bool_decide as HR; [done|]. intros [= <-]. split; [done|]. lia.
Qed.

Lemma set_offsets_app (l1 l2 : list z_column_descriptor) : ∀ a,
  set_offsets a (l1 ++ l2) = set_offsets a l1 ++ set_offsets (a + sumZ (zsize <$> l1)) l2.
Proof.
  induction l1 as [|c l1 IH]; intros a.
  - simpl. by rewrite Z.add_0_r.
  - rewrite fmap_cons, sumZ_cons. cbn [app set_offsets]. rewrite IH.
    by rewrite Z.add_assoc.
Qed.

Lemma set_offsets_length (l : list z_column_descriptor) : ∀ a,
  length (set_offsets a l) = length l.
Proof. induction l as [|c l IH]; intros a; simpl; [done|]. by rewrite IH. Qed.

Lemma set_offsets_content (l : list z_column_descriptor) : ∀ a,
  col_content <$> set_offsets a l = col_content <$> l.
Proof. induction l as [|c l IH]; intros a; simpl; [done|]. by rewrite IH. Qed.

Lemma set_offsets_Some (l : list z_column_descriptor) : ∀ a,
  Forall (λ c, is_Some (col_offset c)) (set_offsets a l).
Proof. induction l as [|c l IH]; intros a; simpl; constructor; [by eexists|apply IH]. Qed.

(** The loop over the columns of one rank of the FFT communicator, with
    the columns it leaves. *)
Lemma offsets_loop_exact g (k o : nat) (cols : list z_column_descriptor) (a : Z) (m : nat) :
  offsets (zcol_distr_fft_ g) !! k = Some (Z.of_nat o) →
  (o + m ≤ length cols)%nat →
  foldM (offset_of_column g (Z.of_nat k)) (cols, a) (seqZ 0 (Z.of_nat m)) =
    Ok (take o cols ++ set_offsets a (take m (drop o cols)) ++ drop (o + m) cols,
        a + sumZ (zsize <$> take m (drop o cols))).
Proof.
  intros Ho. induction m as [|m IH]; intros Hm.
  - simpl. rewrite Nat.add_0_r, take_drop, Z.add_0_r. done.
  - rewrite seqZ_S, foldM_snoc, IH by lia. cbn [mbind result_bind].
    unfold offset_of_column. rewrite (at_nat _ _ _ Ho). cbn [mbind result_bind fst snd].
    replace (Z.of_nat o + (0 + Z.of_nat m)) with (Z.of_nat (o + m)) by lia.
    destruct (lookup_lt_is_Some_2 cols (o + m)) as [c Hc]; [lia|].
    assert (drop o cols !! m = Some c) as Hd by (by rewrite lookup_drop).
    assert (drop (o + m) cols = c :: drop (o + S m) cols) as Hrest.
    { rewrite (drop_S _ _ _ Hc). do 2 f_equal. lia. }
    assert (length (take o cols ++ set_offsets a (take m (drop o cols))) = (o + m)%nat)
      as Hlen.
    { rewrite length_app, set_offsets_length, !length_take, length_drop. lia. }
    rewrite Hrest, app_assoc.
    assert (at_ ((take o cols ++ set_offsets a (take m (drop o cols))) ++
                 c :: drop (o + S m) cols) (Z.of_nat (o + m)) = Ok c) as ->.
    { apply at_nat. rewrite lookup_app_r by lia. by rewrite Hlen, Nat.sub_diag. }
    cbn [mbind result_bind]. rewrite Nat2Z.id. f_equal. f_equal.
    + rewrite insert_app_r_alt by lia. rewrite Hlen, Nat.sub_diag. cbn [insert list_insert].
      rewrite (take_S_r _ _ _ Hd), set_offsets_app. cbn [set_offsets].
      by rewrite <- !app_assoc.
    + rewrite (take_S_r _ _ _ Hd), fmap_app, sumZ_app. simpl. lia.
Qed.

Lemma offsets_of_rank_exact g (k o m : nat) (cols cols' : list z_column_descriptor) :
  offsets (zcol_distr_fft_ g) !! k = Some (Z.of_nat o) →
  counts (zcol_distr_fft_ g) !! k = Some (Z.of_nat m) →
  (o + m ≤ length cols)%nat →
  offsets_of_rank g cols (Z.of_nat k) = Ok cols' →
  cols' = take o cols ++ set_offsets 0 (take m (drop o cols)) ++ drop (o + m) cols.
Proof.
  intros Ho Hm Hlen. unfold offsets_of_rank. rewrite (at_nat _ _ _ Hm).
  cbn [mbind result_bind]. rewrite (offsets_loop_exact g k o cols 0 m Ho Hlen).
  cbn [mbind result_bind fst snd].
  by intros (total & _ & (u & _ & [= <-])%bind_Ok)%bind_Ok.
Qed.

Lemma chunks_snoc {A : Type} (lens : list nat) (m : nat) : ∀ l : list A,
  chunks (lens ++ [m]) l = chunks lens l ++ [take m (drop (sum_list lens) l)].
Proof.
  induction lens as [|n lens IH]; intros l; simpl; [done|].
  by rewrite IH, drop_drop.
Qed.

Lemma chunks_length {A : Type} (lens : list nat) : ∀ l : list A,
  (sum_list lens ≤ length l)%nat → length (concat (chunks lens l)) = sum_list lens.
Proof.
  induction lens as [|n lens IH]; intros l Hl; simpl in *; [done|].
  rewrite length_app, length_take, IH by (rewrite length_drop; lia). lia.
Qed.

Lemma sum_list_take_le (lens : list nat) (k : nat) :
  (sum_list (take k lens) ≤ sum_list lens)%nat.
Proof.
  revert k. induction lens as [|n lens IH]; intros [|k]; simpl; try lia.
  specialize (IH k). lia.
Qed.

Lemma sum_list_take_S (lens : list nat) (k m : nat) :
  lens !! k = Some m → sum_list (take (S k) lens) = (sum_list (take k lens) + m)%nat.
Proof.
  intros H. rewrite (take_S_r _ _ _ H), sum_list_with_app. simpl. lia.
Qed.

Lemma sumZ_of_nat (lens : list nat) : sumZ (Z.of_nat <$> lens) = Z.of_nat (sum_list lens).
Proof.
  induction lens as [|n lens IH]; [done|].
  rewrite fmap_cons, sumZ_cons, IH. simpl. lia.
Qed.

Lemma set_chunks_content (L : list (list z_column_descriptor)) :
  col_content <$> concat (set_offsets 0 <$> L) = col_content <$> concat L.
Proof.
  induction L as [|l L IH]; [done|].
  rewrite fmap_cons, !concat_cons, !fmap_app, set_offsets_content. by rewrite IH.
Qed.

Lemma set_chunks_length (lens : list nat) (cols : list z_column_descriptor) :
  (sum_list lens ≤ length cols)%nat →
  length (concat (set_offsets 0 <$> chunks lens cols)) = sum_list lens.
Proof.
  intros Hl. rewrite <- (chunks_length lens cols Hl).
  apply content_length, set_chunks_content.
Qed.

(** [calc_offsets]: the columns are cut into the blocks of the ranks of the
    FFT communicator, and each block is numbered from 0. *)
Lemma calc_offsets_exact g (lens : list nat) g' :
  counts (zcol_distr_fft_ g) = Z.of_nat <$> lens →
  offsets (zcol_distr_fft_ g) = prefix_sums 0 (counts (zcol_distr_fft_ g)) →
  comm_size (fft_comm_ g) = Z.of_nat (length lens) →
  sum_list lens = length (z_columns_ g) →
  calc_offsets g = Ok g' →
  z_columns_ g' = concat (set_offsets 0 <$> chunks lens (z_columns_ g)).
Proof.
  intros Hcnt Hoff HF Hsum. unfold calc_offsets.
  intros (cols & Hcols & [= <-])%bind_Ok. cbn [with_columns z_columns_].
  set (cols0 := z_columns_ g) in *. rewrite HF in Hcols.
  set (P := λ (s : list z_column_descriptor) (rest : list Z),
         ∃ k : nat, (k ≤ length lens)%nat ∧
           rest = seqZ (Z.of_nat k) (Z.of_nat (length lens - k)) ∧
           s = concat (set_offsets 0 <$> chunks (take k lens) cols0) ++
               drop (sum_list (take k lens)) cols0).
  assert (P cols []) as (k & Hk & Hnil & ->).
  { revert Hcols. apply (foldM_invariant P (offsets_of_rank g)).
    - intros s a l s' (k & Hk & Hrest & ->) Hstep.
      destruct (decide (k < length lens)%nat) as [Hlt|Hge].
      2:{ by replace (length lens - k)%nat with 0%nat in Hrest by lia. }
      rewrite seqZ_cons in Hrest by lia. injection Hrest as -> ->.
      destruct (lookup_lt_is_Some_2 lens k) as [m Hm]; [done|].
      set (o := sum_list (take k lens)) in *.
      set (A := concat (set_offsets 0 <$> chunks (take k lens) cols0)) in *.
      pose proof (sum_list_take_le lens k) as Hle.
      pose proof (sum_list_take_le lens (S k)) as Hle'.
      rewrite (sum_list_take_S _ _ _ Hm) in Hle'. fold o in Hle, Hle'.
      assert (length A = o) as HA by (apply set_chunks_length; fold o; lia).
      assert (offsets (zcol_distr_fft_ g) !! k = Some (Z.of_nat o)) as Ho.
      { rewrite Hoff, prefix_sums_lookup by (rewrite Hcnt, length_fmap; lia).
        by rewrite Hcnt, <- fmap_take, sumZ_of_nat. }
      assert (counts (zcol_distr_fft_ g) !! k = Some (Z.of_nat m)) as Hmk
        by (by rewrite Hcnt, list_lookup_fmap, Hm).
      apply (offsets_of_rank_exact g k o m _ _ Ho Hmk) in Hstep;
        [|rewrite length_app, length_drop; lia].
      exists (S k). split; [lia|]. split; [f_equal; lia|].
      rewrite Hstep, <- drop_drop.
      rewrite (take_app_length' A) by done. rewrite (drop_app_length' A) by done.
      rewrite (take_S_r _ _ _ Hm), chunks_snoc, fmap_app, concat_app.
      rewrite sum_list_with_app. fold o A. simpl. rewrite app_nil_r, Nat.add_0_r, drop_drop.
      by rewrite <- app_assoc.
    - exists 0%nat. split; [lia|]. split; [by rewrite Nat.sub_0_r|done]. }
  assert (k = length lens) as ->.
  { destruct (decide (k < length lens)%nat) as [Hlt|Hge]; [|lia].
    rewrite seqZ_cons in Hnil by lia. done. }
  by rewrite firstn_all, Hsum, drop_all, app_nil_r.
Qed.

(** The three stages of [prepare] on a distributed set, in closed form. *)
Lemma prepare_shape c g g' locals :
  distributed_inv g locals → prepare c g = Ok g' →
  ∃ (F n rk : nat) cols,
    comm_size c = Z.of_nat F ∧ comm_rank c = Z.of_nat rk ∧ (rk < F)%nat ∧ (0 < n)%nat ∧
    num_ranks_ g = Z.of_nat (F * n) ∧
    calc_offsets
      (with_fft_distr
         (calc_block_offsets (mk_block (group_sum n (counts (gvec_distr_ g)) <$> seq 0 F) []))
         (calc_block_offsets (mk_block (group_sum n (counts (zcol_distr_ g)) <$> seq 0 F) []))
         (with_fft_comm c g)) =
      Ok (with_columns cols
         (with_fft_distr
            (calc_block_offsets (mk_block (group_sum n (counts (gvec_distr_ g)) <$> seq 0 F) []))
            (calc_block_offsets (mk_block (group_sum n (counts (zcol_distr_ g)) <$> seq 0 F) []))
            (with_fft_comm c g))) ∧
    g' = with_slab
           (calc_block_offsets
              (mk_block (take n (drop (rk * n) (counts (gvec_distr_ g)))) []))
           (with_columns cols
              (with_fft_distr
                 (calc_block_offsets
                    (mk_block (group_sum n (counts (gvec_distr_ g)) <$> seq 0 F) []))
                 (calc_block_offsets
                    (mk_block (group_sum n (counts (zcol_distr_ g)) <$> seq 0 F) []))
                 (with_fft_comm c g))).
Proof.
  intros Hd. unfold prepare. intros (g1 & H1 & (g2 & H2 & H3)%bind_Ok)%bind_Ok.
  pose proof H1 as H1'. unfold build_fft_distr in H1'.
  apply bind_Ok in H1' as (gd & [HF0 _]%block_new_Ok & (zd & _ &
    (nrc & [HFne HR]%ranks_per_fft_rank_Ok & _)%bind_Ok)%bind_Ok).
  cbn [with_fft_comm fft_comm_ num_ranks_] in HF0, HFne, HR.
  pose proof (di_positive _ _ Hd) as Hpos.
  pose proof (di_ranks _ _ Hd) as Hranks. unfold size in Hranks.
  assert (0 < nrc) as Hnrc by nia.
  set (F := Z.to_nat (comm_size c)). set (n := Z.to_nat nrc).
  assert (comm_size c = Z.of_nat F) as HF by (unfold F; lia).
  assert (num_ranks_ g = Z.of_nat (F * n)) as HRn by (unfold F, n; nia).
  assert (length locals = (F * n)%nat) as Hlen by lia.
  pose proof (gvec_counts_length g locals Hd) as Hl1.
  pose proof (zcol_counts_length g locals Hd) as Hl2.
  rewrite (build_fft_distr_Ok (with_fft_comm c g) F n) in H1;
    [|done|lia|done|unfold size; cbn; lia..].
  injection H1 as <-. cbn [with_fft_comm gvec_distr_ zcol_distr_] in *.
  pose proof H2 as (cols & -> & Hcols)%calc_offsets_frame.
  unfold pile_gvec in H3.
  assert (∀ g0, fft_comm_ g0 = c → num_ranks_ g0 = num_ranks_ g →
                ranks_per_fft_rank g0 = Ok (Z.of_nat n)) as Hrp.
  { intros g0 Hc0 HR0. destruct (ranks_per_fft_rank_exact g0) as (nrc' & -> & Hnrc').
    - rewrite Hc0. lia.
    - rewrite Hc0, HR0, HR. by exists nrc.
    - f_equal. rewrite Hc0, HR0, HR in Hnrc'. unfold n. nia. }
  rewrite Hrp in H3 by done. cbn [mbind result_bind] in H3.
  unfold block_new in H3. rewrite bool_decide_eq_true_2 in H3 by lia.
  cbn [mbind result_bind counts offsets] in H3. rewrite Nat2Z.id in H3.
  apply bind_Ok in H3 as (cnts & Hloop & H3).
  apply bind_Ok in H3 as (o & _ & (cc & _ & (total & Htot & (u & _ & Heq)%bind_Ok)%bind_Ok)%bind_Ok).
  injection Heq as <-.
  cbn [with_columns with_fft_distr with_fft_comm fft_comm_ gvec_distr_fft_
       calc_block_offsets counts] in Htot.
  apply at_Ok in Htot as [Hrk0 Hrk%lookup_lt_Some].
  rewrite length_fmap, length_seq in Hrk.
  set (rk := Z.to_nat (comm_rank c)) in *.
  assert (comm_rank c = Z.of_nat rk) as Hrank by (unfold rk; lia).
  cbn [with_columns with_fft_distr with_fft_comm fft_comm_] in Hloop.
  rewrite Hrank in Hloop.
  rewrite (slab_loop _ locals F n Hlen rk n Hrk (le_n n)) in Hloop;
    [|by rewrite <- (di_gvec _ _ Hd)|done].
  injection Hloop as <-. rewrite Nat.sub_diag, app_nil_r.
  exists F, n, rk, cols. unfold n in *. repeat split; try done; lia.
Qed.

(** X15: the G-vectors of a rank of the FFT communicator are those of its
    fine-grained ranks: its offset is the offset of the first of them and
    its count the sum of their counts. *)
Theorem fft_rank_covers_its_ranks
    in_cutoff gk_key sorter fft_box num_ranks fft_comm reduce_gvec g c g' :
  Gvec_new in_cutoff gk_key sorter fft_box num_ranks fft_comm reduce_gvec = Ok g →
  prepare c g = Ok g' →
  ∃ nrc o n,
    0 < nrc ∧ num_ranks = nrc * comm_size c ∧ 0 ≤ comm_rank c < comm_size c ∧
    gvec_offset_fft g' = Ok o ∧ gvec_count_fft g' = Ok n ∧
    gvec_offset g (comm_rank c * nrc) = Ok o ∧
    n = sumZ (take (Z.to_nat nrc)
                (drop (Z.to_nat (comm_rank c * nrc)) (counts (gvec_distr_ g)))) ∧
    size (counts (gvec_distr_fft_ g')) = comm_size c ∧
    sumZ (counts (gvec_distr_fft_ g')) = num_gvec_ g.
Proof.
  intros Hg Hp.
  destruct (Gvec_new_tables _ _ _ _ _ _ _ _ Hg) as (HR & Hgo & _ & locals & Hd).
  destruct (Gvec_new_indexed _ _ _ _ _ _ _ _ Hg) as [Hinv _].
  destruct (prepare_shape c g g' locals Hd Hp)
    as (F & n & rk & cols & HF & Hrk & HrkF & Hn & HRn & _ & ->).
  pose proof (gvec_counts_length g locals Hd) as Hl1.
  pose proof (gvec_counts_total g locals Hd) as Htotal.
  pose proof (di_ranks _ _ Hd) as Hranks. unfold size in Hranks.
  set (gc := counts (gvec_distr_ g)) in *.
  exists (Z.of_nat n), (sumZ (take (rk * n) gc)), (group_sum n gc rk).
  split; [lia|]. split; [lia|]. split; [lia|].
  unfold gvec_offset_fft, gvec_count_fft, gvec_offset.
  cbn [with_slab with_columns with_fft_distr with_fft_comm fft_comm_ gvec_distr_fft_
       calc_block_offsets counts offsets gvec_distr_ num_ranks_ num_gvec_].
  rewrite Hrk. split; [|split; [|split; [|split; [|split]]]].
  - apply at_nat. rewrite prefix_sums_lookup by (rewrite length_fmap, length_seq; lia).
    by rewrite sumZ_groups, Z.add_0_l by lia.
  - apply at_nat. by rewrite list_lookup_fmap, lookup_seq_lt.
  - rewrite bool_decide_eq_true_2 by nia. cbn [assertion mbind result_bind].
    replace (Z.of_nat rk * Z.of_nat n) with (Z.of_nat (rk * n)) by lia.
    apply at_nat. rewrite Hgo. fold gc. rewrite prefix_sums_lookup by nia.
    by rewrite Z.add_0_l.
  - unfold group_sum. do 3 f_equal; lia.
  - unfold size. rewrite length_fmap, length_seq. lia.
  - rewrite <- (take_ge (group_sum n gc <$> seq 0 F) F)
      by (by rewrite length_fmap, length_seq).
    rewrite sumZ_groups, take_ge by lia. by rewrite Htotal, (ix_num_gvec _ Hinv).
Qed.

Lemma fft_rank_covers_its_ranks_witness :
  ∃ nrc o n,
    0 < nrc ∧ 4 = nrc * comm_size (mk_comm 2 1) ∧
    0 ≤ comm_rank (mk_comm 2 1) < comm_size (mk_comm 2 1) ∧
    gvec_offset_fft flat_cell_gvec2 = Ok o ∧ gvec_count_fft flat_cell_gvec2 = Ok n ∧
    gvec_offset flat_cell_gvec (comm_rank (mk_comm 2 1) * nrc) = Ok o ∧
    n = sumZ (take (Z.to_nat nrc)
                (drop (Z.to_nat (comm_rank (mk_comm 2 1) * nrc))
                   (counts (gvec_distr_ flat_cell_gvec)))) ∧
    size (counts (gvec_distr_fft_ flat_cell_gvec2)) = comm_size (mk_comm 2 1) ∧
    sumZ (counts (gvec_distr_fft_ flat_cell_gvec2)) = num_gvec_ flat_cell_gvec.
Proof.
  exact (fft_rank_covers_its_ranks flat_cell flat_cell_key stable_sort (cubic_box 5) 4
           (mk_comm 1 0) false flat_cell_gvec (mk_comm 2 1) flat_cell_gvec2
           flat_cell_gvec_Ok flat_cell_gvec2_Ok).
Defined.

(** X16: the slab table of a rank of the FFT communicator lists the counts of
    its fine-grained ranks, and they add up to the count of the rank. *)
Theorem slab_lists_the_fine_grained_ranks
    in_cutoff gk_key sorter fft_box num_ranks fft_comm reduce_gvec g c g' :
  Gvec_new in_cutoff gk_key sorter fft_box num_ranks fft_comm reduce_gvec = Ok g →
  prepare c g = Ok g' →
  ∃ nrc,
    0 < nrc ∧ num_ranks = nrc * comm_size c ∧
    size (counts (gvec_fft_slab_ g')) = nrc ∧
    (∀ i, 0 ≤ i < nrc →
       ∃ n, at_ (counts (gvec_fft_slab_ g')) i = Ok n ∧
            gvec_count g (comm_rank c * nrc + i) = Ok n) ∧
    offsets (gvec_fft_slab_ g') = prefix_sums 0 (counts (gvec_fft_slab_ g')) ∧
    gvec_count_fft g' = Ok (sumZ (counts (gvec_fft_slab_ g'))).
Proof.
  intros Hg Hp.
  destruct (Gvec_new_tables _ _ _ _ _ _ _ _ Hg) as (HR & Hgo & _ & locals & Hd).
  destruct (prepare_shape c g g' locals Hd Hp)
    as (F & n & rk & cols & HF & Hrk & HrkF & Hn & HRn & _ & ->).
  pose proof (gvec_counts_length g locals Hd) as Hl1.
  pose proof (di_ranks _ _ Hd) as Hranks. unfold size in Hranks.
  set (gc := counts (gvec_distr_ g)) in *.
  exists (Z.of_nat n).
  cbn [with_slab gvec_fft_slab_ calc_block_offsets counts offsets].
  assert (length (take n (drop (rk * n) gc)) = n) as Hlen
    by (rewrite length_take, length_drop; nia).
  split; [lia|]. split; [lia|]. split; [unfold size; lia|]. split; [|split; [done|]].
  - intros i Hi.
    destruct (lookup_lt_is_Some_2 (take n (drop (rk * n) gc)) (Z.to_nat i)) as [a Ha]; [lia|].
    exists a. split; [apply at_Ok; split; [lia|done]|].
    unfold gvec_count. rewrite bool_decide_eq_true_2 by nia.
    cbn [assertion mbind result_bind]. apply at_Ok. split; [nia|].
    rewrite lookup_take_lt, lookup_drop in Ha by lia.
    fold gc. rewrite <- Ha. f_equal. lia.
  - unfold gvec_count_fft.
    cbn [with_slab with_columns with_fft_distr with_fft_comm fft_comm_ gvec_distr_fft_
         calc_block_offsets counts].
    rewrite Hrk. apply at_nat. by rewrite list_lookup_fmap, lookup_seq_lt.
Qed.

Lemma slab_lists_the_fine_grained_ranks_witness :
  ∃ nrc,
    0 < nrc ∧ 4 = nrc * comm_size (mk_comm 2 1) ∧
    size (counts (gvec_fft_slab_ flat_cell_gvec2)) = nrc ∧
    (∀ i, 0 ≤ i < nrc →
       ∃ n, at_ (counts (gvec_fft_slab_ flat_cell_gvec2)) i = Ok n ∧
            gvec_count flat_cell_gvec (comm_rank (mk_comm 2 1) * nrc + i) = Ok n) ∧
    offsets (gvec_fft_slab_ flat_cell_gvec2) =
      prefix_sums 0 (counts (gvec_fft_slab_ flat_cell_gvec2)) ∧
    gvec_count_fft flat_cell_gvec2 = Ok (sumZ (counts (gvec_fft_slab_ flat_cell_gvec2))).
Proof.
  exact (slab_lists_the_fine_grained_ranks flat_cell flat_cell_key stable_sort (cubic_box 5) 4
           (mk_comm 1 0) false flat_cell_gvec (mk_comm 2 1) flat_cell_gvec2
           flat_cell_gvec_Ok flat_cell_gvec2_Ok).
Defined.

(** X17: [prepare] cuts the columns into the blocks of the ranks of the FFT
    communicator and gives every column the number of G-vectors of the
    columns before it in its block as its offset. *)
Theorem columns_get_offsets_per_fft_rank
    in_cutoff gk_key sorter fft_box num_ranks fft_comm reduce_gvec g c g' :
  Gvec_new in_cutoff gk_key sorter fft_box num_ranks fft_comm reduce_gvec = Ok g →
  prepare c g = Ok g' →
  z_columns_ g' =
    concat (set_offsets 0 <$> chunks (Z.to_nat <$> counts (zcol_distr_fft_ g')) (z_columns_ g)) ∧
  size (counts (zcol_distr_fft_ g')) = comm_size c ∧
  sumZ (counts (zcol_distr_fft_ g')) = size (z_columns_ g) ∧
  Forall (λ c, is_Some (col_offset c)) (z_columns_ g').
Proof.
  intros Hg Hp.
  destruct (Gvec_new_tables _ _ _ _ _ _ _ _ Hg) as (HR & _ & _ & locals & Hd).
  destruct (prepare_shape c g g' locals Hd Hp)
    as (F & n & rk & cols & HF & Hrk & HrkF & Hn & HRn & Hcalc & ->).
  pose proof (zcol_counts_length g locals Hd) as Hl2.
  pose proof (di_ranks _ _ Hd) as Hranks. unfold size in Hranks.
  cbn [with_slab with_columns with_fft_distr z_columns_ zcol_distr_fft_
       calc_block_offsets counts].
  set (lens := (λ k, length (concat (take n (drop (k * n) locals)))) <$> seq 0 F).
  assert (group_sum n (counts (zcol_distr_ g)) <$> seq 0 F = Z.of_nat <$> lens) as Hcnt.
  { unfold lens. rewrite <- list_fmap_compose. apply list_fmap_ext. intros _ k _.
    simpl. by rewrite (di_zcol _ _ Hd), group_sum_sizes. }
  assert (Z.to_nat <$> (Z.of_nat <$> lens) = lens) as Hback.
  { rewrite <- list_fmap_compose. rewrite <- (list_fmap_id lens) at 2.
    apply list_fmap_ext. intros _ k _. simpl. lia. }
  assert (sumZ (Z.of_nat <$> lens) = size (z_columns_ g)) as Hsum.
  { rewrite <- Hcnt. rewrite <- (take_ge (group_sum n _ <$> seq 0 F) F)
      by (by rewrite length_fmap, length_seq).
    rewrite sumZ_groups, take_ge by lia. apply (zcol_counts_total g locals Hd). }
  rewrite Hcnt, Hback.
  assert (cols = concat (set_offsets 0 <$> chunks lens (z_columns_ g))) as ->.
  { apply (calc_offsets_exact _ lens) in Hcalc; [done|done|done| |].
    - cbn. unfold lens. by rewrite length_fmap, length_seq.
    - cbn. rewrite sumZ_of_nat in Hsum. unfold size in Hsum. lia. }
  split; [done|]. split; [|split; [done|]].
  - unfold size, lens. rewrite !length_fmap, length_seq. lia.
  - apply Forall_concat, Forall_fmap, Forall_forall. intros l _. apply set_offsets_Some.
Qed.

Lemma columns_get_offsets_per_fft_rank_witness :
  z_columns_ flat_cell_gvec2 =
    concat (set_offsets 0 <$>
            chunks (Z.to_nat <$> counts (zcol_distr_fft_ flat_cell_gvec2))
                   (z_columns_ flat_cell_gvec)) ∧
  size (counts (zcol_distr_fft_ flat_cell_gvec2)) = comm_size (mk_comm 2 1) ∧
  sumZ (counts (zcol_distr_fft_ flat_cell_gvec2)) = size (z_columns_ flat_cell_gvec) ∧
  Forall (λ c, is_Some (col_offset c)) (z_columns_ flat_cell_gvec2).
Proof.
  exact (columns_get_offsets_per_fft_rank flat_cell flat_cell_key stable_sort (cubic_box 5) 4
           (mk_comm 1 0) false flat_cell_gvec (mk_comm 2 1) flat_cell_gvec2
           flat_cell_gvec_Ok flat_cell_gvec2_Ok).
Defined.

(** ** The numbering of the shells *)

(** X18: the shells are numbered by increasing quantised length of G + vk,
    the key [size_t(|G + vk| * 1e10)]: a G-vector is in a lower shell than
    another one exactly when its key is smaller, and in the same shell
    exactly when the keys are equal.  [gvec_len] is the double
    [static_cast<double>(key) * 1e-10] of the key of the G-vector, so that,
    the keys being below 2^64, [gvec_len] does not decrease with the shell
    number. *)
Theorem shell_order_is_length_order
    in_cutoff gk_key sorter fft_box num_ranks fft_comm reduce_gvec g ig1 ig2 :
  Gvec_new in_cutoff gk_key sorter fft_box num_ranks fft_comm reduce_gvec = Ok g →
  0 ≤ ig1 < num_gvec_ g → 0 ≤ ig2 < num_gvec_ g →
  ∃ gk1 gk2 n1 n2,
    gvec g ig1 = Ok gk1 ∧ gvec g ig2 = Ok gk2 ∧
    shell g ig1 = Ok n1 ∧ shell g ig2 = Ok n2 ∧
    gvec_len g ig1 = Ok (shell_length (gk_key gk1)) ∧
    gvec_len g ig2 = Ok (shell_length (gk_key gk2)) ∧
    (n1 < n2 ↔ (gk_key gk1 < gk_key gk2)%N) ∧
    (n1 = n2 ↔ gk_key gk1 = gk_key gk2) ∧
    ((gk_key gk2 < 2 ^ 64)%N → n1 ≤ n2 →
     double_le (shell_length (gk_key gk1)) (shell_length (gk_key gk2))).
Proof.
  intros (keys & Hsorted & Hlens & _ & _ & Hshell & _)%Gvec_new_shells H1 H2.
  destruct (Hshell ig1 H1) as (gk1 & n1 & Hg1 & Hn1 & Hk1).
  destruct (Hshell ig2 H2) as (gk2 & n2 & Hg2 & Hn2 & Hk2).
  exists gk1, gk2, n1, n2. do 4 (split; [done|]).
  assert (∀ n k, at_ keys n = Ok k → shell_len g n = Ok (shell_length k)) as Hlen.
  { intros n k [Hn Hk]%at_Ok. apply at_Ok. split; [done|].
    by rewrite Hlens, list_lookup_fmap, Hk. }
  split; [unfold gvec_len; rewrite Hn1; by apply Hlen|].
  split; [unfold gvec_len; rewrite Hn2; by apply Hlen|].
  destruct (sorted_keys_order keys n1 n2 _ _ Hsorted Hk1 Hk2) as [Hlt Heq].
  split; [done|]. split; [done|].
  intros Hsmall Hle. apply shell_length_mono; [|done].
  destruct (decide (n1 = n2)) as [Hn|Hn].
  - apply Heq in Hn. lia.
  - assert (n1 < n2) as Hn' by lia. apply Hlt in Hn'. lia.
Qed.

Lemma shell_order_is_length_order_witness :
  ∃ gk1 gk2 n1 n2,
    gvec flat_cell_gvec 1 = Ok gk1 ∧ gvec flat_cell_gvec 3 = Ok gk2 ∧
    shell flat_cell_gvec 1 = Ok n1 ∧ shell flat_cell_gvec 3 = Ok n2 ∧
    gvec_len flat_cell_gvec 1 = Ok (shell_length (flat_cell_key gk1)) ∧
    gvec_len flat_cell_gvec 3 = Ok (shell_length (flat_cell_key gk2)) ∧
    (n1 < n2 ↔ (flat_cell_key gk1 < flat_cell_key gk2)%N) ∧
    (n1 = n2 ↔ flat_cell_key gk1 = flat_cell_key gk2) ∧
    ((flat_cell_key gk2 < 2 ^ 64)%N → n1 ≤ n2 →
     double_le (shell_length (flat_cell_key gk1)) (shell_length (flat_cell_key gk2))).
Proof.
  assert (num_gvec_ flat_cell_gvec = 9) as Hnum by (vm_compute; reflexivity).
  apply (shell_order_is_length_order flat_cell flat_cell_key stable_sort (cubic_box 5) 4
           (mk_comm 1 0) false flat_cell_gvec 1 3 flat_cell_gvec_Ok); rewrite Hnum; lia.
Defined.

(** X19: the shells are numbered without gaps: the shell of a G-vector is a
    number below the number of shells, and every such number is the shell of
    a G-vector. *)
Theorem shells_are_numbered_without_gaps
    in_cutoff gk_key sorter fft_box num_ranks fft_comm reduce_gvec g :
  Gvec_new in_cutoff gk_key sorter fft_box num_ranks fft_comm reduce_gvec = Ok g →
  num_gvec_shells_ g = size (gvec_shell_len_ g) ∧
  1 ≤ num_gvec_shells_ g ∧
  (∀ ig, 0 ≤ ig < num_gvec_ g →
     ∃ n, shell g ig = Ok n ∧ 0 ≤ n < num_gvec_shells_ g) ∧
  (∀ n, 0 ≤ n < num_gvec_shells_ g →
     ∃ ig, 0 ≤ ig < num_gvec_ g ∧ shell g ig = Ok n).
Proof.
  intros (keys & Hsorted & Hlens & Hnum & Hpos & Hshell & _ & Hused)%Gvec_new_shells.
  assert (∀ ig, 0 ≤ ig < num_gvec_ g →
            ∃ n, shell g ig = Ok n ∧ 0 ≤ n < num_gvec_shells_ g) as Hin.
  { intros ig Hig. destruct (Hshell ig Hig) as (gk & n & _ & Hn & Hk).
    exists n. split; [done|].
    apply at_Ok in Hk as [Hn0 Hl%lookup_lt_Some]. rewrite Hnum. unfold size. lia. }
  split; [rewrite Hnum, Hlens; unfold size; by rewrite length_fmap|].
  split; [|split; [done|done]].
  destruct (Hin 0 ltac:(lia)) as (n & _ & Hn). lia.
Qed.

Lemma shells_are_numbered_without_gaps_witness :
  num_gvec_shells_ flat_cell_gvec = size (gvec_shell_len_ flat_cell_gvec) ∧
  1 ≤ num_gvec_shells_ flat_cell_gvec ∧
  (∀ ig, 0 ≤ ig < num_gvec_ flat_cell_gvec →
     ∃ n, shell flat_cell_gvec ig = Ok n ∧ 0 ≤ n < num_gvec_shells_ flat_cell_gvec) ∧
  (∀ n, 0 ≤ n < num_gvec_shells_ flat_cell_gvec →
     ∃ ig, 0 ≤ ig < num_gvec_ flat_cell_gvec ∧ shell flat_cell_gvec ig = Ok n).
Proof.
  exact (shells_are_numbered_without_gaps flat_cell flat_cell_key stable_sort (cubic_box 5) 4
           (mk_comm 1 0) false flat_cell_gvec flat_cell_gvec_Ok).
Defined.

(** ** Packed addresses beyond their ranges *)

(** X20: a position of 4096 or more spills into the column index of the
    packed address, and an address of 2^31 or more is read as a negative
    column index. *)
Theorem unpack_pack_spills (i j : Z) :
  0 ≤ i → 0 ≤ j →
  (i * 4096 + j < 2 ^ 31 → unpack (pack i j) = (i + j `div` 4096, j `mod` 4096)) ∧
  (2 ^ 31 ≤ i * 4096 + j < 2 ^ 32 → (unpack (pack i j)).1 < 0).
Proof.
  intros Hi Hj. unfold pack, unpack, to_int.
  rewrite Z.shiftl_mul_pow2 by lia. change (2 ^ 12) with 4096. split.
  - intros Hlt. rewrite Z.mod_small by lia.
    replace (i * 4096 + j + 2 ^ 31 - 2 ^ 31) with (i * 4096 + j) by lia.
    rewrite Z.shiftr_div_pow2 by lia. change 4095 with (Z.ones 12).
    rewrite Z.land_ones by lia. change (2 ^ 12) with 4096.
    f_equal.
    + rewrite Z.add_comm, Z.div_add by lia. lia.
    + rewrite Z.add_comm, Z.mod_add by lia. done.
  - intros Hov. cbn [fst]. rewrite Z.shiftr_div_pow2 by lia. change (2 ^ 12) with 4096.
    assert ((i * 4096 + j + 2 ^ 31) `mod` 2 ^ 32 = i * 4096 + j + 2 ^ 31 - 2 ^ 32) as ->.
    { symmetry. apply Z.mod_unique with 1; lia. }
    apply Z.div_lt_upper_bound; lia.
Qed.

Lemma unpack_pack_spills_witness :
  unpack (pack 0 4096) = (1, 0) ∧ (unpack (pack (2 ^ 19) 0)).1 < 0.
Proof.
  destruct (unpack_pack_spills 0 4096 ltac:(lia) ltac:(lia)) as [H1 _].
  destruct (unpack_pack_spills (2 ^ 19) 0 ltac:(lia) ltac:(lia)) as [_ H2].
  split; [exact (H1 ltac:(lia))|exact (H2 ltac:(lia))].
Defined.
